(** * A Merkle hash tree over a heap of nodes

    Shallow embedding of package [merkle] (tree construction, the
    pointer-walking hash propagation, proof generation and proof
    verification) together with the properties stated about it.

    Conventions of the embedding.
    - A Go [int] is a [Z]; where a value can leave the 64-bit range the
      wrap-around is written with [wrap64].
    - A [[]byte] whose nil-ness the program observes is an
      [option bytes] ([None] is the nil slice); one that is only read
      as content is a [bytes].  Slices are modelled by their content:
      [Sum(nil)] and [append] onto a literal hand out fresh backing
      arrays, and where [append] may write in place ([hashing],
      [VerifyProof]) it writes past the length of every other slice on
      that array, so no write is seen through another slice.
    - [*Node] is an [option ptr]: [None] is the nil pointer, [Some a]
      the address [a] in the node heap; [&Node{...}] allocates at the
      next free address.
    - A function returning [(x, error)] returns an [outcome]: [Ret] for
      a nil error, [Err] for a non-nil one (both keep the state
      reached), [Crash] for a run-time panic, [Diverge] for a loop that
      does not leave within the fuel given. *)

From Stdlib Require Import ZArith Lia ZifyNat.
From Stdlib.Strings Require Import Byte.
From stdpp Require Import base option list numbers sets.

Local Open Scope Z_scope.

(** ** Generic pieces *)

Abbreviation bytes := (list byte).

#[global] Instance byte_eq_dec : EqDecision byte := Byte.byte_eq_dec.

Definition len {A} (l : list A) : Z := Z.of_nat (length l).

(** [l[i]] of Go for reading: [None] stands for the index-out-of-range
    panic. *)
Definition index {A} (l : list A) (i : Z) : option A :=
  if i <? 0 then None else l !! Z.to_nat i.

(** Two's-complement wrap-around of a 64-bit [int]. *)
Definition wrap64 (z : Z) : Z := (z + 2 ^ 63) mod 2 ^ 64 - 2 ^ 63.

Inductive panic := IndexOutOfRange | NilDereference.

(** The five [errors.New] values of the package, by message:
    "Tree is not empty" (InvalidState), "No vals" (EmptyInput),
    "Height out of range", "Val not found" (NotFound) and
    "Leaf node does not have value" (InvariantViolation). *)
Inductive error :=
  | ErrTreeNotEmpty
  | ErrNoVals
  | ErrHeightOutOfRange
  | ErrValNotFound
  | ErrLeafNoValue.

Inductive outcome (S A : Type) :=
  | Ret (a : A) (s : S)
  | Err (e : error) (s : S)
  | Crash (p : panic)
  | Diverge.
Arguments Ret {S A} a s.
Arguments Err {S A} e s.
Arguments Crash {S A} p.
Arguments Diverge {S A}.

Definition M (S A : Type) := S -> outcome S A.

Definition bind {S A B} (m : M S A) (k : A -> M S B) : M S B :=
  fun s =>
    match m s with
    | Ret a s' => k a s'
    | Err e s' => Err e s'
    | Crash p => Crash p
    | Diverge => Diverge
    end.

Notation "'do' x <- m ; k" := (bind m (fun x => k))
  (at level 10, x name, m at level 100, k at level 200).

(** ** Nodes and the node heap *)

Abbreviation ptr := nat.

Record Node := mkNode {
  h : option bytes;
  parent : option ptr;
  left : option ptr;
  right : option ptr
}.

Abbreviation Heap := (list Node).

Definition IsLeaf (nd : Node) : bool :=
  bool_decide (right nd = None) && bool_decide (left nd = None).

Definition deref (hp : Heap) (p : option ptr) : option Node :=
  match p with
  | None => None
  | Some a => hp !! a
  end.

(** [&Node{...}] *)
Definition alloc (nd : Node) (hp : Heap) : ptr * Heap :=
  (length hp, hp ++ [nd]).

Definition set_h (d : option bytes) (nd : Node) : Node :=
  mkNode d (parent nd) (left nd) (right nd).
Definition set_parent (p : option ptr) (nd : Node) : Node :=
  mkNode (h nd) p (left nd) (right nd).
Definition set_left (p : option ptr) (nd : Node) : Node :=
  mkNode (h nd) (parent nd) p (right nd).
Definition set_right (p : option ptr) (nd : Node) : Node :=
  mkNode (h nd) (parent nd) (left nd) p.

(** [p.field = v] through a pointer: a panic on nil. *)
Definition update (p : option ptr) (f : Node -> Node) : M Heap unit :=
  fun hp =>
    match p with
    | None => Crash NilDereference
    | Some a =>
      match hp !! a with
      | None => Crash NilDereference
      | Some nd => Ret tt (<[a := f nd]> hp)
      end
    end.

Abbreviation Level := (list (option ptr)).
Abbreviation Branch := (list (option bytes)).

(** [Proof{br, h}]; the field [h] is [ph] here, next to [h] of [Node]. *)
Record Proof := NewProof { br : Branch; ph : bytes }.

Record Tree := mkTree { nodes : Heap; levels : list Level }.

Definition NewTree : Tree := mkTree [] [].

Definition Height (t : Tree) : Z := len (levels t).

Definition Empty (t : Tree) : bool := Height t =? 0.

(** [bytes.Equal]: a nil slice equals an empty one. *)
Definition bytes_Equal (a : option bytes) (b : bytes) : bool :=
  bool_decide (default [] a = b).

(** ** util.go *)

Definition PowOf2 (i : Z) : bool :=
  negb (i =? 0) && (Z.land i (wrap64 (i - 1)) =? 0).

(** The loop of [Log2]; [None] when the fuel runs out. *)
Fixpoint Log2_loop (fuel : nat) (j l : Z) : option Z :=
  match fuel with
  | O => None
  | S fuel =>
    let j := Z.shiftr j 1 in
    if j =? 0 then Some l else Log2_loop fuel j (l + 1)
  end.

(** A non-negative [j] shrinks at every shift, so [i + 1] rounds are
    enough; a negative one never reaches 0, and the result is [None]. *)
Definition Log2 (i : Z) : option Z :=
  match Log2_loop (S (Z.to_nat i)) i 0 with
  | None => None
  | Some l => if PowOf2 i then Some l else Some (l + 1)
  end.

Definition calcTreeHeight (count : Z) : option Z :=
  if count =? 0 then Some 0
  else if count =? 1 then Some 2
  else match Log2 count with
       | None => None
       | Some l => Some (l + 1)
       end.

Section Merkle.

(** The digest engine: [hash x] is what [Reset(); Write(x); Sum(nil)]
    yields.  Every use in the package resets the engine first, so the
    engine's state never carries over from one digest to the next. *)
Variable hash : bytes -> bytes.

(** [Sum(nil)] appends the digest to the nil slice: the result is nil
    exactly when the digest has no bytes. *)
Definition Sum (data : bytes) : option bytes :=
  match hash data with
  | [] => None
  | d => Some d
  end.

(** ** hashing *)

Inductive step :=
  | Continue (n : option ptr) (hp : Heap)
  | Stop (r : outcome Heap (option bytes)).

(** [n.h = Sum(hcat)], then return at [nd] or climb to the parent. *)
Definition hashing_store (nd n : option ptr) (N : Node) (hcat : bytes)
    (hp : Heap) : step :=
  let d := Sum hcat in
  match update n (set_h d) hp with
  | Ret _ hp' =>
    if bool_decide (n = nd) then Stop (Ret d hp') else Continue (parent N) hp'
  | Err e s => Stop (Err e s)
  | Crash p => Stop (Crash p)
  | Diverge => Stop Diverge
  end.

(** One round of the [for] of [hashing], at the current node [n]. *)
Definition hashing_step (nd n : option ptr) (hp : Heap) : step :=
  match deref hp n with
  | None => Stop (Crash NilDereference)
  | Some N =>
    match h N with
    | Some d =>
      if bool_decide (n = nd) then Stop (Ret (Some d) hp)
      else Continue (parent N) hp
    | None =>
      if IsLeaf N then Stop (Err ErrLeafNoValue hp)
      else
        match deref hp (left N) with
        | None => Stop (Crash NilDereference)
        | Some L =>
          match h L with
          | None => Continue (left N) hp
          | Some hl =>
            match right N with
            | None => hashing_store nd n N hl hp
            | Some r =>
              match hp !! r with
              | None => Stop (Crash NilDereference)
              | Some R =>
                match h R with
                | None => Continue (right N) hp
                | Some hr => hashing_store nd n N (hl ++ hr) hp
                end
              end
            end
          end
        end
    end
  end.

Fixpoint hashing_loop (fuel : nat) (nd n : option ptr) (hp : Heap)
    : outcome Heap (option bytes) :=
  match fuel with
  | O => Diverge
  | S fuel =>
    match hashing_step nd n hp with
    | Continue n' hp' => hashing_loop fuel nd n' hp'
    | Stop r => r
    end
  end.

Definition hashing (fuel : nat) (nd : option ptr) : M Heap (option bytes) :=
  hashing_loop fuel nd nd.

(** ** Tree *)

Definition root : M Tree (option ptr) :=
  fun t =>
    match index (levels t) 0 with
    | None => Crash IndexOutOfRange
    | Some l =>
      match index l 0 with
      | None => Crash IndexOutOfRange
      | Some p => Ret p t
      end
    end.

Definition level (height : Z) : M Tree Level :=
  fun t =>
    let height := wrap64 (height - 1) in
    if (height <? 0) || (height >? Height t) then Err ErrHeightOutOfRange t
    else match index (levels t) height with
         | None => Crash IndexOutOfRange
         | Some l => Ret l t
         end.

(** [l[i]] followed by a field access: the node at position [i]. *)
Definition node_at (l : Level) (i : Z) : M Tree Node :=
  fun t =>
    match index l i with
    | None => Crash IndexOutOfRange
    | Some p =>
      match deref (nodes t) p with
      | None => Crash NilDereference
      | Some nd => Ret nd t
      end
    end.

(** ** ComputeProof *)

(** [for i, _ = range leaves { if bytes.Equal(leaves[i].h, h) { break } }]:
    [k] is the index the next round assigns to [i]; when the range is
    used up [i] keeps the value it was last given. *)
Fixpoint scan (rest : Level) (d : bytes) (k i : Z) : M Tree Z :=
  fun t =>
    match rest with
    | [] => Ret i t
    | p :: rest' =>
      match deref (nodes t) p with
      | None => Crash NilDereference
      | Some nd =>
        if bytes_Equal (h nd) d then Ret k t
        else scan rest' d (k + 1) k t
      end
    end.

(** The [if (i^1)&1 == 0 { br = append(br, append([]byte{0}, l[i^1].h...)) }
    else { ... []byte{1} ... }] that occurs twice in [ComputeProof]. *)
Definition sibling_entry (l : Level) (i : Z) (b : Branch) : M Tree Branch :=
  if Z.land (Z.lxor i 1) 1 =? 0 then
    do nd <- node_at l (Z.lxor i 1);
    Ret (b ++ [Some (x00 :: default [] (h nd))])
  else
    do nd <- node_at l (Z.lxor i 1);
    Ret (b ++ [Some (x01 :: default [] (h nd))]).

Fixpoint ComputeProof_loop (fuel : nat) (i height : Z) (b : Branch)
    : M Tree Branch :=
  match fuel with
  | O => fun _ => Diverge
  | S fuel =>
    let i := Z.quot i 2 in
    let height := height - 1 in
    do lv <- level height;
    if len lv =? 1 then Ret b
    else
      do b <- sibling_entry lv i b;
      ComputeProof_loop fuel i height b
  end.

(** [height] goes down by one per round and [level] fails below 1, so
    the loop is left within [Height t + 1] rounds. *)
Definition ComputeProof (val : bytes) : M Tree Proof :=
  fun t =>
    let d := hash val in
    let height := Height t in
    (do leaves <- level height;
     do i <- scan leaves d 0 0;
     if i =? len leaves then Err ErrValNotFound
     else
       do b <- sibling_entry leaves i [];
       do b <- ComputeProof_loop (S (Z.to_nat height)) i height b;
       Ret (NewProof b d)) t.

(** ** VerifyProof *)

(** The body of the [for _, h := range p.br]: the new [p.h], or a panic
    at [h[0]] for a non-nil entry without bytes. *)
Definition VerifyProof_step (w : bytes) (e : option bytes) : option bytes :=
  match e with
  | Some [] => None
  | Some (b :: s) =>
    if bool_decide (b = x00) then Some (hash (s ++ w))
    else if bool_decide (b = x01) then Some (hash (w ++ s))
    else Some (hash w)
  | None => Some (hash w)
  end.

Fixpoint VerifyProof_loop (b : Branch) (w : bytes) : option bytes :=
  match b with
  | [] => Some w
  | e :: b' =>
    match VerifyProof_step w e with
    | None => None
    | Some w' => VerifyProof_loop b' w'
    end
  end.

(** The [*Proof] argument is modified in place: the call returns the
    proof as the caller finds it afterwards, next to the verdict. *)
Definition VerifyProof (p : Proof) : M Tree (bool * Proof) :=
  fun t =>
    match VerifyProof_loop (br p) (ph p) with
    | None => Crash IndexOutOfRange
    | Some w =>
      (do r <- root;
       do nd <- (fun t => match deref (nodes t) r with
                          | None => Crash NilDereference
                          | Some nd => Ret nd t
                          end);
       Ret (bytes_Equal (h nd) w, NewProof (br p) w)) t
    end.

(** ** Construct *)

Definition on_heap {A} (m : M Heap A) : M Tree A :=
  fun t =>
    match m (nodes t) with
    | Ret a hp => Ret a (mkTree hp (levels t))
    | Err e hp => Err e (mkTree hp (levels t))
    | Crash p => Crash p
    | Diverge => Diverge
    end.

(** [t.levels[height] = l] *)
Definition store_level (height : Z) (l : Level) : M Tree unit :=
  fun t =>
    match index (levels t) height with
    | None => Crash IndexOutOfRange
    | Some _ => Ret tt (mkTree (nodes t) (<[Z.to_nat height := l]> (levels t)))
    end.

(** [t.levels[height][i] = p] *)
Definition store_entry (height i : Z) (p : option ptr) : M Tree unit :=
  fun t =>
    match index (levels t) height with
    | None => Crash IndexOutOfRange
    | Some l =>
      match index l i with
      | None => Crash IndexOutOfRange
      | Some _ =>
        Ret tt (mkTree (nodes t)
                  (<[Z.to_nat height := <[Z.to_nat i := p]> l]> (levels t)))
      end
    end.

(** The [for i, val := range vals] of [Construct]. *)
Fixpoint fill_leaves (vals : list bytes) (height i : Z) : M Tree unit :=
  match vals with
  | [] => Ret tt
  | val :: vals' =>
    fun t =>
      let d := Sum val in
      let (a, hp) := alloc (mkNode d None None None) (nodes t) in
      (do _ <- store_entry height i (Some a);
       fill_leaves vals' height (i + 1)) (mkTree hp (levels t))
  end.

(** The [for i := 0; i < size; i++] of [constructLevel], with [n] rounds
    to go. *)
Fixpoint constructLevel_loop (n : nat) (i : Z) (children parents : Level)
    : M Heap Level :=
  match n with
  | O => Ret parents
  | S n =>
    fun hp =>
      let (a, hp) := alloc (mkNode None None None None) hp in
      let nd := Some a in
      let il := 2 * i in
      let ir := 2 * i + 1 in
      match index children il with
      | None => Crash IndexOutOfRange
      | Some nl =>
        (do _ <- update nd (set_left nl);
         do _ <- update nl (set_parent nd);
         do _ <- (if ir <? len children then
                    match index children ir with
                    | None => fun _ => Crash IndexOutOfRange
                    | Some nr =>
                      do _ <- update nd (set_right nr);
                      update nr (set_parent nd)
                    end
                  else Ret tt);
         match index parents i with
         | None => fun _ => Crash IndexOutOfRange
         | Some _ =>
           constructLevel_loop n (i + 1) children (<[Z.to_nat i := nd]> parents)
         end) hp
      end
  end.

Definition constructLevel (children : Level) : M Heap Level :=
  let size := Z.quot (len children + Z.rem (len children) 2) 2 in
  let parents := replicate (Z.to_nat size) None in
  constructLevel_loop (Z.to_nat size) 0 children parents.

(** The [for height > 0] of [Construct]; [height] falls by one per
    round, so [height] rounds of fuel are never used up. *)
Fixpoint build_levels (fuel : nat) (height : Z) : M Tree unit :=
  if height >? 0 then
    match fuel with
    | O => fun _ => Diverge
    | S fuel =>
      fun t =>
        match index (levels t) height with
        | None => Crash IndexOutOfRange
        | Some children =>
          let height := height - 1 in
          (do parents <- on_heap (constructLevel children);
           do _ <- store_level height parents;
           build_levels fuel height) t
        end
    end
  else Ret tt.

Definition setHashes (fuel : nat) : M Tree (option bytes) :=
  do r <- root;
  on_heap (hashing fuel r).

(** [fuel] bounds the rounds of the [for] of [hashing]. *)
Definition Construct (fuel : nat) (vals : list bytes) : M Tree (option bytes) :=
  fun t =>
    if negb (Empty t) then Err ErrTreeNotEmpty t
    else if len vals =? 0 then Err ErrNoVals t
    else
      let count := len vals in
      match calcTreeHeight count with
      | None => Diverge
      | Some height =>
        let t := mkTree (nodes t) (replicate (Z.to_nat height) []) in
        let height := height - 1 in
        (do _ <- store_level height (replicate (Z.to_nat count) None);
         do _ <- fill_leaves vals height 0;
         do _ <- build_levels (Z.to_nat height) height;
         setHashes fuel) t
      end.

End Merkle.
(** * Definitions used by the statements *)

(** [errs_in P m]: every error [m] returns satisfies [P]. *)
Definition errs_in {S A} (P : error -> Prop) (m : M S A) : Prop :=
  forall s e s', m s = Err e s' -> P e.


(** A digest engine for worked examples: it puts one byte in front of
    its input, so it is one-to-one and never yields the empty digest. *)
Definition toy_hash (x : bytes) : bytes := "#"%byte :: x.

(** The tree [Construct] leaves behind on a fresh tree, and the digest
    it returns. *)
Definition built (vals : list bytes) : Tree :=
  match Construct toy_hash (4 * length vals + 4) vals NewTree with
  | Ret _ t | Err _ t => t
  | _ => NewTree
  end.

Definition built_root (vals : list bytes) : option bytes :=
  match Construct toy_hash (4 * length vals + 4) vals NewTree with
  | Ret d _ => d
  | _ => None
  end.

(** The values of the demonstration program, ["a"] to ["h"]. *)
Definition vals8 : list bytes :=
  map (fun b => [b]) ["a"; "b"; "c"; "d"; "e"; "f"; "g"; "h"]%byte.

(** The node [t.root()] points to. *)
Definition root_node (t : Tree) : option Node :=
  match root t with
  | Ret r _ => deref (nodes t) r
  | _ => None
  end.

(** Branch entries as pairs of a direction and a sibling digest, their
    encoding as the byte strings [ComputeProof] emits, and the fold
    over them. *)
Inductive direction := LEFT | RIGHT.

Definition encode (e : direction * bytes) : option bytes :=
  match e with
  | (LEFT, s) => Some (x00 :: s)
  | (RIGHT, s) => Some (x01 :: s)
  end.

Section Replay.

Variable hash : bytes -> bytes.

Definition combine (w : bytes) (e : direction * bytes) : bytes :=
  match e with
  | (LEFT, s) => hash (s ++ w)
  | (RIGHT, s) => hash (w ++ s)
  end.

Definition replay (b : list (direction * bytes)) (w : bytes) : bytes :=
  fold_left combine b w.

End Replay.

(** What [VerifyProof] writes to the digest engine in the round for the
    branch entry [e], [w] being the digest in the proof: the sibling
    before [w] for the first byte 0, [w] before the sibling for the
    first byte 1, [w] alone for another first byte and for the nil
    entry; nothing for a non-nil entry without bytes, where the round
    panics. *)
Definition VerifyProof_written (w : bytes) (e : option bytes) : option bytes :=
  match e with
  | Some [] => None
  | Some (b :: s) =>
    if bool_decide (b = x00) then Some (s ++ w)
    else if bool_decide (b = x01) then Some (w ++ s)
    else Some w
  | None => Some w
  end.

(** All that a run of [VerifyProof] over the branch [b] from the digest
    [w] writes to the engine, round by round. *)
Fixpoint VerifyProof_inputs (hash : bytes -> bytes) (b : Branch) (w : bytes)
    : list bytes :=
  match b with
  | [] => []
  | e :: b' =>
    match VerifyProof_written w e with
    | None => []
    | Some x => x :: VerifyProof_inputs hash b' (hash x)
    end
  end.

(** The engine shows no collision between an input of [xs] and an
    input of [ys]. *)
Definition no_collision (hash : bytes -> bytes) (xs ys : list bytes) : Prop :=
  forall x y, x ∈ xs -> y ∈ ys -> hash x = hash y -> x = y.

(** A digest engine that gives every input the same digest of one
    byte, and the tree it makes of the values ["a"] and ["b"]. *)
Definition const_hash (x : bytes) : bytes := ["#"%byte].

Definition const_tree : Tree :=
  match Construct const_hash 12 (take 2 vals8) NewTree with
  | Ret _ t => t
  | _ => NewTree
  end.

(** The height the specification gives a tree of [count >= 1] values. *)
Definition spec_height (count : Z) : Z :=
  if count =? 1 then 2 else Z.log2_up count + 1.

(** ** The tree a heap of nodes stands for

    An [atree] is a binary tree whose vertices carry the heap address
    of their node; a leaf also carries its [h] field. *)
Inductive atree :=
  | ALeaf (a : ptr) (d : option bytes)
  | AOne (a : ptr) (l : atree)
  | ATwo (a : ptr) (l r : atree).

Definition addr (t : atree) : ptr :=
  match t with
  | ALeaf a _ | AOne a _ | ATwo a _ _ => a
  end.

Fixpoint addrs (t : atree) : list ptr :=
  match t with
  | ALeaf a _ => [a]
  | AOne a l => a :: addrs l
  | ATwo a l r => a :: addrs l ++ addrs r
  end.

Definition inner (t : atree) : bool :=
  match t with
  | ALeaf _ _ => false
  | _ => true
  end.

(** Every leaf has its digest. *)
Fixpoint leaves_set (t : atree) : Prop :=
  match t with
  | ALeaf _ d => is_Some d
  | AOne _ l => leaves_set l
  | ATwo _ l r => leaves_set l /\ leaves_set r
  end.

Section Abstraction.

Variable hash : bytes -> bytes.

(** The digest rule: a leaf has the digest of its value, a node with
    two children the digest of the left digest followed by the right
    one, a node with a left child only the digest of that child's
    digest. *)
Fixpoint digest (t : atree) : bytes :=
  match t with
  | ALeaf _ d => default [] d
  | AOne _ l => hash (digest l)
  | ATwo _ l r => hash (digest l ++ digest r)
  end.

(** The [h] field of the node of [t]: set from the start in a leaf, set
    in an inner node once it has been hashed ([done]). *)
Definition node_h (done : bool) (t : atree) : option bytes :=
  match t with
  | ALeaf _ d => d
  | _ => if done then Some (digest t) else None
  end.

Definition node_of (done : bool) (par : option ptr) (t : atree) : Node :=
  match t with
  | ALeaf _ _ => mkNode (node_h done t) par None None
  | AOne _ l => mkNode (node_h done t) par (Some (addr l)) None
  | ATwo _ l r => mkNode (node_h done t) par (Some (addr l)) (Some (addr r))
  end.

(** [repr done hp par t]: the heap [hp] holds the nodes of [t], linked
    as [t] says, under the parent [par]. *)
Fixpoint repr (done : bool) (hp : Heap) (par : option ptr) (t : atree)
    {struct t} : Prop :=
  hp !! addr t = Some (node_of done par t) /\
  match t with
  | ALeaf _ _ => True
  | AOne a l => repr done hp (Some a) l
  | ATwo a l r => repr done hp (Some a) l /\ repr done hp (Some a) r
  end.

(** What a run of [hashing] does when it enters the unhashed inner
    node of [t]: after some rounds every node of [t] is hashed, nothing
    else has changed, and the run has returned the digest of [t] (at
    [nd]) or stands at the parent. *)
Definition hashes_subtree (t : atree) : Prop :=
  forall hp par nd,
    inner t = true ->
    leaves_set t ->
    NoDup (addrs t) ->
    repr false hp par t ->
    (forall b, b ∈ addrs t -> nd = Some b -> b = addr t) ->
    exists k hp',
      length hp' = length hp
      /\ (forall b, b ∉ addrs t -> hp' !! b = hp !! b)
      /\ repr true hp' par t
      /\ forall fuel,
           hashing_loop hash (S k + fuel) nd (Some (addr t)) hp =
           if bool_decide (Some (addr t) = nd)
           then Ret (Some (digest t)) hp'
           else hashing_loop hash fuel nd par hp'.

End Abstraction.

(** ** Levels of trees *)

Definition ptr_of (t : atree) : option ptr := Some (addr t).

(** The trees one round of [constructLevel] puts over the trees [ts],
    its nodes allocated from address [a] on. *)
Fixpoint pair_trees (a : ptr) (ts : list atree) : list atree :=
  match ts with
  | [] => []
  | [l] => [AOne a l]
  | l :: r :: ts' => ATwo a l r :: pair_trees (S a) ts'
  end.

Section Reference.

Variable hash : bytes -> bytes.

(** The digests of the level above a level with digests [ds]. *)
Fixpoint pair_digests (ds : list bytes) : list bytes :=
  match ds with
  | [] => []
  | [l] => [hash l]
  | l :: r :: ds' => hash (l ++ r) :: pair_digests ds'
  end.

(** The reference root: the leaf level holds the digests of the values
    in input order, each level above pairs the one below, and the
    level [spec_height - 1] steps above the leaves holds the root. *)
Definition merkle_root (vals : list bytes) : option bytes :=
  head (Nat.iter (Z.to_nat (spec_height (len vals) - 1)) pair_digests
          (map hash vals)).

(** A row of separate, not yet hashed trees without a parent. *)
Definition forest (hp : Heap) (ts : list atree) : Prop :=
  Forall (repr hash false hp None) ts /\ NoDup (concat (map addrs ts)).

End Reference.

(** ** The levels [Construct] lays out *)

(** The leaf row: one leaf per [h] field, allocated from [a] on. *)
Fixpoint leaf_trees (a : ptr) (ds : list (option bytes)) : list atree :=
  match ds with
  | [] => []
  | d :: ds' => ALeaf a d :: leaf_trees (S a) ds'
  end.

Definition leaf_node (d : option bytes) : Node := mkNode d None None None.

(** The size of the level above a level of [n] nodes. *)
Definition half (n : nat) : nat := (S n / 2)%nat.

(** Addresses of nodes of [t]. *)
Definition valid_level (t : Tree) (ps : list ptr) : Prop :=
  Forall (fun p => (p < length (nodes t))%nat) ps.

(** Every level of [t] is filled with addresses of nodes of [t], and
    the level [k] steps above the leaves has the size that [k] halvings
    of [count] give. *)
Definition well_levelled (t : Tree) (count : nat) : Prop :=
  forall j, (j < length (levels t))%nat ->
    exists ps,
      levels t !! j = Some (map Some ps)
      /\ length ps = Nat.iter (length (levels t) - 1 - j) half count
      /\ valid_level t ps.

(** Rows of trees, the top row first: every row pairs up the row
    below it. *)
Definition stacked (rows : list (list atree)) : Prop :=
  forall j upper lower,
    rows !! j = Some upper -> rows !! S j = Some lower ->
    exists a, upper = pair_trees a lower.

(** The part of [Construct] between the two guards and [setHashes]. *)
Definition Construct_levels (hash : bytes -> bytes) (vals : list bytes)
    : M Tree unit :=
  fun t =>
    let count := len vals in
    match calcTreeHeight count with
    | None => Diverge
    | Some height =>
      let t := mkTree (nodes t) (replicate (Z.to_nat height) []) in
      let height := height - 1 in
      (do _ <- store_level height (replicate (Z.to_nat count) None);
       do _ <- fill_leaves hash vals height 0;
       build_levels (Z.to_nat height) height) t
    end.

(** ** Digests along a path to the root *)

(** The nodes at the addresses [ps] carry the digests [ds]. *)
Definition holds_digests (t : Tree) (ps : list ptr) (ds : list bytes) : Prop :=
  Forall2 (fun p d => exists nd, nodes t !! p = Some nd /\ h nd = Some d) ps ds.

(** A row of hashed trees. *)
Definition hashed_row (hash : bytes -> bytes) (hp : Heap)
    (row : list atree) : Prop :=
  Forall (fun tr => exists par, repr hash true hp par tr /\ leaves_set tr) row.

(** The side a sibling goes to: the left one for an odd position. *)
Definition side (i : Z) : direction := if Z.odd i then LEFT else RIGHT.

Section Path.

Variable hash : bytes -> bytes.

(** The branch from position [i] of a level with digests [ds], [k]
    levels below the root. *)
Fixpoint path (k : nat) (i : Z) (ds : list bytes) : list (direction * bytes) :=
  match k with
  | O => []
  | S k =>
    (side i, default [] (index ds (Z.lxor i 1)))
      :: path k (Z.quot i 2) (pair_digests hash ds)
  end.

End Path.

(** * Definitions for the further properties *)

(** [hp'] holds the nodes of [hp] under the same addresses and with the
    same links, and every digest set in [hp] is set to the same bytes
    in [hp']. *)
Definition links_kept (hp hp' : Heap) : Prop :=
  length hp' = length hp /\
  forall a N, hp !! a = Some N ->
    exists N', hp' !! a = Some N'
      /\ parent N' = parent N /\ left N' = left N /\ right N' = right N
      /\ (forall d, h N = Some d -> h N' = Some d).

(** Two leaves with digests under a parent without one, for worked
    examples. *)
Definition heap3 : Heap :=
  [ mkNode (Some ["l"%byte]) (Some 2%nat) None None;
    mkNode (Some ["r"%byte]) (Some 2%nat) None None;
    mkNode None None (Some 0%nat) (Some 1%nat) ].

(** A branch entry [VerifyProof] reads no sibling from: the nil entry
    and the entry whose first byte is neither 0 nor 1. *)
Definition untagged (e : option bytes) : Prop :=
  match e with
  | None => True
  | Some [] => False
  | Some (c :: _) => c <> x00 /\ c <> x01
  end.

(** [m] hands the state back as it got it, with a result as with an
    error. *)
Definition read_only {S A} (m : M S A) : Prop :=
  forall s, match m s with
            | Ret _ s' | Err _ s' => s' = s
            | _ => True
            end.

(** The digests of level [j] of a tree whose leaves, on level [n],
    carry the digests of [vals]: every level above the leaves pairs up
    the level below it. *)
Definition level_digests (hash : bytes -> bytes) (vals : list bytes)
    (n j : nat) : list bytes :=
  Nat.iter (n - j) (pair_digests hash) (map hash vals).

(** A digest engine of size 0, for worked examples: every digest is
    empty, so [Sum(nil)] is the nil slice. *)
Definition null_hash (x : bytes) : bytes := [].

(** In [t] the node at [q] is the parent of the node at [p], and the
    node at [p] is the child of it that position [i] of a level makes
    it: the left child for an even [i], the right child for an odd
    one. *)
Definition child_of (t : Tree) (q : ptr) (i : nat) (p : ptr) : Prop :=
  exists N Q,
    nodes t !! p = Some N /\ nodes t !! q = Some Q
    /\ parent N = Some q
    /\ (if Nat.even i then left Q else right Q) = Some p.
(** * Properties *)

(** [lia] on goals with division or remainder by a constant. *)
Ltac lia_div := zify; Z.to_euclidean_division_equations; lia.

(** ** Errors of [Construct] *)

Lemma errs_in_bind {S A B} P (m : M S A) (k : A -> M S B) :
  errs_in P m -> (forall a, errs_in P (k a)) -> errs_in P (bind m k).
Proof.
  intros Hm Hk s e s'. unfold bind.
  destruct (m s) as [a s1|e1 s1| |] eqn:E; try discriminate.
  - apply Hk.
  - intros [= -> ->]. eapply Hm, E.
Qed.

Lemma errs_in_Ret {S A} P (a : A) : errs_in (S := S) P (Ret a).
Proof. intros s e s'. discriminate. Qed.

Lemma errs_in_update P p f : errs_in P (update p f).
Proof.
  intros s e s'. unfold update.
  destruct p as [a|]; [destruct (s !! a)|]; discriminate.
Qed.

Lemma errs_in_on_heap {A} P (m : M Heap A) :
  errs_in P m -> errs_in P (on_heap m).
Proof.
  intros Hm t e t'. unfold on_heap.
  destruct (m (nodes t)) eqn:E; try discriminate.
  intros [= -> _]. eapply Hm, E.
Qed.

Lemma errs_in_store_level P height l : errs_in P (store_level height l).
Proof.
  intros t e t'. unfold store_level.
  destruct (index (levels t) height); discriminate.
Qed.

Lemma errs_in_store_entry P height i p : errs_in P (store_entry height i p).
Proof.
  intros t e t'. unfold store_entry.
  destruct (index (levels t) height) as [l|]; [destruct (index l i)|];
    discriminate.
Qed.

Lemma errs_in_root P : errs_in P root.
Proof.
  intros t e t'. unfold root.
  destruct (index (levels t) 0) as [l|]; [destruct (index l 0)|]; discriminate.
Qed.

Section Errors.

Variable hash : bytes -> bytes.

Lemma errs_in_fill_leaves P vals height i :
  errs_in P (fill_leaves hash vals height i).
Proof.
  revert i. induction vals as [|v vals IH]; intros i; simpl.
  - apply errs_in_Ret.
  - intros t e t'. apply errs_in_bind; [apply errs_in_store_entry|].
    intros _. apply IH.
Qed.

Lemma errs_in_constructLevel_loop P n i children parents :
  errs_in P (constructLevel_loop n i children parents).
Proof.
  revert i parents. induction n as [|n IH]; intros i parents; simpl.
  - apply errs_in_Ret.
  - intros hp e hp'.
    destruct (index children (2 * i)) as [nl|]; [|discriminate].
    repeat (apply errs_in_bind; [|intros _]); try apply errs_in_update.
    + destruct (2 * i + 1 <? len children); [|apply errs_in_Ret].
      destruct (index children (2 * i + 1)); [|discriminate].
      apply errs_in_bind; [|intros _]; apply errs_in_update.
    + destruct (index parents i); [apply IH|discriminate].
Qed.

Lemma errs_in_build_levels P fuel height :
  errs_in P (build_levels fuel height).
Proof.
  revert height. induction fuel as [|fuel IH]; intros height; simpl.
  - destruct (height >? 0); [discriminate|apply errs_in_Ret].
  - destruct (height >? 0); [|apply errs_in_Ret].
    intros t e t'. destruct (index (levels t) height); [|discriminate].
    apply errs_in_bind.
    { apply errs_in_on_heap, errs_in_constructLevel_loop. }
    intros parents. apply errs_in_bind; [apply errs_in_store_level|].
    intros _. apply IH.
Qed.

Lemma hashing_step_err nd n hp e hp' :
  hashing_step hash nd n hp = Stop (Err e hp') -> e = ErrLeafNoValue.
Proof.
  unfold hashing_step, hashing_store, update.
  repeat (case_match; simplify_eq; try discriminate); congruence.
Qed.

Lemma errs_in_hashing fuel nd :
  errs_in (eq ErrLeafNoValue) (hashing hash fuel nd).
Proof.
  unfold hashing. generalize nd at 2 as n.
  induction fuel as [|fuel IH]; intros n hp e hp'; simpl; [discriminate|].
  destruct (hashing_step hash nd n hp) as [n1 hp1|r] eqn:E.
  - apply IH.
  - intros ->. symmetry. eapply hashing_step_err, E.
Qed.

Lemma errs_in_setHashes fuel :
  errs_in (eq ErrLeafNoValue) (setHashes hash fuel).
Proof.
  apply errs_in_bind; [apply errs_in_root|].
  intros r. apply errs_in_on_heap, errs_in_hashing.
Qed.

End Errors.

(** ** Verification is a fold *)

Section Verify.

Variable hash : bytes -> bytes.

Lemma VerifyProof_loop_encode b w :
  VerifyProof_loop hash (map encode b) w = Some (replay hash b w).
Proof.
  revert w. induction b as [|[[] s] b IH]; intros w; simpl; auto.
Qed.

Lemma VerifyProof_root t p w nd :
  VerifyProof_loop hash (br p) (ph p) = Some w ->
  root_node t = Some nd ->
  VerifyProof hash p t = Ret (bytes_Equal (h nd) w, NewProof (br p) w) t.
Proof.
  unfold VerifyProof, root_node, bind. intros -> Hr.
  destruct (root t) as [r t'| | |] eqn:E; try discriminate.
  assert (t' = t) as ->.
  { unfold root in E. repeat case_match; congruence. }
  by rewrite Hr.
Qed.

Lemma replay_snoc b e w :
  replay hash (b ++ [e]) w = combine hash (replay hash b w) e.
Proof. unfold replay. by rewrite fold_left_app. Qed.

End Verify.

Section VerifyLocal.

Variable hash : bytes -> bytes.

Lemma VerifyProof_step_written w e :
  VerifyProof_step hash w e = hash <$> VerifyProof_written w e.
Proof. destruct e as [[|c s]|]; simpl; by repeat case_bool_decide. Qed.

Lemma VerifyProof_written_inj e w1 w2 x :
  VerifyProof_written w1 e = Some x -> VerifyProof_written w2 e = Some x ->
  w1 = w2.
Proof.
  destruct e as [[|c s]|]; simpl; repeat case_bool_decide;
    intros [= <-] [= Heq]; try done;
    first [by apply app_inv_head in Heq | by apply app_inv_tail in Heq].
Qed.

(** Two runs over one branch that end in the same digest started from
    the same digest, unless the engine shows a collision between what
    the one run and what the other run gave it. *)
Lemma VerifyProof_loop_inj_on b : forall w1 w2 r,
  no_collision hash (VerifyProof_inputs hash b w1) (VerifyProof_inputs hash b w2) ->
  VerifyProof_loop hash b w1 = Some r ->
  VerifyProof_loop hash b w2 = Some r -> w1 = w2.
Proof.
  induction b as [|e b IH]; intros w1 w2 r Hnc; simpl; [congruence|].
  rewrite !VerifyProof_step_written. simpl in Hnc.
  destruct (VerifyProof_written w1 e) as [x1|] eqn:E1; [|done].
  destruct (VerifyProof_written w2 e) as [x2|] eqn:E2; [|done].
  simpl. intros H1 H2.
  assert (hash x1 = hash x2) as Hh.
  { eapply IH; [|exact H1|exact H2].
    intros x y Hx Hy. apply Hnc; by right. }
  assert (x1 = x2) as -> by (apply Hnc; [by left|by left|done]).
  by eapply VerifyProof_written_inj.
Qed.

End VerifyLocal.

Lemma VerifyProof_step_defined hash e w w' :
  is_Some (VerifyProof_step hash w e) -> is_Some (VerifyProof_step hash w' e).
Proof.
  destruct e as [[|b s]|]; simpl; eauto.
  repeat case_decide; eauto.
Qed.

Lemma VerifyProof_loop_defined hash b w w' :
  is_Some (VerifyProof_loop hash b w) -> is_Some (VerifyProof_loop hash b w').
Proof.
  revert w w'. induction b as [|e b IH]; intros w w'; simpl; eauto.
  destruct (VerifyProof_step hash w e) as [v|] eqn:E; [|intros [? [=]]].
  destruct (VerifyProof_step_defined hash e w w') as [v' ->]; [by rewrite E|].
  apply IH.
Qed.

Lemma VerifyProof_inv hash p t b p1 t1 :
  VerifyProof hash p t = Ret (b, p1) t1 ->
  exists nd, root_node t = Some nd /\ t1 = t /\ br p1 = br p
    /\ VerifyProof_loop hash (br p) (ph p) = Some (ph p1)
    /\ b = bytes_Equal (h nd) (ph p1).
Proof.
  unfold VerifyProof, root_node, bind.
  destruct (VerifyProof_loop hash (br p) (ph p)) as [w|]; [|discriminate].
  destruct (root t) as [r t'| | |] eqn:E; try discriminate.
  assert (t' = t) as ->.
  { unfold root in E. repeat case_match; congruence. }
  destruct (deref (nodes t) r) as [nd|]; [|discriminate].
  intros [= ? ? ?]; subst. by exists nd.
Qed.

(** ** [level] *)

Lemma wrap64_small z : - 2 ^ 63 <= z < 2 ^ 63 -> wrap64 z = z.
Proof. intros Hz. unfold wrap64. rewrite Z.mod_small; lia. Qed.

Lemma Height_nonneg t : 0 <= Height t.
Proof. unfold Height, len. lia. Qed.

Lemma index_of_nat {A} (l : list A) (n : nat) : index l (Z.of_nat n) = l !! n.
Proof.
  unfold index. destruct (Z.ltb_spec (Z.of_nat n) 0); [lia|].
  by rewrite Nat2Z.id.
Qed.

Lemma index_nonneg {A} (l : list A) (i : Z) :
  0 <= i -> index l i = l !! Z.to_nat i.
Proof. intros Hi. unfold index. by destruct (Z.ltb_spec i 0); [lia|]. Qed.

Lemma len_nonempty {A} (l : list A) : l <> [] -> 1 <= len l.
Proof. destruct l; [done|]. unfold len. simpl. lia. Qed.

Lemma index_len {A} (l : list A) : index l (len l) = None.
Proof. unfold len. rewrite index_of_nat. by apply lookup_ge_None. Qed.

Lemma index_is_Some {A} (l : list A) (i : Z) :
  is_Some (index l i) <-> 0 <= i < len l.
Proof.
  unfold index, len. destruct (Z.ltb_spec i 0).
  - split; [intros [? [=]]|lia].
  - rewrite lookup_lt_is_Some. lia.
Qed.

Lemma level_inside t height :
  1 <= height <= Height t -> Height t < 2 ^ 63 ->
  exists l, index (levels t) (height - 1) = Some l /\ level height t = Ret l t.
Proof.
  intros Hh Hmax. unfold level. rewrite wrap64_small by lia.
  destruct (Z.ltb_spec (height - 1) 0); [lia|].
  destruct (Z.gtb_spec (height - 1) (Height t)); [lia|]. simpl.
  destruct (index (levels t) (height - 1)) as [l|] eqn:E; [eauto|].
  assert (is_Some (index (levels t) (height - 1))) as [? ?]; [|congruence].
  apply index_is_Some. unfold Height in Hh. lia.
Qed.

Lemma level_outside t height :
  - 2 ^ 63 <= height < 2 ^ 63 -> Height t < 2 ^ 63 - 1 ->
  height < 1 \/ Height t + 1 < height ->
  level height t = Err ErrHeightOutOfRange t.
Proof.
  intros Hint Hmax Hout. unfold level.
  destruct (Z.eq_dec height (- 2 ^ 63)) as [->|Hne].
  - replace (wrap64 (- 2 ^ 63 - 1)) with (2 ^ 63 - 1) by reflexivity.
    destruct (Z.gtb_spec (2 ^ 63 - 1) (Height t)); [|lia].
    by rewrite orb_true_r.
  - rewrite wrap64_small by lia.
    destruct (Z.ltb_spec (height - 1) 0); [done|].
    destruct (Z.gtb_spec (height - 1) (Height t)); [done|lia].
Qed.

(** ** [Log2], [PowOf2] and [calcTreeHeight] *)

Lemma Log2_loop_log2 fuel j l :
  0 <= j -> (Z.to_nat j < fuel)%nat ->
  Log2_loop fuel j l = Some (l + Z.log2 j).
Proof.
  revert j l. induction fuel as [|fuel IH]; intros j l Hj Hfuel; [lia|].
  simpl. rewrite Z.shiftr_div_pow2 by lia. change (2 ^ 1) with 2.
  destruct (Z.eqb_spec (j / 2) 0) as [E|E].
  - assert (j < 2) by (apply Z.div_small_iff in E; lia).
    assert (j = 0 \/ j = 1) as [-> | ->] by lia; f_equal; simpl; lia.
  - assert (2 <= j).
    { destruct (Z.lt_ge_cases j 2); [|done].
      rewrite Z.div_small in E; lia. }
    assert (0 < j / 2) by (apply Z.div_str_pos; lia).
    assert (j / 2 < j) by (apply Z.div_lt; lia).
    rewrite IH by lia. f_equal.
    pose proof (Z.log2_shiftr j 1 ltac:(lia)) as Hs.
    rewrite Z.shiftr_div_pow2 in Hs by lia. change (2 ^ 1) with 2 in Hs.
    assert (1 <= Z.log2 j).
    { change 1 with (Z.log2 2). apply Z.log2_le_mono. lia. }
    lia.
Qed.

Lemma PowOf2_spec i :
  0 < i < 2 ^ 63 -> PowOf2 i = true <-> i = 2 ^ Z.log2 i.
Proof.
  intros Hi. unfold PowOf2. rewrite wrap64_small by lia.
  destruct (Z.eqb_spec i 0); [lia|]. simpl.
  pose proof (Z.log2_spec i ltac:(lia)) as Hlog.
  pose proof (Z.log2_nonneg i) as Hk.
  rewrite Z.eqb_eq. split.
  - intros Hland. destruct (Z.eq_dec i (2 ^ Z.log2 i)) as [|Hne]; [done|].
    exfalso.
    assert (Z.log2 (i - 1) = Z.log2 i) as Hl.
    { apply Z.log2_unique; lia. }
    assert (Z.testbit (Z.land i (i - 1)) (Z.log2 i) = true) as Hbit.
    { rewrite Z.land_spec, Z.bit_log2 by lia.
      rewrite <- Hl. rewrite Z.bit_log2 by lia. done. }
    rewrite Hland, Z.bits_0 in Hbit. discriminate.
  - intros Heq. generalize dependent (Z.log2 i). intros k _ Hk ->.
    replace (2 ^ k - 1) with (Z.ones k) by (rewrite Z.ones_equiv; lia).
    rewrite Z.land_ones by lia. apply Z_mod_same_full.
Qed.

Lemma Log2_log2_up i :
  1 <= i < 2 ^ 63 -> Log2 i = Some (Z.log2_up i).
Proof.
  intros Hi. unfold Log2. rewrite Log2_loop_log2 by lia. simpl.
  pose proof (PowOf2_spec i ltac:(lia)) as Hp.
  pose proof (Z.log2_nonneg i) as Hk.
  destruct (PowOf2 i).
  - f_equal. destruct Hp as [Hp _]. rewrite (Hp eq_refl) at 2.
    by rewrite Z.log2_up_pow2.
  - f_equal.
    pose proof (Z.le_log2_log2_up i). pose proof (Z.le_log2_up_succ_log2 i).
    destruct (Z.eq_dec (Z.log2 i) (Z.log2_up i)) as [Heq|]; [|lia].
    exfalso. apply Z.log2_log2_up_exact in Heq as [b Hb]; [|lia].
    assert (0 <= b).
    { destruct (Z.lt_ge_cases b 0); [|done].
      rewrite Z.pow_neg_r in Hb; lia. }
    assert (false = true); [|discriminate].
    apply Hp. rewrite Hb at 2. by rewrite Z.log2_pow2.
Qed.

Lemma calcTreeHeight_spec count :
  1 <= count < 2 ^ 63 -> calcTreeHeight count = Some (spec_height count).
Proof.
  intros Hc. unfold calcTreeHeight, spec_height.
  destruct (Z.eqb_spec count 0); [lia|].
  destruct (Z.eqb_spec count 1); [done|].
  by rewrite Log2_log2_up by lia.
Qed.

Lemma spec_height_ge_2 count : 1 <= count -> 2 <= spec_height count.
Proof.
  intros Hc. unfold spec_height. destruct (Z.eqb_spec count 1); [lia|].
  assert (0 < Z.log2_up count); [|lia].
  apply Z.log2_up_pos. lia.
Qed.

(** ** Hash propagation over a represented tree *)

Lemma addr_in_addrs t : addr t ∈ addrs t.
Proof. destruct t; simpl; set_solver. Qed.

Section Repr.

Variable hash : bytes -> bytes.

Lemma repr_root done hp par t :
  repr hash done hp par t -> hp !! addr t = Some (node_of hash done par t).
Proof. destruct t; simpl; tauto. Qed.

Lemma repr_frame done hp hp' par t :
  (forall b, b ∈ addrs t -> hp' !! b = hp !! b) ->
  repr hash done hp par t -> repr hash done hp' par t.
Proof.
  revert par. induction t as [a d|a l IHl|a l IHl r IHr]; intros par Hfr; simpl.
  - intros [H _]. split; [|done]. rewrite Hfr; [done|set_solver].
  - intros [H Hl]. split.
    + rewrite Hfr; [done|set_solver].
    + apply IHl; [|done]. intros b Hb. apply Hfr. set_solver.
  - intros [H [Hl Hr]]. split; [|split].
    + rewrite Hfr; [done|set_solver].
    + apply IHl; [|done]. intros b Hb. apply Hfr. set_solver.
    + apply IHr; [|done]. intros b Hb. apply Hfr. set_solver.
Qed.

Lemma repr_leaf_done hp par t :
  inner t = false -> repr hash false hp par t -> repr hash true hp par t.
Proof. by destruct t. Qed.

Lemma repr_bound done hp par t b :
  repr hash done hp par t -> b ∈ addrs t -> (b < length hp)%nat.
Proof.
  revert par. induction t as [a d|a l IHl|a l IHl r IHr]; intros par; simpl.
  - intros [H _] ->%list_elem_of_singleton. by eapply lookup_lt_Some.
  - intros [H Hl] [->|Hb]%elem_of_cons; [by eapply lookup_lt_Some|eauto].
  - intros [H [Hl Hr]] [->|[Hb|Hb]%elem_of_app]%elem_of_cons;
      [by eapply lookup_lt_Some|eauto..].
Qed.

Lemma hashing_loop_S fuel nd n hp :
  hashing_loop hash (S fuel) nd n hp =
  match hashing_step hash nd n hp with
  | Continue n' hp' => hashing_loop hash fuel nd n' hp'
  | Stop r => r
  end.
Proof. done. Qed.

(** The round at an unhashed inner node whose left child lacks a digest
    goes down to that child. *)
Lemma step_down_left hp nd a N al L :
  hp !! a = Some N -> h N = None -> left N = Some al ->
  hp !! al = Some L -> h L = None ->
  hashing_step hash nd (Some a) hp = Continue (Some al) hp.
Proof.
  intros Ha HN Hl Hal HL. unfold hashing_step. simpl.
  rewrite Ha, HN. unfold IsLeaf. rewrite Hl. simpl.
  rewrite andb_false_r.
  by rewrite Hal, HL.
Qed.

Lemma step_down_right hp nd a N al L dl ar R :
  hp !! a = Some N -> h N = None -> left N = Some al -> right N = Some ar ->
  hp !! al = Some L -> h L = Some dl ->
  hp !! ar = Some R -> h R = None ->
  hashing_step hash nd (Some a) hp = Continue (Some ar) hp.
Proof.
  intros Ha HN Hl Hr Hal HL Har HR. unfold hashing_step. simpl.
  rewrite Ha, HN. unfold IsLeaf. rewrite Hl. simpl.
  rewrite andb_false_r.
  by rewrite Hal, HL, Hr, Har, HR.
Qed.

Lemma node_h_done t :
  leaves_set t -> node_h hash true t = Some (digest hash t).
Proof. destruct t; try done. by intros [x ->]. Qed.

Lemma node_h_inner t : inner t = true -> node_h hash false t = None.
Proof. by destruct t. Qed.

Lemma h_node_of done par t : h (node_of hash done par t) = node_h hash done t.
Proof. by destruct t. Qed.

Lemma parent_node_of done par t : parent (node_of hash done par t) = par.
Proof. by destruct t. Qed.

Lemma set_h_node_of par t :
  set_h (node_h hash true t) (node_of hash false par t) = node_of hash true par t.
Proof. by destruct t. Qed.

End Repr.

Section Hashing.

Variable hash : bytes -> bytes.
Hypothesis hash_nonnil : forall x, hash x <> [].

Lemma Sum_hash x : Sum hash x = Some (hash x).
Proof using hash_nonnil.
  unfold Sum. destruct (hash x) eqn:E; [|done]. by apply hash_nonnil in E.
Qed.

Lemma step_store_one hp nd a N al L dl :
  hp !! a = Some N -> h N = None -> left N = Some al -> right N = None ->
  hp !! al = Some L -> h L = Some dl ->
  hashing_step hash nd (Some a) hp =
  let hp' := <[a := set_h (Some (hash dl)) N]> hp in
  if bool_decide (Some a = nd) then Stop (Ret (Some (hash dl)) hp')
  else Continue (parent N) hp'.
Proof using hash_nonnil.
  intros Ha HN Hl Hr Hal HL. unfold hashing_step. simpl.
  rewrite Ha, HN. unfold IsLeaf. rewrite Hl. simpl.
  rewrite andb_false_r.
  rewrite Hal, HL, Hr. unfold hashing_store, update.
  by rewrite Ha, Sum_hash.
Qed.

Lemma step_store_two hp nd a N al L dl ar R dr :
  hp !! a = Some N -> h N = None -> left N = Some al -> right N = Some ar ->
  hp !! al = Some L -> h L = Some dl ->
  hp !! ar = Some R -> h R = Some dr ->
  hashing_step hash nd (Some a) hp =
  let hp' := <[a := set_h (Some (hash (dl ++ dr))) N]> hp in
  if bool_decide (Some a = nd) then Stop (Ret (Some (hash (dl ++ dr))) hp')
  else Continue (parent N) hp'.
Proof using hash_nonnil.
  intros Ha HN Hl Hr Hal HL Har HR. unfold hashing_step. simpl.
  rewrite Ha, HN. unfold IsLeaf. rewrite Hl. simpl.
  rewrite andb_false_r.
  rewrite Hal, HL, Hr, Har, HR. unfold hashing_store, update.
  by rewrite Ha, Sum_hash.
Qed.

(** A child of the current node [a] gets its digest: at once if it is
    a leaf, by a walk through its subtree that comes back to [a]
    otherwise. *)
Lemma child_ready c hp a nd :
  hashes_subtree hash c ->
  leaves_set c ->
  NoDup (addrs c) ->
  repr hash false hp (Some a) c ->
  (forall b, b ∈ addrs c -> nd <> Some b) ->
  (inner c = true ->
   hashing_step hash nd (Some a) hp = Continue (Some (addr c)) hp) ->
  exists k hp',
    length hp' = length hp
    /\ (forall b, b ∉ addrs c -> hp' !! b = hp !! b)
    /\ repr hash true hp' (Some a) c
    /\ forall fuel,
         hashing_loop hash (k + fuel) nd (Some a) hp =
         hashing_loop hash fuel nd (Some a) hp'.
Proof.
  intros IH Hls Hnd Hc Hnot Hstep. destruct (inner c) eqn:Hin.
  - destruct (IH hp (Some a) nd Hin Hls Hnd Hc) as (k & hp' & Hlen & Hfr & Hr & Hrun).
    { intros b Hb ->. by destruct (Hnot b Hb). }
    exists (S (S k)), hp'. repeat split; try done.
    intros fuel. change (S (S k) + fuel)%nat with (S (S k + fuel)).
    rewrite hashing_loop_S, (Hstep eq_refl), Hrun.
    rewrite bool_decide_eq_false_2; [done|].
    intros Heq. eapply Hnot; [apply addr_in_addrs|done].
  - exists 0%nat, hp. repeat split; try done. by apply repr_leaf_done.
Qed.

Lemma hashing_subtree t : hashes_subtree hash t.
Proof using hash_nonnil.
  induction t as [a d|a l IHl|a l IHl r IHr];
    intros hp par nd Hin Hls Hnd Hrep Hcond.
  - discriminate.
  - destruct Hrep as [Ha Hl]. simpl in Ha, Hnd, Hls.
    apply NoDup_cons in Hnd as [Hal Hndl].
    destruct (child_ready l hp a nd IHl Hls Hndl Hl) as (k & hp1 & Hlen & Hfr & Hl1 & Hrun).
    { intros b Hb ->. apply Hal.
      pose proof (Hcond b ltac:(simpl; set_solver) eq_refl) as Hba.
      simpl in Hba. subst. set_solver. }
    { intros Hi. eapply step_down_left; eauto using repr_root.
      by rewrite h_node_of, node_h_inner. }
    assert (hp1 !! a = Some (node_of hash false par (AOne a l))) as Ha1
      by (by rewrite Hfr).
    set (hp2 := <[a := node_of hash true par (AOne a l)]> hp1).
    exists k, hp2. split; [|split; [|split]].
    + unfold hp2. by rewrite length_insert.
    + intros b Hb. unfold hp2.
      rewrite list_lookup_insert_ne by set_solver. apply Hfr. set_solver.
    + split.
      * apply list_lookup_insert_eq. by eapply lookup_lt_Some.
      * eapply repr_frame; [|exact Hl1]. intros b Hb. unfold hp2.
        apply list_lookup_insert_ne. set_solver.
    + intros fuel. replace (S k + fuel)%nat with (k + S fuel)%nat by lia.
      rewrite Hrun, hashing_loop_S.
      erewrite step_store_one; eauto using repr_root;
        [|by rewrite h_node_of, node_h_done].
      simpl. by case_bool_decide.
  - destruct Hrep as [Ha [Hl Hr]]. simpl in Ha, Hnd. destruct Hls as [Hlsl Hlsr].
    apply NoDup_cons in Hnd as [Hal Hnd].
    apply NoDup_app in Hnd as (Hndl & Hlr & Hndr).
    destruct (child_ready l hp a nd IHl Hlsl Hndl Hl) as (k1 & hp1 & Hlen1 & Hfr1 & Hl1 & Hrun1).
    { intros b Hb ->. apply Hal.
      pose proof (Hcond b ltac:(simpl; set_solver) eq_refl) as Hba.
      simpl in Hba. subst. set_solver. }
    { intros Hi. eapply step_down_left; eauto using repr_root.
      by rewrite h_node_of, node_h_inner. }
    assert (hp1 !! a = Some (node_of hash false par (ATwo a l r))) as Ha1.
    { rewrite Hfr1; [done|set_solver]. }
    assert (repr hash false hp1 (Some a) r) as Hr1.
    { eapply repr_frame; [|exact Hr]. intros b Hb. apply Hfr1.
      intros Hbl. by apply (Hlr b). }
    destruct (child_ready r hp1 a nd IHr Hlsr Hndr Hr1) as (k2 & hp2 & Hlen2 & Hfr2 & Hr2 & Hrun2).
    { intros b Hb ->. apply Hal.
      pose proof (Hcond b ltac:(simpl; set_solver) eq_refl) as Hba.
      simpl in Hba. subst. set_solver. }
    { intros Hi. eapply step_down_right; eauto using repr_root.
      - by rewrite h_node_of, node_h_done.
      - by rewrite h_node_of, node_h_inner. }
    assert (hp2 !! a = Some (node_of hash false par (ATwo a l r))) as Ha2.
    { rewrite Hfr2; [done|set_solver]. }
    assert (repr hash true hp2 (Some a) l) as Hl2.
    { eapply repr_frame; [|exact Hl1]. intros b Hb. apply Hfr2.
      intros Hbr. by apply (Hlr b). }
    set (hp3 := <[a := node_of hash true par (ATwo a l r)]> hp2).
    exists (k1 + k2)%nat, hp3. split; [|split; [|split]].
    + unfold hp3. rewrite length_insert. congruence.
    + intros b Hb. unfold hp3.
      rewrite list_lookup_insert_ne by set_solver.
      rewrite Hfr2, Hfr1; set_solver.
    + split; [|split].
      * apply list_lookup_insert_eq. by eapply lookup_lt_Some.
      * eapply repr_frame; [|exact Hl2]. intros b Hb. unfold hp3.
        apply list_lookup_insert_ne. set_solver.
      * eapply repr_frame; [|exact Hr2]. intros b Hb. unfold hp3.
        apply list_lookup_insert_ne. set_solver.
    + intros fuel.
      replace (S (k1 + k2) + fuel)%nat with (k1 + (k2 + S fuel))%nat by lia.
      rewrite Hrun1, Hrun2, hashing_loop_S.
      erewrite step_store_two; eauto using repr_root;
        [|by rewrite h_node_of, node_h_done..].
      simpl. by case_bool_decide.
Qed.

End Hashing.

(** ** Building a level *)

Lemma bind_update {A} hp a N f (k : unit -> M Heap A) :
  hp !! a = Some N ->
  bind (update (Some a) f) k hp = k tt (<[a := f N]> hp).
Proof. intros Ha. unfold bind, update. by rewrite Ha. Qed.

Lemma pair_trees_length a ts :
  length (pair_trees a ts) = (S (length ts) / 2)%nat.
Proof.
  revert a. induction ts as [ts IH] using (induction_ltof1 _ (@length _)).
  unfold ltof in IH. intros a. destruct ts as [|t1 [|t2 ts]]; try done.
  cbn [pair_trees length]. rewrite IH by (simpl; lia). lia_div.
Qed.

Lemma bind_bind {S A B C} (m : M S A) (f : A -> M S B) (k : B -> M S C) s :
  bind (bind m f) k s = bind m (fun x => bind (f x) k) s.
Proof. unfold bind. by destruct (m s). Qed.

Lemma bind_Ret {S A B} (a : A) (k : A -> M S B) s : bind (Ret a) k s = k a s.
Proof. done. Qed.

Lemma insert_middle {A} (l1 l2 : list A) x y :
  <[length l1 := y]> (l1 ++ x :: l2) = l1 ++ y :: l2.
Proof. induction l1; simpl; by f_equal. Qed.

Lemma constructLevel_loop_S n i children parents hp :
  constructLevel_loop (S n) i children parents hp =
  match index children (2 * i) with
  | None => Crash IndexOutOfRange
  | Some nl =>
    (do _ <- update (Some (length hp)) (set_left nl);
     do _ <- update nl (set_parent (Some (length hp)));
     do _ <- (if 2 * i + 1 <? len children then
                match index children (2 * i + 1) with
                | None => fun _ => Crash IndexOutOfRange
                | Some nr =>
                  do _ <- update (Some (length hp)) (set_right nr);
                  update nr (set_parent (Some (length hp)))
                end
              else Ret tt);
     match index parents i with
     | None => fun _ => Crash IndexOutOfRange
     | Some _ =>
       constructLevel_loop n (i + 1) children
         (<[Z.to_nat i := Some (length hp)]> parents)
     end) (hp ++ [mkNode None None None None])
  end.
Proof. done. Qed.

Section Build.

Variable hash : bytes -> bytes.

Lemma set_parent_node_of done par par' t :
  set_parent par' (node_of hash done par t) = node_of hash done par' t.
Proof. by destruct t. Qed.

Lemma repr_reparent hp hp' par par' t :
  NoDup (addrs t) ->
  repr hash false hp par t ->
  hp' !! addr t = Some (node_of hash false par' t) ->
  (forall b, b ∈ addrs t -> b <> addr t -> hp' !! b = hp !! b) ->
  repr hash false hp' par' t.
Proof.
  intros Hnd Hrep Hroot Hfr. destruct t as [a d|a l|a l r]; simpl in *.
  - done.
  - destruct Hrep as [_ Hl]. apply NoDup_cons in Hnd as [Ha _].
    split; [done|]. refine (repr_frame _ _ _ _ _ _ _ Hl).
    intros b Hb. apply Hfr; set_solver.
  - destruct Hrep as [_ [Hl Hr]]. apply NoDup_cons in Hnd as [Ha _].
    split; [done|]. split.
    + refine (repr_frame _ _ _ _ _ _ _ Hl). intros b Hb. apply Hfr; set_solver.
    + refine (repr_frame _ _ _ _ _ _ _ Hr). intros b Hb. apply Hfr; set_solver.
Qed.

Lemma pair_digests_trees a ts :
  map (digest hash) (pair_trees a ts) = pair_digests hash (map (digest hash) ts).
Proof.
  revert a. induction ts as [ts IH] using (induction_ltof1 _ (@length _)).
  unfold ltof in IH. intros a. destruct ts as [|t1 [|t2 ts]]; try done.
  simpl. f_equal. apply IH. simpl. lia.
Qed.

Lemma pair_trees_inner a ts : Forall (fun t => inner t = true) (pair_trees a ts).
Proof.
  revert a. induction ts as [ts IH] using (induction_ltof1 _ (@length _)).
  unfold ltof in IH. intros a. destruct ts as [|t1 [|t2 ts]]; simpl.
  - constructor.
  - by repeat constructor.
  - constructor; [done|]. apply IH. simpl. lia.
Qed.

End Build.

Section BuildLevel.
Variable hash : bytes -> bytes.

Lemma in_forest_addrs (ts : list atree) t b :
  t ∈ ts -> b ∈ addrs t -> b ∈ concat (map addrs ts).
Proof.
  intros Ht Hb. apply list_elem_of_In, in_concat. exists (addrs t).
  split; [|by apply list_elem_of_In]. apply in_map. by apply list_elem_of_In.
Qed.

Lemma Forall_repr_frame hp hp' (ts : list atree) :
  (forall b, b ∈ concat (map addrs ts) -> hp' !! b = hp !! b) ->
  Forall (repr hash false hp None) ts -> Forall (repr hash false hp' None) ts.
Proof.
  intros Hfr HF. apply Forall_forall. intros t Ht.
  rewrite Forall_forall in HF.
  refine (repr_frame _ _ _ _ _ _ _ (HF t Ht)).
  intros b Hb. apply Hfr. by eapply in_forest_addrs.
Qed.

Lemma forest_addrs_bound done hp par (ts : list atree) b :
  Forall (repr hash done hp par) ts -> b ∈ concat (map addrs ts) ->
  (b < length hp)%nat.
Proof.
  intros HF Hb. apply list_elem_of_In, in_concat in Hb as (l & Hl & Hb).
  apply in_map_iff in Hl as (t & <- & Ht). rewrite Forall_forall in HF.
  eapply repr_bound; [apply HF|]; by apply list_elem_of_In.
Qed.

Lemma parents_slot (dts : list atree) n e :
  index (map ptr_of dts ++ replicate (S n) None) (Z.of_nat (length dts))
    = Some None
  /\ <[Z.to_nat (Z.of_nat (length dts)) := e]>
       (map ptr_of dts ++ replicate (S n) None)
     = map ptr_of dts ++ e :: replicate n None.
Proof.
  rewrite index_of_nat, Nat2Z.id. simpl replicate.
  rewrite <- (length_map ptr_of dts). split.
  - by apply list_lookup_middle.
  - apply insert_middle.
Qed.

Lemma constructLevel_loop_spec n : forall rest pre dts hp,
  n = (S (length rest) / 2)%nat ->
  length pre = (2 * length dts)%nat ->
  forest hash hp (dts ++ rest) ->
  exists hp',
    constructLevel_loop n (Z.of_nat (length dts)) (pre ++ map ptr_of rest)
      (map ptr_of dts ++ replicate n None) hp
    = Ret (map ptr_of (dts ++ pair_trees (length hp) rest)) hp'
    /\ forest hash hp' (dts ++ pair_trees (length hp) rest)
    /\ length hp' = (length hp + n)%nat.
Proof.
  induction n as [|n IH]; intros rest pre dts hp Hn Hpre Hfor.
  - assert (rest = []) as ->
      by (destruct rest; [done|cbn [length] in Hn; lia_div]).
    exists hp. simpl. rewrite !app_nil_r in *. split; [done|]. split; [done|lia].
  - destruct rest as [|t1 rest]; [discriminate|].
    rewrite constructLevel_loop_S.
    replace (2 * Z.of_nat (length dts)) with (Z.of_nat (length pre)) by lia.
    rewrite index_of_nat. simpl map at 1.
    rewrite list_lookup_middle by done.
    set (a := length hp).
    set (N0 := mkNode None None None None).
    pose proof Hfor as [HF HN].
    rewrite map_app, concat_app in HN. simpl in HN.
    apply Forall_app in HF as [HFd HFr].
    apply Forall_cons in HFr as [Ht1 HFr].
    apply NoDup_app in HN as (HNd & Hd & HN).
    apply NoDup_app in HN as (HN1 & H1 & HNr).
    assert (forall b, b ∈ addrs t1 -> (b < a)%nat) as Hb1
      by (intros b; by eapply repr_bound).
    pose proof (Hb1 _ (addr_in_addrs t1)) as Hal.
    assert ((hp ++ [N0]) !! a = Some N0) as F1 by (by apply list_lookup_middle).
    unfold ptr_of at 1 2. rewrite (bind_update _ _ _ _ _ F1). cbv beta.
    set (hp2 := <[a := set_left (Some (addr t1)) N0]> (hp ++ [N0])).
    assert (hp2 !! addr t1 = Some (node_of hash false None t1)) as F2.
    { unfold hp2. rewrite list_lookup_insert_ne by lia.
      rewrite lookup_app_l by lia. by apply repr_root. }
    rewrite (bind_update _ _ _ _ _ F2). cbv beta.
    rewrite set_parent_node_of.
    set (hp3 := <[addr t1 := node_of hash false (Some a) t1]> hp2).
    destruct (parents_slot dts n (Some a)) as [Hslot Hins].
    rewrite Hslot. clear Hslot.
    destruct rest as [|t2 rest].
    + (* a last child without a sibling *)
      assert (n = 0)%nat as -> by (cbn [length] in Hn; lia_div).
      destruct (Z.ltb_spec (Z.of_nat (length pre) + 1)
                  (len (pre ++ map ptr_of [t1]))) as [Hlt|_].
      { unfold len in Hlt. rewrite length_app in Hlt. simpl in Hlt. lia. }
      rewrite bind_Ret, Hins. simpl constructLevel_loop.
      exists hp3. split; [|split].
      * by rewrite map_app.
      * split.
        -- apply Forall_app. split.
           ++ eapply Forall_repr_frame; [|exact HFd]. intros b Hb.
              assert (b < a)%nat.
              { apply list_elem_of_In, in_concat in Hb as (l & Hl & Hb).
                apply in_map_iff in Hl as (t & <- & Ht).
                rewrite Forall_forall in HFd.
                eapply repr_bound; [apply HFd|]; by apply list_elem_of_In. }
              unfold hp3, hp2.
              rewrite !list_lookup_insert_ne, lookup_app_l; try done; try lia.
              intros <-. eapply Hd; [done|]. pose proof (addr_in_addrs t1).
              set_solver.
           ++ apply Forall_singleton. simpl. split.
              ** unfold hp3, hp2. rewrite list_lookup_insert_ne by lia.
                 rewrite list_lookup_insert_eq; [done|].
                 rewrite length_app. simpl. lia.
              ** eapply repr_reparent; [done|exact Ht1| |].
                 { unfold hp3. apply list_lookup_insert_eq. unfold hp2.
                   rewrite length_insert, length_app. lia. }
                 intros b Hb Hne. unfold hp3, hp2.
                 rewrite !list_lookup_insert_ne, lookup_app_l; try done.
                 { by apply Hb1. } { apply Hb1 in Hb. lia. }
        -- rewrite map_app, concat_app. simpl. rewrite app_nil_r.
           apply NoDup_app. split; [done|]. split.
           ++ intros x Hx [->|Hx1]%elem_of_cons.
              ** apply list_elem_of_In, in_concat in Hx as (l & Hl & Hb).
                 apply in_map_iff in Hl as (t & <- & Ht).
                 rewrite Forall_forall in HFd.
                 assert (a < a)%nat; [|lia].
                 eapply repr_bound; [apply HFd|]; by apply list_elem_of_In.
              ** eapply Hd; [done|]. set_solver.
           ++ apply NoDup_cons. split; [|done]. intros Ha%Hb1. lia.
      * unfold hp3, hp2. rewrite !length_insert, length_app. simpl. lia.
    + assert (n = (S (length rest) / 2)%nat) as Hn'
        by (cbn [length] in Hn; lia_div).
      apply Forall_cons in HFr as [Ht2 HFr].
      simpl in HNr, Hd, H1.
      apply NoDup_app in HNr as (HN2 & H2 & HNr).
      assert (forall b, b ∈ addrs t2 -> (b < a)%nat) as Hb2
        by (intros b; by eapply repr_bound).
      pose proof (Hb2 _ (addr_in_addrs t2)) as Har.
      assert (forall b, b ∈ concat (map addrs dts) -> (b < a)%nat) as Hbd
        by (intros b; by eapply forest_addrs_bound).
      assert (forall b, b ∈ concat (map addrs rest) -> (b < a)%nat) as Hbr
        by (intros b; by eapply forest_addrs_bound).
      pose proof (addr_in_addrs t1) as Hi1.
      pose proof (addr_in_addrs t2) as Hi2.
      assert (addr t1 <> addr t2) as H12.
      { intros Heq. eapply H1; [exact Hi1|]. rewrite Heq. set_solver. }
      destruct (Z.ltb_spec (Z.of_nat (length pre) + 1)
                  (len (pre ++ map ptr_of (t1 :: t2 :: rest)))) as [_|Hge].
      2:{ unfold len in Hge. rewrite length_app in Hge. simpl in Hge. lia. }
      replace (Z.of_nat (length pre) + 1) with (Z.of_nat (S (length pre))) by lia.
      rewrite index_of_nat.
      assert ((pre ++ map ptr_of (t1 :: t2 :: rest)) !! S (length pre)
              = Some (ptr_of t2)) as ->.
      { rewrite lookup_app_r by lia.
        by replace (S (length pre) - length pre)%nat with 1%nat by lia. }
      rewrite bind_bind.
      assert (hp3 !! a = Some (set_left (Some (addr t1)) N0)) as F3.
      { unfold hp3, hp2. rewrite list_lookup_insert_ne by lia.
        apply list_lookup_insert_eq. rewrite length_app. simpl. lia. }
      rewrite (bind_update _ _ _ _ _ F3). cbv beta.
      set (hp4 := <[a := set_right (ptr_of t2) (set_left (Some (addr t1)) N0)]> hp3).
      assert (hp4 !! addr t2 = Some (node_of hash false None t2)) as F4.
      { unfold hp4, hp3, hp2. rewrite !list_lookup_insert_ne by (done || lia).
        rewrite lookup_app_l by lia. by apply repr_root. }
      unfold ptr_of at 1. rewrite (bind_update _ _ _ _ _ F4). cbv beta.
      rewrite set_parent_node_of, Hins.
      set (hp5 := <[addr t2 := node_of hash false (Some a) t2]> hp4).
      assert (length hp5 = S a) as Hl5.
      { unfold hp5, hp4, hp3, hp2. rewrite !length_insert, length_app.
        simpl. lia. }
      assert (forall b, (b < a)%nat -> b <> addr t1 -> b <> addr t2 ->
                        hp5 !! b = hp !! b) as Hfr.
      { intros b Hb Hn1 Hn2. unfold hp5, hp4, hp3, hp2.
        rewrite !list_lookup_insert_ne by (done || lia).
        by rewrite lookup_app_l by lia. }
      destruct (IH rest (pre ++ [ptr_of t1; ptr_of t2]) (dts ++ [ATwo a t1 t2]) hp5)
        as (hp' & Hrun & Hfor' & Hlen'); [done| |split|].
      { rewrite !length_app. simpl. lia. }
      { rewrite <- app_assoc. apply Forall_app. split; [|apply Forall_cons; split].
        - eapply Forall_repr_frame; [|exact HFd]. intros b Hb.
          apply Hfr; [by apply Hbd|intros ->..]; eapply Hd; eauto; set_solver.
        - simpl. split; [|split].
          + unfold hp5, hp4. rewrite list_lookup_insert_ne by lia.
            rewrite list_lookup_insert_eq; [done|].
            unfold hp3, hp2. rewrite !length_insert, length_app. simpl. lia.
          + eapply repr_reparent; [done|exact Ht1| |].
            * unfold hp5, hp4. rewrite !list_lookup_insert_ne by (done || lia).
              apply list_lookup_insert_eq. unfold hp2.
              rewrite length_insert, length_app. lia.
            * intros b Hb Hne. apply Hfr; [by apply Hb1|done|].
              intros ->. eapply H1; eauto. set_solver.
          + eapply repr_reparent; [done|exact Ht2| |].
            * apply list_lookup_insert_eq. unfold hp4, hp3, hp2.
              rewrite !length_insert, length_app. lia.
            * intros b Hb Hne. apply Hfr; [by apply Hb2| |done].
              intros ->. eapply H1; eauto. set_solver.
        - eapply Forall_repr_frame; [|exact HFr]. intros b Hb.
          apply Hfr; [by apply Hbr|intros ->..].
          + eapply H1; eauto. set_solver.
          + eapply H2; eauto. }
      { rewrite <- app_assoc, map_app, concat_app. simpl.
        apply NoDup_app. split; [done|]. split.
        - intros x Hx [->|Hx1]%elem_of_cons.
          + apply Hbd in Hx. lia.
          + eapply Hd; [done|]. by rewrite <- !app_assoc in Hx1.
        - apply NoDup_cons. split.
          + intros [[Hx|Hx]%elem_of_app|Hx]%elem_of_app.
            * apply Hb1 in Hx. lia.
            * apply Hb2 in Hx. lia.
            * apply Hbr in Hx. lia.
          + rewrite <- app_assoc. apply NoDup_app. split; [done|]. split; [done|].
            by apply NoDup_app. }
      rewrite Hl5 in *. exists hp'. split; [|split].
      * rewrite !map_app, <- !app_assoc, length_app, Nat2Z.inj_add in Hrun.
        cbn [app map length pair_trees] in Hrun |- *.
        rewrite map_app. cbn [map]. exact Hrun.
      * by rewrite <- app_assoc in Hfor'.
      * lia.
Qed.

End BuildLevel.

Section BuildTree.
Variable hash : bytes -> bytes.

Lemma constructLevel_spec hp ts :
  forest hash hp ts ->
  exists hp',
    constructLevel (map ptr_of ts) hp
    = Ret (map ptr_of (pair_trees (length hp) ts)) hp'
    /\ forest hash hp' (pair_trees (length hp) ts)
    /\ (length hp <= length hp')%nat.
Proof.
  intros Hfor. unfold constructLevel.
  assert (Z.to_nat (Z.quot (len (map ptr_of ts) + Z.rem (len (map ptr_of ts)) 2) 2)
          = (S (length ts) / 2)%nat) as ->.
  { unfold len. rewrite length_map. lia_div. }
  destruct (constructLevel_loop_spec hash (S (length ts) / 2) ts [] [] hp)
    as (hp' & Hrun & Hfor' & Hlen); [done..|].
  exists hp'. split; [exact Hrun|]. split; [done|lia].
Qed.

Lemma pair_trees_leaves_set a ts :
  Forall leaves_set ts -> Forall leaves_set (pair_trees a ts).
Proof.
  revert a. induction ts as [ts IH] using (induction_ltof1 _ (@length _)).
  unfold ltof in IH. intros a HF. destruct ts as [|t1 [|t2 ts]]; simpl.
  - constructor.
  - apply Forall_singleton. simpl. by rewrite Forall_singleton in HF.
  - apply Forall_cons in HF as [H1 HF]. apply Forall_cons in HF as [H2 HF].
    constructor; [done|]. apply IH; [simpl; lia|done].
Qed.

End BuildTree.

Section Leaves.
Variable hash : bytes -> bytes.

Lemma fill_leaves_spec vals : forall dts t H,
  levels t !! H = Some (map ptr_of dts ++ replicate (length vals) None) ->
  fill_leaves hash vals (Z.of_nat H) (Z.of_nat (length dts)) t
  = Ret tt (mkTree (nodes t ++ map leaf_node (map (Sum hash) vals))
              (<[H := map ptr_of (dts ++ leaf_trees (length (nodes t))
                                           (map (Sum hash) vals))]> (levels t))).
Proof.
  induction vals as [|v vals IH]; intros dts t H Hlv.
  - simpl. rewrite !app_nil_r in *. rewrite list_insert_id by done.
    by destruct t.
  - cbn [fill_leaves alloc]. unfold bind at 1. unfold store_entry.
    cbn [levels nodes length] in *. rewrite index_of_nat, Hlv.
    destruct (parents_slot dts (length vals) (Some (length (nodes t))))
      as [-> ->].
    rewrite Nat2Z.id.
    replace (Z.of_nat (length dts) + 1)
      with (Z.of_nat (length (dts ++ [ALeaf (length (nodes t)) (Sum hash v)])))
      by (rewrite length_app; simpl; lia).
    rewrite IH.
    + cbn [levels nodes]. f_equal. f_equal.
      * by rewrite <- app_assoc.
      * rewrite list_insert_insert_eq. f_equal.
        rewrite length_app, <- app_assoc. simpl.
        by replace (length (nodes t) + 1)%nat with (S (length (nodes t))) by lia.
    + cbn [levels]. rewrite list_lookup_insert_eq by (by eapply lookup_lt_Some).
      by rewrite map_app, <- app_assoc.
Qed.

Lemma leaf_trees_addrs a ds :
  concat (map addrs (leaf_trees a ds)) = seq a (length ds).
Proof.
  revert a. induction ds as [|d ds IH]; intros a; simpl; [done|].
  by rewrite IH.
Qed.

Lemma leaf_trees_repr hp hp' ds :
  Forall (repr hash false (hp ++ map leaf_node ds ++ hp') None)
    (leaf_trees (length hp) ds).
Proof.
  revert hp. induction ds as [|d ds IH]; intros hp; simpl; [constructor|].
  constructor.
  - simpl. split; [|done]. by apply list_lookup_middle.
  - specialize (IH (hp ++ [leaf_node d])).
    rewrite length_app, <- app_assoc in IH. simpl in IH.
    by replace (length hp + 1)%nat with (S (length hp)) in IH by lia.
Qed.

Lemma leaf_trees_forest hp ds :
  forest hash (hp ++ map leaf_node ds) (leaf_trees (length hp) ds).
Proof.
  split.
  - pose proof (leaf_trees_repr hp [] ds) as H. by rewrite app_nil_r in H.
  - rewrite leaf_trees_addrs. apply NoDup_seq.
Qed.

Lemma leaf_trees_length a ds : length (leaf_trees a ds) = length ds.
Proof.
  revert a. induction ds as [|d ds IH]; intros a; simpl; by f_equal.
Qed.

Lemma leaf_trees_digest a ds :
  map (digest hash) (leaf_trees a ds) = map (default []) ds.
Proof.
  revert a. induction ds as [|d ds IH]; intros a; simpl; by f_equal.
Qed.

Lemma leaf_trees_leaves_set a ds :
  Forall is_Some ds -> Forall leaves_set (leaf_trees a ds).
Proof.
  revert a. induction ds as [|d ds IH]; intros a HF; simpl; [constructor|].
  apply Forall_cons in HF as [Hd HF]. constructor; [done|by apply IH].
Qed.

End Leaves.

Section Levels.
Variable hash : bytes -> bytes.

Lemma build_levels_S fuel height t :
  0 < height ->
  build_levels (S fuel) height t =
  match index (levels t) height with
  | None => Crash IndexOutOfRange
  | Some children =>
    (do parents <- on_heap (constructLevel children);
     do _ <- store_level (height - 1) parents;
     build_levels fuel (height - 1)) t
  end.
Proof. intros Hh. simpl. by destruct (Z.gtb_spec height 0); [|lia]. Qed.

Lemma build_levels_0 fuel t : build_levels fuel 0 t = Ret tt t.
Proof. by destruct fuel. Qed.

Lemma build_levels_spec k : forall fuel t ts,
  (k <= fuel)%nat ->
  levels t !! k = Some (map ptr_of ts) ->
  forest hash (nodes t) ts ->
  exists t' ts',
    build_levels fuel (Z.of_nat k) t = Ret tt t'
    /\ levels t' !! 0%nat = Some (map ptr_of ts')
    /\ forest hash (nodes t') ts'
    /\ map (digest hash) ts'
       = Nat.iter k (pair_digests hash) (map (digest hash) ts)
    /\ (Forall leaves_set ts -> Forall leaves_set ts')
    /\ ((0 < k)%nat \/ Forall (fun t => inner t = true) ts ->
        Forall (fun t => inner t = true) ts')
    /\ length (levels t') = length (levels t)
    /\ (length (nodes t) <= length (nodes t'))%nat
    /\ (forall j, (k <= j)%nat -> levels t' !! j = levels t !! j)
    /\ (forall j, (j < k)%nat ->
          exists ps, levels t' !! j = Some (map Some ps)
            /\ length ps = Nat.iter (k - j) half (length ts)
            /\ Forall (fun p => (p < length (nodes t'))%nat) ps)
    /\ (exists rows,
          length rows = S k /\ stacked rows
          /\ rows !! k = Some ts /\ rows !! 0%nat = Some ts'
          /\ forall j, (j <= k)%nat ->
               levels t' !! j = map ptr_of <$> rows !! j).
Proof.
  induction k as [|k IH]; intros fuel t ts Hfuel Hlv Hfor.
  - exists t, ts. rewrite build_levels_0.
    split_and!; try done; try (intros; lia); [by intros [?|?]; [lia|]|].
    exists [ts]. split_and!; try done.
    intros j Hj. assert (j = 0)%nat as -> by lia. by rewrite Hlv.
  - destruct fuel as [|fuel]; [lia|].
    rewrite build_levels_S by lia. rewrite index_of_nat, Hlv.
    destruct (constructLevel_spec hash (nodes t) ts Hfor)
      as (hp' & Hrun & Hfor' & Hlen').
    unfold bind at 1. unfold on_heap. rewrite Hrun.
    unfold bind at 1. unfold store_level. cbn [levels nodes].
    replace (Z.of_nat (S k) - 1) with (Z.of_nat k) by lia.
    rewrite index_of_nat, Nat2Z.id.
    assert (k < length (levels t))%nat as Hk.
    { apply lookup_lt_Some in Hlv. lia. }
    destruct (lookup_lt_is_Some_2 (levels t) k Hk) as [lk ->].
    set (ts2 := pair_trees (length (nodes t)) ts) in *.
    set (t2 := mkTree hp' (<[k := map ptr_of ts2]> (levels t))).
    destruct (IH fuel t2 ts2) as
      (t' & ts' & Hb & H0 & Hf & Hd & Hls & Hin & Hll & Hln & Hge & Hlt
       & rows & Hrl & Hst & Hrk & Hr0 & Hrows);
      [lia|by apply list_lookup_insert_eq|done|].
    exists t', ts'. split; [done|]. split; [done|]. split; [done|].
    split; [|split; [|split; [|split; [|split; [|split; [|split]]]]]].
    + rewrite Hd. unfold ts2. rewrite pair_digests_trees.
      by rewrite Nat.iter_succ_r.
    + intros HF. by apply Hls, pair_trees_leaves_set.
    + intros _. apply Hin. right. apply pair_trees_inner.
    + rewrite Hll. unfold t2. cbn [levels]. by rewrite length_insert.
    + unfold t2 in Hln. cbn [nodes] in Hln. lia.
    + intros j Hj. rewrite Hge by lia. unfold t2. cbn [levels].
      apply list_lookup_insert_ne. lia.
    + intros j Hj. destruct (decide (j = k)) as [->|Hne].
      * exists (map addr ts2). rewrite Hge by lia. unfold t2. cbn [levels].
        rewrite list_lookup_insert_eq by done. split; [|split].
        -- by rewrite map_map.
        -- rewrite length_map. unfold ts2. rewrite pair_trees_length.
           by replace (S k - k)%nat with 1%nat by lia.
        -- apply Forall_forall. intros p [t0 [-> Ht0]]%list_elem_of_fmap.
           destruct Hfor' as [HF' _]. rewrite Forall_forall in HF'.
           pose proof (repr_bound _ _ _ _ _ _ (HF' _ Ht0) (addr_in_addrs t0)).
           unfold t2 in Hln. cbn [nodes] in Hln. lia.
      * destruct (Hlt j ltac:(lia)) as (ps & Hps & Hlen & Hval).
        exists ps. split; [done|]. split; [|done].
        rewrite Hlen. unfold ts2. rewrite pair_trees_length.
        replace (S k - j)%nat with (S (k - j)) by lia.
        by rewrite Nat.iter_succ_r.
    + exists (rows ++ [ts]). split_and!.
      * rewrite length_app. simpl. lia.
      * intros j upper lower Hu Hlo.
        destruct (decide (S j < length rows)%nat) as [Hj|Hj].
        -- rewrite lookup_app_l in Hu, Hlo by lia. eauto.
        -- assert (j = k) as ->.
           { apply lookup_lt_Some in Hlo. rewrite length_app in Hlo.
             simpl in Hlo. lia. }
           rewrite lookup_app_l in Hu by lia.
           rewrite lookup_app_r, Hrl, Nat.sub_diag in Hlo by lia.
           injection Hlo as <-. exists (length (nodes t)).
           rewrite Hrk in Hu. by injection Hu as <-.
      * rewrite lookup_app_r, Hrl, Nat.sub_diag by lia. done.
      * rewrite lookup_app_l by lia. done.
      * intros j Hj. destruct (decide (j = S k)) as [->|Hne].
        -- rewrite Hge by lia. unfold t2. cbn [levels].
           rewrite list_lookup_insert_ne, Hlv by lia.
           by rewrite lookup_app_r, Hrl, Nat.sub_diag by lia.
        -- rewrite lookup_app_l by lia. apply Hrows. lia.
Qed.

End Levels.

(** ** The levels after [Construct] *)

Lemma iter_half_one k n :
  (1 <= n <= 2 ^ k)%nat -> Nat.iter k half n = 1%nat.
Proof.
  revert n. induction k as [|k IH]; intros n Hn.
  - simpl in *. lia.
  - rewrite Nat.iter_succ_r. apply IH. rewrite Nat.pow_succ_r' in Hn.
    unfold half. split; lia_div.
Qed.

Lemma iter_half_pow2 (m j : nat) :
  Nat.iter m half (2 ^ (m + j))%nat = (2 ^ j)%nat.
Proof.
  induction m as [|m IH]; [done|].
  rewrite Nat.iter_succ_r. rewrite <- IH. f_equal.
  replace (S m + j)%nat with (S (m + j)) by lia.
  rewrite Nat.pow_succ_r'. unfold half. lia_div.
Qed.

Lemma count_le_pow2 count :
  1 <= count -> count <= 2 ^ (spec_height count - 1).
Proof.
  intros Hc. unfold spec_height. destruct (Z.eqb_spec count 1) as [->|Hne].
  - done.
  - replace (Z.log2_up count + 1 - 1) with (Z.log2_up count) by lia.
    apply Z.log2_log2_up_spec. lia.
Qed.

Section ConstructLevels.
Variable hash : bytes -> bytes.

Lemma Construct_levels_spec vals t :
  1 <= len vals < 2 ^ 63 ->
  exists t1 troot,
    Construct_levels hash vals t = Ret tt t1
    /\ Height t1 = spec_height (len vals)
    /\ well_levelled t1 (length vals)
    /\ levels t1 !! 0%nat = Some [Some (addr troot)]
    /\ repr hash false (nodes t1) None troot
    /\ NoDup (addrs troot)
    /\ inner troot = true
    /\ (Forall is_Some (map (Sum hash) vals) -> leaves_set troot)
    /\ Nat.iter (Z.to_nat (spec_height (len vals) - 1)) (pair_digests hash)
         (map (default []) (map (Sum hash) vals))
       = [digest hash troot]
    /\ (exists rows,
          length rows = length (levels t1) /\ stacked rows
          /\ rows !! 0%nat = Some [troot]
          /\ rows !! (length rows - 1)%nat
             = Some (leaf_trees (length (nodes t)) (map (Sum hash) vals))
          /\ (forall j row, rows !! j = Some row ->
                levels t1 !! j = Some (map ptr_of row)
                /\ map (digest hash) row
                   = Nat.iter (length rows - 1 - j) (pair_digests hash)
                       (map (default []) (map (Sum hash) vals)))).
Proof.
  intros Hc. unfold Construct_levels.
  rewrite calcTreeHeight_spec by done.
  pose proof (spec_height_ge_2 (len vals) ltac:(lia)) as HH.
  pose proof (count_le_pow2 (len vals) ltac:(lia)) as Hpow.
  assert (exists k, spec_height (len vals) = Z.of_nat (S k)) as [k Hk].
  { exists (Z.to_nat (spec_height (len vals) - 1)). lia. }
  rewrite Hk in *.
  replace (Z.of_nat (S k) - 1) with (Z.of_nat k) in * by lia.
  rewrite !Nat2Z.id in *.
  assert (Z.to_nat (len vals) = length vals) as -> by (unfold len; lia).
  unfold bind at 1. unfold store_level. cbn [levels nodes].
  rewrite index_of_nat, lookup_replicate_2 by lia.
  set (ds := map (Sum hash) vals).
  set (ts := leaf_trees (length (nodes t)) ds).
  rewrite Nat2Z.id. unfold bind at 1.
  change 0 with (Z.of_nat (length (@nil atree))).
  rewrite (fill_leaves_spec hash vals [] _ k); cbn [levels nodes].
  2:{ rewrite list_lookup_insert_eq; [done|]. rewrite length_replicate. lia. }
  rewrite list_insert_insert_eq. cbn [app]. fold ds. fold ts.
  set (tb := mkTree _ _).
  destruct (build_levels_spec hash k k tb ts) as
    (t' & ts' & Hb & H0 & Hf & Hd & Hls & Hin & Hll & Hln & Hge & Hlt
     & rows & Hrl & Hst & Hrk & Hr0 & Hrows).
  { lia. }
  { unfold tb. cbn [levels]. apply list_lookup_insert_eq.
    rewrite length_replicate. lia. }
  { unfold tb. cbn [nodes]. apply leaf_trees_forest. }
  assert (length ts = length vals) as Hlts.
  { unfold ts, ds. by rewrite leaf_trees_length, length_map. }
  assert (length (levels t') = S k) as Hlen.
  { rewrite Hll. unfold tb. cbn [levels].
    by rewrite length_insert, length_replicate. }
  assert (Nat.iter k half (length vals) = 1%nat) as Hone.
  { apply iter_half_one. unfold len in Hc, Hpow. split; [lia|].
    apply Nat2Z.inj_le. by rewrite Nat2Z.inj_pow. }
  assert (exists troot, ts' = [troot]) as [troot ->].
  { destruct (Hlt 0%nat ltac:(lia)) as (ps & Hps & Hlps & _).
    rewrite H0 in Hps. injection Hps as Hps.
    apply (f_equal length) in Hps. rewrite !length_map in Hps.
    rewrite Nat.sub_0_r, Hlts, Hone in Hlps.
    destruct ts' as [|troot [|]]; simpl in Hps; try lia. by exists troot. }
  exists t', troot. destruct Hf as [Hf Hnd].
  rewrite Forall_singleton in Hf, Hin, Hls.
  simpl in Hnd. rewrite app_nil_r in Hnd.
  split_and!; try done.
  - unfold Height, len. lia.
  - intros j Hj. rewrite Hlen in *.
    destruct (decide (j = k)) as [->|Hne].
    + exists (map addr ts). rewrite Hge by lia. unfold tb. cbn [levels].
      rewrite list_lookup_insert_eq by (rewrite length_replicate; lia).
      split; [by rewrite map_map|]. split.
      * rewrite length_map, Hlts. by replace (S k - 1 - k)%nat with 0%nat by lia.
      * apply Forall_forall. intros p [t0 [-> Ht0]]%list_elem_of_fmap.
        destruct (leaf_trees_forest hash (nodes t) ds) as [HF' _].
        rewrite Forall_forall in HF'.
        pose proof (repr_bound _ _ _ _ _ _ (HF' _ Ht0) (addr_in_addrs t0)).
        unfold tb in Hln. cbn [nodes] in Hln. lia.
    + destruct (Hlt j ltac:(lia)) as (ps & Hps & Hlps & Hval).
      exists ps. split; [done|]. split; [|done].
      rewrite Hlps, Hlts. f_equal. lia.
  - apply Hin. left. lia.
  - intros Hds. apply Hls. by apply leaf_trees_leaves_set.
  - simpl in Hd. rewrite Hd. unfold ts. by rewrite leaf_trees_digest.
  - exists rows. split_and!; try done;
      [congruence|by rewrite Hrl; replace (S k - 1)%nat with k by lia|].
    intros j row Hrow.
    assert (j <= k)%nat as Hj by (apply lookup_lt_Some in Hrow; lia).
    split; [by rewrite Hrows, Hrow|].
    rewrite Hrl. replace (S k - 1 - j)%nat with (k - j)%nat by lia.
    clear Hr0 Hd H0 Hlt.
    revert row Hrow. remember (k - j)%nat as m eqn:Hm.
    revert j Hj Hm. induction m as [|m IHm]; intros j Hj Hm row Hrow.
    + assert (j = k) as -> by lia. rewrite Hrk in Hrow. injection Hrow as <-.
      unfold ts. by rewrite leaf_trees_digest.
    + destruct (lookup_lt_is_Some_2 rows (S j)) as [lower Hlo]; [lia|].
      destruct (Hst j row lower Hrow Hlo) as [a ->].
      rewrite pair_digests_trees. simpl. f_equal.
      apply (IHm (S j)); [lia..|done].
Qed.

End ConstructLevels.

(** ** [Construct] as a whole *)

Section ConstructWhole.
Variable hash : bytes -> bytes.

Lemma hashing_step_length nd n hp :
  match hashing_step hash nd n hp with
  | Continue _ hp' | Stop (Ret _ hp') | Stop (Err _ hp') =>
    length hp' = length hp
  | _ => True
  end.
Proof.
  unfold hashing_step, hashing_store, update.
  repeat case_match; simplify_eq; rewrite ?length_insert; done.
Qed.

Lemma hashing_loop_length fuel nd n hp d hp' :
  hashing_loop hash fuel nd n hp = Ret d hp' -> length hp' = length hp.
Proof.
  revert n hp. induction fuel as [|fuel IH]; intros n hp; simpl; [done|].
  pose proof (hashing_step_length nd n hp) as Hs.
  destruct (hashing_step hash nd n hp) as [n1 hp1|r].
  - intros Hr%IH. congruence.
  - intros ->. done.
Qed.

Lemma hashing_loop_mono fuel k nd n hp r :
  hashing_loop hash fuel nd n hp = r -> r <> Diverge ->
  hashing_loop hash (fuel + k) nd n hp = r.
Proof.
  revert n hp. induction fuel as [|fuel IH]; intros n hp; simpl.
  - by intros <-.
  - destruct (hashing_step hash nd n hp) as [n1 hp1|r1]; [apply IH|done].
Qed.

Lemma Construct_unfold fuel vals t :
  Empty t = true -> len vals <> 0 ->
  Construct hash fuel vals t
  = bind (Construct_levels hash vals) (fun _ => setHashes hash fuel) t.
Proof.
  intros He Hv. unfold Construct, Construct_levels. rewrite He. simpl negb.
  destruct (Z.eqb_spec (len vals) 0); [done|]. cbv zeta.
  destruct (calcTreeHeight (len vals)) as [height|]; [|done].
  cbv [bind].
  destruct (store_level _ _ _) as [[] s1| | |]; try done.
  by destruct (fill_leaves _ _ _ _ _) as [[] s2| | |].
Qed.

Lemma setHashes_run fuel t a :
  levels t !! 0%nat = Some [Some a] ->
  setHashes hash fuel t =
  match hashing_loop hash fuel (Some a) (Some a) (nodes t) with
  | Ret d hp => Ret d (mkTree hp (levels t))
  | Err e hp => Err e (mkTree hp (levels t))
  | Crash p => Crash p
  | Diverge => Diverge
  end.
Proof.
  intros H0. unfold setHashes, bind, root.
  change 0 with (Z.of_nat 0). rewrite index_of_nat, H0.
  by rewrite index_of_nat.
Qed.

Lemma well_levelled_nodes t t' count :
  levels t' = levels t -> length (nodes t') = length (nodes t) ->
  well_levelled t count -> well_levelled t' count.
Proof. unfold well_levelled, valid_level. intros -> ->. done. Qed.

(** A successful [Construct] on an empty tree leaves the levels the
    specification describes. *)
Lemma Construct_inv fuel vals t d t' :
  Empty t = true -> 1 <= len vals < 2 ^ 63 ->
  Construct hash fuel vals t = Ret d t' ->
  Height t' = spec_height (len vals) /\ well_levelled t' (length vals).
Proof.
  intros He Hc. rewrite Construct_unfold by (done || lia).
  destruct (Construct_levels_spec hash vals t Hc)
    as (t1 & troot & Hrun & HH & Hwl & H0 & _).
  unfold bind. rewrite Hrun, (setHashes_run _ _ _ H0).
  destruct (hashing_loop hash fuel _ _ _) as [d1 hp1| | |] eqn:E; try done.
  intros [= <- <-]. apply hashing_loop_length in E. split.
  - done.
  - eapply well_levelled_nodes; [..|exact Hwl]; done.
Qed.

Hypothesis hash_nonnil : forall x, hash x <> [].

Lemma map_Sum_hash vals :
  map (default []) (map (Sum hash) vals) = map hash vals.
Proof using hash_nonnil.
  rewrite map_map. apply map_ext. intros v. by rewrite Sum_hash.
Qed.

(** With a digest engine that never yields the empty digest,
    [Construct] on an empty tree returns the reference root once the
    fuel covers the walk of [hashing]. *)
Lemma Construct_succeeds vals t :
  Empty t = true -> 1 <= len vals < 2 ^ 63 ->
  is_Some (merkle_root hash vals) /\
  exists k, forall fuel, exists t',
    Construct hash (S k + fuel) vals t = Ret (merkle_root hash vals) t'.
Proof using hash_nonnil.
  intros He Hc.
  destruct (Construct_levels_spec hash vals t Hc)
    as (t1 & troot & Hrun & HH & Hwl & H0 & Hrep & Hnd & Hin & Hls & Hd & _).
  assert (leaves_set troot) as Hlsr.
  { apply Hls. apply Forall_forall. intros d [v [-> _]]%list_elem_of_fmap.
    rewrite Sum_hash by done. eauto. }
  assert (forall b, b ∈ addrs troot -> Some (addr troot) = Some b ->
                    b = addr troot) as Hnd' by (by intros b _ [= ->]).
  destruct (hashing_subtree hash hash_nonnil troot (nodes t1) None
              (Some (addr troot)) Hin Hlsr Hnd Hrep Hnd')
    as (k & hp' & _ & _ & _ & Hk).
  assert (merkle_root hash vals = Some (digest hash troot)) as Hroot.
  { unfold merkle_root. by rewrite <- map_Sum_hash, Hd. }
  split; [by rewrite Hroot|].
  exists k. intros fuel. exists (mkTree hp' (levels t1)).
  rewrite Construct_unfold by (done || lia).
  unfold bind. rewrite Hrun, (setHashes_run _ _ _ H0), Hk.
  rewrite bool_decide_eq_true_2 by done. by rewrite Hroot.
Qed.

Lemma Construct_mono fuel n vals t d t' :
  Empty t = true -> 1 <= len vals < 2 ^ 63 ->
  Construct hash fuel vals t = Ret d t' ->
  Construct hash (fuel + n) vals t = Ret d t'.
Proof.
  intros He Hc. rewrite !Construct_unfold by (done || lia).
  destruct (Construct_levels_spec hash vals t Hc)
    as (t1 & troot & Hrun & _ & _ & H0 & _).
  unfold bind. rewrite Hrun, !(setHashes_run _ _ _ H0).
  destruct (hashing_loop hash fuel _ _ _) as [d1 hp1| | |] eqn:E; try done.
  intros [= <- <-]. by rewrite (hashing_loop_mono _ n _ _ _ _ E).
Qed.

End ConstructWhole.

(** ** Proof generation over well-formed levels *)

Lemma lxor_1 i :
  0 <= i -> Z.lxor i 1 = if Z.even i then i + 1 else i - 1.
Proof.
  intros Hi. destruct i as [|p|p]; [done| |lia].
  destruct p; reflexivity.
Qed.

Lemma lxor_1_even_size i n :
  0 <= i < n -> Z.even n = true -> 0 <= Z.lxor i 1 < n.
Proof.
  intros Hi Hn. rewrite lxor_1 by lia.
  destruct (Z.even i) eqn:Ei.
  - apply Z.even_spec in Ei as [a ->], Hn as [b ->]. lia.
  - destruct (Z.eq_dec i 0) as [->|]; [discriminate|lia].
Qed.

Lemma scan_ok t ps d : forall k i,
  valid_level t ps ->
  exists r, scan (map Some ps) d k i t = Ret r t
    /\ (ps = [] /\ r = i \/ k <= r < k + len ps).
Proof.
  induction ps as [|p ps IH]; intros k i Hv; simpl.
  - exists i. split; [done|by left].
  - apply Forall_cons in Hv as [Hp Hv].
    destruct (lookup_lt_is_Some_2 (nodes t) p Hp) as [nd ->].
    destruct (bytes_Equal (h nd) d).
    + exists k. split; [done|]. right. unfold len. simpl. lia.
    + destruct (IH (k + 1) k Hv) as (r & -> & Hr). exists r. split; [done|].
      right. unfold len in *. simpl. destruct Hr as [[-> ->]|Hr]; simpl; lia.
Qed.

Lemma node_at_ok t ps j :
  valid_level t ps -> 0 <= j < len ps ->
  exists nd, node_at (map Some ps) j t = Ret nd t.
Proof.
  intros Hv Hj. unfold node_at. rewrite index_nonneg by lia.
  destruct (lookup_lt_is_Some_2 ps (Z.to_nat j)) as [p Hp];
    [unfold len in Hj; lia|].
  rewrite list_lookup_fmap, Hp. simpl.
  unfold valid_level in Hv. rewrite Forall_forall in Hv.
  destruct (lookup_lt_is_Some_2 (nodes t) p) as [nd ->]; [|by eauto].
  apply Hv. by eapply list_elem_of_lookup_2.
Qed.

Lemma sibling_entry_ok t ps i b :
  valid_level t ps -> 0 <= Z.lxor i 1 < len ps ->
  exists b', sibling_entry (map Some ps) i b t = Ret b' t.
Proof.
  intros Hv Hj. unfold sibling_entry.
  destruct (node_at_ok t ps (Z.lxor i 1) Hv Hj) as [nd Hnd].
  destruct (Z.land (Z.lxor i 1) 1 =? 0); unfold bind; rewrite Hnd; eauto.
Qed.

Lemma sibling_entry_outside t (l : Level) i b :
  len l <= Z.lxor i 1 -> sibling_entry l i b t = Crash IndexOutOfRange.
Proof.
  intros Hj. unfold sibling_entry, bind, node_at, index.
  assert (l !! Z.to_nat (Z.lxor i 1) = None) as ->.
  { apply lookup_ge_None. unfold len in Hj. lia. }
  by destruct (Z.land (Z.lxor i 1) 1 =? 0); destruct (Z.lxor i 1 <? 0).
Qed.

Lemma errs_in_level P height :
  P ErrHeightOutOfRange -> errs_in P (level height).
Proof.
  intros HP t e t'. unfold level.
  destruct (_ || _); [by intros [= <- _]|].
  destruct (index (levels t) _); discriminate.
Qed.

Lemma errs_in_node_at P l i : errs_in P (node_at l i).
Proof.
  intros t e t'. unfold node_at.
  destruct (index l i) as [p|]; [destruct (deref (nodes t) p)|]; discriminate.
Qed.

Lemma errs_in_sibling_entry P l i b : errs_in P (sibling_entry l i b).
Proof.
  unfold sibling_entry. destruct (Z.land (Z.lxor i 1) 1 =? 0);
    (apply errs_in_bind; [apply errs_in_node_at|intros nd; apply errs_in_Ret]).
Qed.

Lemma errs_in_ComputeProof_loop fuel i height b :
  errs_in (eq ErrHeightOutOfRange) (ComputeProof_loop fuel i height b).
Proof.
  revert i height b. induction fuel as [|fuel IH]; intros i height b; simpl.
  - intros t e t'. discriminate.
  - apply errs_in_bind; [by apply errs_in_level|]. intros lv.
    destruct (len lv =? 1); [apply errs_in_Ret|].
    apply errs_in_bind; [apply errs_in_sibling_entry|]. intros b'. apply IH.
Qed.

(** The level at height [hgt] of a well-formed tree. *)
Lemma level_well_levelled t count (hgt : nat) :
  well_levelled t count -> Height t < 2 ^ 63 ->
  (1 <= hgt <= length (levels t))%nat ->
  exists ps,
    level (Z.of_nat hgt) t = Ret (map Some ps) t
    /\ length ps = Nat.iter (length (levels t) - hgt) half count
    /\ valid_level t ps.
Proof.
  intros Hwl Hmax Hh.
  destruct (Hwl (hgt - 1)%nat ltac:(lia)) as (ps & Hps & Hlen & Hv).
  exists ps. split; [|split; [|done]].
  - destruct (level_inside t (Z.of_nat hgt)) as (l & Hl & ->);
      [unfold Height, len; lia|done|].
    replace (Z.of_nat hgt - 1) with (Z.of_nat (hgt - 1)) in Hl by lia.
    rewrite index_of_nat in Hl. congruence.
  - rewrite Hlen. f_equal. lia.
Qed.

Section Prove.
Variable hash : bytes -> bytes.

(** On well-formed levels [ComputeProof] always gets past the scan of
    the leaves: the index it goes on with lies inside the leaf level. *)
Lemma ComputeProof_unfold v t count :
  well_levelled t count -> (1 <= count)%nat ->
  (1 <= length (levels t))%nat -> Height t < 2 ^ 63 ->
  exists ps r,
    length ps = count /\ valid_level t ps /\ 0 <= r < Z.of_nat count
    /\ level (Height t) t = Ret (map Some ps) t
    /\ ComputeProof hash v t =
       (do b <- sibling_entry (map Some ps) r [];
        do b <- ComputeProof_loop (S (Z.to_nat (Height t))) r (Height t) b;
        Ret (NewProof b (hash v))) t.
Proof.
  intros Hwl Hc Hl Hmax.
  destruct (level_well_levelled t count (length (levels t)) Hwl Hmax)
    as (ps & Hlv & Hlen & Hv); [lia|].
  rewrite Nat.sub_diag in Hlen. simpl in Hlen.
  destruct (scan_ok t ps (hash v) 0 0 Hv) as (r & Hscan & Hr).
  assert (0 <= r < Z.of_nat count) as Hr'.
  { unfold len in Hr. destruct Hr as [[-> _]|Hr]; simpl in *; lia. }
  exists ps, r. split_and!; try done; try lia.
  unfold ComputeProof. fold (Height t) in Hlv.
  unfold bind at 1. unfold Height at 1. unfold len at 1. rewrite Hlv.
  unfold bind at 1. rewrite Hscan.
  destruct (Z.eqb_spec r (len (map Some ps))) as [Heq|_]; [|done].
  unfold len in Heq. rewrite length_map in Heq. lia.
Qed.

Lemma ComputeProof_errs v t count e t' :
  well_levelled t count -> (1 <= count)%nat ->
  (1 <= length (levels t))%nat -> Height t < 2 ^ 63 ->
  ComputeProof hash v t = Err e t' -> e = ErrHeightOutOfRange.
Proof.
  intros Hwl Hc Hl Hmax.
  destruct (ComputeProof_unfold v t count Hwl Hc Hl Hmax)
    as (ps & r & _ & _ & _ & _ & ->).
  intros He. symmetry. revert He. apply errs_in_bind.
  - apply errs_in_sibling_entry.
  - intros b. apply errs_in_bind; [apply errs_in_ComputeProof_loop|].
    intros b'. apply errs_in_Ret.
Qed.

End Prove.

(** In a tree over [2 ^ k] values the loop of [ComputeProof] meets only
    levels of even size until it reaches the root. *)
Lemma ComputeProof_loop_pow2 t k :
  well_levelled t (2 ^ k)%nat -> length (levels t) = S k ->
  Height t < 2 ^ 63 ->
  forall fuel hgt i b,
    (2 <= hgt <= S k)%nat -> (hgt <= S fuel)%nat ->
    0 <= i < 2 ^ (Z.of_nat hgt - 1) ->
    exists b', ComputeProof_loop fuel i (Z.of_nat hgt) b t = Ret b' t.
Proof.
  intros Hwl Hlen Hmax.
  induction fuel as [|fuel IH]; intros hgt i b Hh Hf Hi; [lia|].
  simpl. replace (Z.of_nat hgt - 1) with (Z.of_nat (hgt - 1)) in * by lia.
  destruct (level_well_levelled t _ (hgt - 1) Hwl Hmax)
    as (ps & Hlv & Hlps & Hv); [lia|].
  unfold bind at 1. rewrite Hlv.
  assert (length ps = 2 ^ (hgt - 2))%nat as Hsize.
  { rewrite Hlps, Hlen.
    replace k with ((S k - (hgt - 1)) + (hgt - 2))%nat at 2 by lia.
    apply iter_half_pow2. }
  destruct (Z.eqb_spec (len (map Some ps)) 1) as [|Hne]; [by eauto|].
  assert (3 <= hgt)%nat as Hh3.
  { destruct (decide (hgt = 2%nat)) as [->|]; [|lia].
    unfold len in Hne. rewrite length_map, Hsize in Hne. simpl in Hne. lia. }
  assert (len ps = 2 * 2 ^ (Z.of_nat hgt - 3)) as Hps.
  { unfold len. rewrite Hsize, Nat2Z.inj_pow.
    replace (Z.of_nat (hgt - 2)) with (Z.succ (Z.of_nat hgt - 3)) by lia.
    rewrite Z.pow_succ_r by lia. done. }
  assert (0 <= Z.quot i 2 < len ps) as Hq.
  { rewrite Z.quot_div_nonneg by lia. rewrite Hps.
    replace (Z.of_nat (hgt - 1)) with (Z.succ (Z.succ (Z.of_nat hgt - 3)))
      in Hi by lia.
    rewrite !Z.pow_succ_r in Hi by lia. lia_div. }
  destruct (sibling_entry_ok t ps (Z.quot i 2) b Hv) as [b1 Hb1].
  { apply lxor_1_even_size; [done|]. rewrite Hps. by rewrite Z.even_mul. }
  unfold bind. rewrite Hb1.
  apply IH; [lia..|].
  replace (Z.of_nat (hgt - 1) - 1) with (Z.succ (Z.of_nat hgt - 3)) by lia.
  rewrite Z.pow_succ_r by lia. lia.
Qed.

Lemma spec_height_bound count :
  1 <= count < 2 ^ 63 -> 2 <= spec_height count <= 64.
Proof.
  intros Hc. split; [by apply spec_height_ge_2; lia|].
  unfold spec_height. destruct (Z.eqb_spec count 1); [lia|].
  assert (Z.log2_up count <= Z.log2_up (2 ^ 63)) as Hle
    by (apply Z.log2_up_le_mono; lia).
  rewrite Z.log2_up_pow2 in Hle by lia. lia.
Qed.

(** What a successful [Construct] on a fresh tree leaves behind. *)
Lemma Construct_shape hash fuel vals d t :
  vals <> [] -> len vals < 2 ^ 63 ->
  Construct hash fuel vals NewTree = Ret d t ->
  well_levelled t (length vals)
  /\ Height t = spec_height (len vals)
  /\ Height t < 2 ^ 63
  /\ (1 <= length vals)%nat
  /\ (2 <= length (levels t))%nat.
Proof.
  intros Hne%len_nonempty Hmax Hrun.
  destruct (Construct_inv hash fuel vals NewTree d t) as [HH Hwl];
    [done|lia|done|].
  pose proof (spec_height_bound (len vals) ltac:(lia)) as Hb.
  split_and!; try done; unfold Height, len in *; lia.
Qed.

(** The fuel [ComputeProof] gives its loop is never used up. *)
Lemma errs_or_crash_sibling_entry l i b t :
  sibling_entry l i b t <> Diverge.
Proof.
  unfold sibling_entry, bind, node_at.
  destruct (Z.land (Z.lxor i 1) 1 =? 0);
    destruct (index l (Z.lxor i 1)) as [p|]; try done;
    by destruct (deref (nodes t) p).
Qed.

Lemma level_Ret_height t height l t' :
  - 2 ^ 63 < height < 2 ^ 63 -> level height t = Ret l t' -> 1 <= height.
Proof.
  intros Hh. unfold level. rewrite wrap64_small by lia.
  destruct (Z.ltb_spec (height - 1) 0); [discriminate|]. lia.
Qed.

Lemma ComputeProof_loop_terminates t : forall fuel i height b,
  0 <= height < 2 ^ 63 -> (Z.to_nat height < fuel)%nat ->
  ComputeProof_loop fuel i height b t <> Diverge.
Proof.
  induction fuel as [|fuel IH]; intros i height b Hh Hf; [lia|].
  simpl. unfold bind at 1.
  destruct (level (height - 1) t) as [lv t1| | |] eqn:El; try done.
  - assert (t1 = t) as ->.
    { unfold level in El. repeat case_match; congruence. }
    apply level_Ret_height in El; [|lia].
    destruct (len lv =? 1); [done|]. unfold bind.
    pose proof (errs_or_crash_sibling_entry lv (Z.quot i 2) b t) as Hs.
    destruct (sibling_entry lv (Z.quot i 2) b t) as [b1 t1| | |] eqn:Es;
      try done.
    assert (t1 = t) as ->.
    { unfold sibling_entry, bind, node_at in Es.
      repeat case_match; congruence. }
    apply IH; lia.
  - unfold level in El. repeat case_match; congruence.
Qed.

Lemma ComputeProof_terminates hash v t :
  Height t < 2 ^ 63 -> ComputeProof hash v t <> Diverge.
Proof.
  intros Hmax. pose proof (Height_nonneg t) as H0. unfold ComputeProof.
  unfold bind at 1.
  destruct (level (Height t) t) as [lv t1| | |] eqn:El; try done.
  - assert (t1 = t) as ->.
    { unfold level in El. repeat case_match; congruence. }
    unfold bind at 1.
    assert (forall rest k i, exists o, scan rest (hash v) k i t = o
              /\ o <> Diverge /\ forall r t2, o = Ret r t2 -> t2 = t) as Hscan.
    { induction rest as [|p rest IH]; intros k i; simpl.
      - eexists. split; [done|]. split; [done|]. by intros r t2 [= _ <-].
      - destruct (deref (nodes t) p) as [nd|].
        + destruct (bytes_Equal (h nd) (hash v)); [|apply IH].
          eexists. split; [done|]. split; [done|]. by intros r t2 [= _ <-].
        + eexists. split; [done|]. split; [done|]. by intros r t2 [=]. }
    destruct (Hscan lv 0 0) as (o & -> & Ho & Hot).
    destruct o as [r t2| | |]; try done.
    rewrite (Hot r t2 eq_refl).
    destruct (r =? len lv); [done|].
    unfold bind at 1.
    pose proof (errs_or_crash_sibling_entry lv r [] t) as Hs.
    destruct (sibling_entry lv r [] t) as [b1 t1| | |] eqn:Es; try done.
    assert (t1 = t) as ->.
    { unfold sibling_entry, bind, node_at in Es.
      repeat case_match; congruence. }
    unfold bind.
    pose proof (ComputeProof_loop_terminates t (S (Z.to_nat (Height t))) r
                  (Height t) b1 ltac:(lia) ltac:(lia)) as Hl.
    by destruct (ComputeProof_loop _ _ _ _ _).
  - unfold level in El. repeat case_match; congruence.
Qed.

(** ** The digests a constructed tree holds *)

Section Digests.
Variable hash : bytes -> bytes.
Hypothesis hash_nonnil : forall x, hash x <> [].

Lemma pair_trees_kids hp a ts :
  hashed_row hash hp (pair_trees a ts) -> hashed_row hash hp ts.
Proof.
  revert a. induction ts as [ts IH] using (induction_ltof1 _ (@length _)).
  unfold ltof in IH. intros a. destruct ts as [|t1 [|t2 ts]]; simpl.
  - done.
  - intros [(par & [_ Hr] & Hl) _]%Forall_cons. apply Forall_singleton. eauto.
  - intros [(par & (_ & Hr1 & Hr2) & Hl1 & Hl2) HF]%Forall_cons.
    repeat (apply Forall_cons; split); eauto.
    eapply IH; [simpl; lia|done].
Qed.

Lemma hashed_row_digests t row :
  hashed_row hash (nodes t) row ->
  holds_digests t (map addr row) (map (digest hash) row).
Proof.
  induction 1 as [|tr row (par & Hr & Hl) _ IH]; simpl; constructor; [|done].
  exists (node_of hash true par tr). split; [by apply repr_root|].
  by rewrite h_node_of, node_h_done.
Qed.

(** After a successful [Construct] every level holds the digests the
    reference computation gives for it. *)
Lemma Construct_digests fuel vals d t :
  vals <> [] -> len vals < 2 ^ 63 ->
  Construct hash fuel vals NewTree = Ret d t ->
  forall j, (j < length (levels t))%nat ->
    exists ps,
      levels t !! j = Some (map Some ps)
      /\ holds_digests t ps
           (Nat.iter (length (levels t) - 1 - j) (pair_digests hash)
              (map hash vals)).
Proof using hash_nonnil.
  intros Hne%len_nonempty Hmax. rewrite Construct_unfold by (done || lia).
  destruct (Construct_levels_spec hash vals NewTree ltac:(lia))
    as (t1 & troot & Hrun & HH & Hwl & H0 & Hrep & Hnd & Hin & Hls & Hd
        & rows & Hrl & Hst & Hr0 & _ & Hrows).
  assert (leaves_set troot) as Hlsr.
  { apply Hls. apply Forall_forall. intros x [v [-> _]]%list_elem_of_fmap.
    rewrite Sum_hash by done. eauto. }
  assert (forall b, b ∈ addrs troot -> Some (addr troot) = Some b ->
                    b = addr troot) as Hnd' by (by intros b _ [= ->]).
  destruct (hashing_subtree hash hash_nonnil troot (nodes t1) None
              (Some (addr troot)) Hin Hlsr Hnd Hrep Hnd')
    as (k & hp' & _ & _ & Hrep' & Hk).
  unfold bind. rewrite Hrun, (setHashes_run _ _ _ _ H0).
  destruct (hashing_loop hash fuel _ _ _) as [d1 hp1| | |] eqn:E; try done.
  intros [= <- <-]. cbn [levels nodes].
  apply (hashing_loop_mono hash _ (S k)) in E; [|done].
  replace (fuel + S k)%nat with (S k + fuel)%nat in E by lia.
  rewrite Hk, bool_decide_eq_true_2 in E by done. injection E as _ <-.
  assert (forall j row, rows !! j = Some row -> hashed_row hash hp' row) as Hrows'.
  { induction j as [|j IH]; intros row Hrow.
    - rewrite Hr0 in Hrow. injection Hrow as <-. apply Forall_singleton. eauto.
    - destruct (lookup_lt_is_Some_2 rows j) as [upper Hup].
      { apply lookup_lt_Some in Hrow. lia. }
      destruct (Hst j upper row Hup Hrow) as [a ->].
      eapply pair_trees_kids, IH, Hup. }
  intros j Hj. rewrite <- Hrl in Hj |- *.
  destruct (lookup_lt_is_Some_2 rows j Hj) as [row Hrow].
  destruct (Hrows j row Hrow) as [Hlv Hdig].
  exists (map addr row). split; [by rewrite Hlv, map_map|].
  rewrite <- map_Sum_hash, <- Hdig by done.
  by apply (hashed_row_digests (mkTree hp' (levels t1))), Hrows' with j.
Qed.

End Digests.

(** ** Branches and their fold *)

Lemma land_lxor_1 i : 0 <= i -> (Z.land (Z.lxor i 1) 1 =? 0) = Z.odd i.
Proof.
  intros Hi. destruct i as [|p|p]; [done| |lia]. destruct p; reflexivity.
Qed.

Lemma index_cons_succ {A} (a : A) l i :
  0 <= i -> index (a :: l) (i + 1) = index l i.
Proof.
  intros Hi. rewrite !index_nonneg by lia.
  by replace (Z.to_nat (i + 1)) with (S (Z.to_nat i)) by lia.
Qed.

Lemma index_lt {A} (l : list A) i x : index l i = Some x -> 0 <= i < len l.
Proof. intros Hx. apply index_is_Some. by rewrite Hx. Qed.

Section Branches.
Variable hash : bytes -> bytes.

Lemma pair_digests_length ds :
  len (pair_digests hash ds) = (len ds + 1) / 2.
Proof.
  induction ds as [ds IH] using (induction_ltof1 _ (@length _)).
  unfold ltof in IH. destruct ds as [|a [|b ds]]; try done.
  cbn [pair_digests]. unfold len in *. cbn [length].
  rewrite !Nat2Z.inj_succ, IH by (simpl; lia). lia_div.
Qed.

(** A digest combined with its sibling is the digest at half the
    position in the level above. *)
Lemma pair_digests_combine ds : forall i x y,
  index ds i = Some x -> index ds (Z.lxor i 1) = Some y ->
  index (pair_digests hash ds) (Z.quot i 2)
  = Some (combine hash x (side i, y)).
Proof.
  induction ds as [ds IH] using (induction_ltof1 _ (@length _)).
  unfold ltof in IH. intros i x y Hx Hy.
  pose proof (index_lt _ _ _ Hx) as Hi.
  pose proof (index_lt _ _ _ Hy) as Hj.
  destruct ds as [|a [|b ds]].
  - unfold len in Hi. simpl in Hi. lia.
  - unfold len in Hi, Hj. simpl in Hi, Hj. assert (i = 0) as -> by lia.
    change (Z.lxor 0 1) with 1 in Hj. lia.
  - destruct (decide (i = 0)) as [->|H0]; [|destruct (decide (i = 1)) as [->|H1]].
    + by injection Hx as <-; injection Hy as <-.
    + by injection Hx as <-; injection Hy as <-.
    + assert (exists m, 0 <= m /\ i = m + 1 + 1) as (m & Hm & ->)
        by (exists (i - 2); lia).
      rewrite !index_cons_succ in Hx by lia.
      assert (Z.lxor (m + 1 + 1) 1 = Z.lxor m 1 + 1 + 1) as Hl.
      { rewrite !lxor_1 by lia.
        replace (m + 1 + 1) with (Z.succ (Z.succ m)) by lia.
        rewrite Z.even_succ_succ. destruct (Z.even m); lia. }
      assert (0 <= Z.lxor m 1).
      { rewrite lxor_1 by lia. destruct (Z.even m) eqn:E; [lia|].
        destruct (decide (m = 0)) as [->|]; [discriminate|lia]. }
      rewrite Hl, !index_cons_succ in Hy by lia.
      replace (Z.quot (m + 1 + 1) 2) with (Z.quot m 2 + 1) by lia_div.
      cbn [pair_digests]. rewrite index_cons_succ by lia_div.
      rewrite (IH ds ltac:(simpl; lia) m x y Hx Hy). unfold side.
      replace (m + 1 + 1) with (Z.succ (Z.succ m)) by lia.
      by rewrite Z.odd_succ_succ.
Qed.

Lemma replay_path k : forall i ds,
  len ds = 2 ^ Z.of_nat k -> 0 <= i < len ds ->
  exists x r,
    index ds i = Some x
    /\ head (Nat.iter k (pair_digests hash) ds) = Some r
    /\ replay hash (path hash k i ds) x = r.
Proof.
  induction k as [|k IH]; intros i ds Hlen Hi.
  - assert (length ds = 1%nat) as Hone
      by (unfold len in Hlen; simpl in Hlen; lia).
    destruct ds as [|x [|]]; try discriminate Hone.
    assert (i = 0) as -> by (unfold len in Hi; simpl in Hi; lia).
    by exists x, x.
  - rewrite Nat2Z.inj_succ, Z.pow_succ_r in Hlen by lia.
    destruct (proj2 (index_is_Some ds i) Hi) as [x Hx].
    assert (0 <= Z.lxor i 1 < len ds) as Hj.
    { apply lxor_1_even_size; [done|]. rewrite Hlen. by rewrite Z.even_mul. }
    destruct (proj2 (index_is_Some ds (Z.lxor i 1)) Hj) as [y Hy].
    pose proof (pair_digests_combine ds i x y Hx Hy) as Hc.
    destruct (IH (Z.quot i 2) (pair_digests hash ds)) as (x' & r & Hx' & Hr & Hrun).
    { rewrite pair_digests_length, Hlen. lia_div. }
    { apply index_lt in Hc. done. }
    exists x, r. split; [done|]. split; [by rewrite Nat.iter_succ_r|].
    cbn [path]. rewrite Hy. unfold replay in *. simpl.
    rewrite Hx' in Hc. by injection Hc as ->.
Qed.

End Branches.

(** ** Proof generation over levels with known digests *)

Lemma node_at_digest t ps ds i d :
  holds_digests t ps ds -> index ds i = Some d ->
  exists nd, node_at (map Some ps) i t = Ret nd t /\ h nd = Some d.
Proof.
  intros Hh Hd. pose proof (index_lt _ _ _ Hd) as Hi.
  rewrite index_nonneg in Hd by lia.
  destruct (Forall2_lookup_r _ _ _ _ _ Hh Hd) as (p & Hp & nd & Hnd & Hhd).
  exists nd. split; [|done]. unfold node_at.
  rewrite index_nonneg by lia. rewrite list_lookup_fmap, Hp. simpl.
  by rewrite Hnd.
Qed.

Lemma sibling_entry_digest t ps ds i b d :
  holds_digests t ps ds -> 0 <= i -> index ds (Z.lxor i 1) = Some d ->
  sibling_entry (map Some ps) i b t = Ret (b ++ [encode (side i, d)]) t.
Proof.
  intros Hh Hi Hd.
  destruct (node_at_digest t ps ds _ d Hh Hd) as (nd & Hnd & Hhd).
  unfold sibling_entry, side. rewrite land_lxor_1 by done.
  destruct (Z.odd i); unfold bind; rewrite Hnd, Hhd; done.
Qed.

(** The scan stops at the first leaf that carries the digest. *)
Lemma scan_found t ps ds d : forall k i,
  holds_digests t ps ds -> d ∈ ds ->
  exists r, scan (map Some ps) d k i t = Ret (k + r) t
    /\ index ds r = Some d.
Proof.
  intros k i Hh. revert k i.
  induction Hh as [|p x ps ds (nd & Hnd & Hx) Hh IH]; intros k i Hin.
  - by apply elem_of_nil in Hin.
  - simpl. rewrite Hnd. unfold bytes_Equal. rewrite Hx. simpl.
    case_bool_decide as Heq.
    + exists 0. split; [by rewrite Z.add_0_r|]. by rewrite Heq.
    + apply elem_of_cons in Hin as [->|Hin]; [done|].
      destruct (IH (k + 1) k Hin) as (r & -> & Hr).
      pose proof (index_lt _ _ _ Hr). exists (r + 1).
      split; [f_equal; lia|]. by rewrite index_cons_succ by lia.
Qed.

Section Run.

Variable hash : bytes -> bytes.
Variable t : Tree.
Variable H : nat.
Variable D : nat -> list bytes.

Hypothesis Hlevels : length (levels t) = H.
Hypothesis Hmax : Height t < 2 ^ 63.
Hypothesis Hrow :
  forall j, (j < H)%nat ->
    exists ps, levels t !! j = Some (map Some ps) /\ holds_digests t ps (D j).
Hypothesis Hsize : forall j, (j < H)%nat -> len (D j) = 2 ^ Z.of_nat j.
Hypothesis Hstep :
  forall j, (S j < H)%nat -> D j = pair_digests hash (D (S j)).

Lemma level_row (hgt : nat) :
  (1 <= hgt <= H)%nat ->
  exists ps,
    level (Z.of_nat hgt) t = Ret (map Some ps) t
    /\ holds_digests t ps (D (hgt - 1)).
Proof using All.
  intros Hh. destruct (Hrow (hgt - 1)%nat ltac:(lia)) as (ps & Hps & Hd).
  exists ps. split; [|done].
  destruct (level_inside t (Z.of_nat hgt)) as (l & Hl & ->);
    [unfold Height, len; lia|done|].
  replace (Z.of_nat hgt - 1) with (Z.of_nat (hgt - 1)) in Hl by lia.
  rewrite index_of_nat in Hl. congruence.
Qed.

Lemma sibling_in_row j i :
  (1 <= j < H)%nat -> 0 <= i < 2 ^ Z.of_nat j ->
  exists d, index (D j) (Z.lxor i 1) = Some d.
Proof using All.
  intros Hj Hi. apply index_is_Some. rewrite Hsize by lia.
  apply lxor_1_even_size; [done|].
  replace (Z.of_nat j) with (Z.succ (Z.of_nat (j - 1))) by lia.
  rewrite Z.pow_succ_r by lia. by rewrite Z.even_mul.
Qed.

(** From position [i] of level [j], whose entry is in [b] already, the
    loop adds the entries of the levels above up to the root. *)
Lemma ComputeProof_loop_path : forall fuel j i b,
  (1 <= j < H)%nat -> (j <= fuel)%nat -> 0 <= i < 2 ^ Z.of_nat j ->
  ComputeProof_loop fuel i (Z.of_nat (S j)) b t
  = Ret (b ++ map encode (path hash (j - 1) (Z.quot i 2) (D (j - 1)))) t.
Proof using All.
  induction fuel as [|fuel IH]; intros j i b Hj Hf Hi; [lia|].
  simpl. replace (Z.of_nat (S j) - 1) with (Z.of_nat j) by lia.
  destruct (level_row j ltac:(lia)) as (ps & Hlv & Hd).
  unfold bind at 1. rewrite Hlv.
  assert (len (map Some ps) = 2 ^ Z.of_nat (j - 1)) as Hlen.
  { unfold len. rewrite length_map, (Forall2_length _ _ _ Hd).
    apply (Hsize (j - 1)%nat). lia. }
  assert (0 <= Z.quot i 2 < 2 ^ Z.of_nat (j - 1)) as Hq.
  { replace (Z.of_nat j) with (Z.succ (Z.of_nat (j - 1))) in Hi by lia.
    rewrite Z.pow_succ_r in Hi by lia. lia_div. }
  rewrite Hlen. destruct (decide (j = 1%nat)) as [->|Hne].
  - simpl. by rewrite app_nil_r.
  - destruct (Z.eqb_spec (2 ^ Z.of_nat (j - 1)) 1) as [Heq|_].
    { replace (Z.of_nat (j - 1)) with (Z.succ (Z.of_nat (j - 2))) in Heq by lia.
      rewrite Z.pow_succ_r in Heq by lia.
      pose proof (Z.pow_pos_nonneg 2 (Z.of_nat (j - 2))). lia. }
    destruct (sibling_in_row (j - 1) (Z.quot i 2)) as [d Hsib]; [lia|done|].
    unfold bind.
    rewrite (sibling_entry_digest t ps _ _ b d Hd) by (done || lia).
    replace (Z.of_nat j) with (Z.of_nat (S (j - 1))) by lia.
    refine (eq_trans (IH (j - 1)%nat _ _ ltac:(lia) ltac:(lia) Hq) _).
    rewrite <- app_assoc. do 2 f_equal.
    replace (j - 1)%nat with (S (j - 2)) at 3 by lia.
    cbn [path map app]. rewrite Hsib.
    replace (j - 1 - 1)%nat with (j - 2)%nat by lia.
    rewrite (Hstep (j - 2)) by lia.
    by replace (S (j - 2)) with (j - 1)%nat by lia.
Qed.

(** [ComputeProof] for a value with a leaf returns the branch of the
    first leaf that carries the digest of the value. *)
Lemma ComputeProof_path v :
  (2 <= H)%nat -> hash v ∈ D (H - 1) ->
  exists r,
    index (D (H - 1)) r = Some (hash v)
    /\ ComputeProof hash v t
       = Ret (NewProof (map encode (path hash (H - 1) r (D (H - 1))))
                (hash v)) t.
Proof using All.
  intros HH Hin. unfold ComputeProof.
  destruct (level_row H ltac:(lia)) as (ps & Hlv & Hd).
  assert (Height t = Z.of_nat H) as Hht by (unfold Height, len; lia).
  rewrite Hht. unfold bind at 1. rewrite Hlv.
  destruct (scan_found t ps _ (hash v) 0 0 Hd Hin) as (r & Hscan & Hr).
  rewrite Z.add_0_l in Hscan. unfold bind at 1. rewrite Hscan.
  pose proof (index_lt _ _ _ Hr) as Hlt.
  pose proof (Hsize (H - 1)%nat ltac:(lia)) as Hsz.
  assert (len (map Some ps) = len (D (H - 1))) as Hlen.
  { unfold len. by rewrite length_map, (Forall2_length _ _ _ Hd). }
  destruct (Z.eqb_spec r (len (map Some ps))) as [Heq|_]; [lia|].
  destruct (sibling_in_row (H - 1) r) as [d Hsib]; [lia..|].
  unfold bind at 1.
  rewrite (sibling_entry_digest t ps _ _ [] d Hd) by (done || lia).
  pose proof (ComputeProof_loop_path (S (Z.to_nat (Z.of_nat H))) (H - 1) r
                ([] ++ [encode (side r, d)]) ltac:(lia) ltac:(lia) ltac:(lia))
    as Hloop.
  replace (Z.of_nat (S (H - 1))) with (Z.of_nat H) in Hloop by lia.
  unfold bind. rewrite Hloop.
  exists r. split; [done|]. do 2 f_equal.
  replace (H - 1)%nat with (S (H - 2)) at 3 by lia.
  cbn [path map app]. rewrite Hsib.
  replace (H - 1 - 1)%nat with (H - 2)%nat by lia.
  rewrite (Hstep (H - 2)) by lia.
  by replace (S (H - 2)) with (H - 1)%nat by lia.
Qed.

End Run.

Lemma iter_pair_digests_len hash (m j : nat) (L : list bytes) :
  len L = 2 ^ Z.of_nat (m + j) ->
  len (Nat.iter m (pair_digests hash) L) = 2 ^ Z.of_nat j.
Proof.
  revert j. induction m as [|m IH]; intros j HL; [done|].
  simpl. rewrite pair_digests_length, (IH (S j)).
  - rewrite Nat2Z.inj_succ, Z.pow_succ_r by lia. lia_div.
  - by replace (m + S j)%nat with (S m + j)%nat by lia.
Qed.

(** * Lemmas for the further properties *)

Lemma links_kept_refl hp : links_kept hp hp.
Proof. split; [done|]. intros a N HN. exists N. by repeat split. Qed.

Lemma links_kept_trans hp1 hp2 hp3 :
  links_kept hp1 hp2 -> links_kept hp2 hp3 -> links_kept hp1 hp3.
Proof.
  intros [Hl1 H1] [Hl2 H2]. split; [congruence|].
  intros a N HN.
  destruct (H1 a N HN) as (N1 & HN1 & Hp1 & Hle1 & Hr1 & Hd1).
  destruct (H2 a N1 HN1) as (N2 & HN2 & Hp2 & Hle2 & Hr2 & Hd2).
  exists N2. repeat split; try congruence. intros d Hd. auto.
Qed.

Lemma links_kept_set_h hp a N d :
  hp !! a = Some N -> h N = None -> links_kept hp (<[a := set_h d N]> hp).
Proof.
  intros HN Hh. split; [by rewrite length_insert|].
  intros b B HB. destruct (decide (b = a)) as [->|Hne].
  - exists (set_h d N). rewrite list_lookup_insert_eq
      by (by eapply lookup_lt_Some).
    assert (B = N) as -> by congruence.
    repeat split; try done. intros d' Hd'. congruence.
  - exists B. rewrite list_lookup_insert_ne by done. by repeat split.
Qed.

Section HashingFrame.

Variable hash : bytes -> bytes.

Lemma hashing_step_links nd n hp :
  match hashing_step hash nd n hp with
  | Continue _ hp' | Stop (Ret _ hp') | Stop (Err _ hp') => links_kept hp hp'
  | _ => True
  end.
Proof.
  unfold hashing_step, hashing_store, update, deref.
  repeat case_match; simplify_eq;
    first [done | apply links_kept_refl | by apply links_kept_set_h].
Qed.

Lemma hashing_loop_links fuel nd : forall n hp,
  match hashing_loop hash fuel nd n hp with
  | Ret _ hp' | Err _ hp' => links_kept hp hp'
  | _ => True
  end.
Proof.
  induction fuel as [|fuel IH]; intros n hp; simpl; [done|].
  pose proof (hashing_step_links nd n hp) as Hs.
  destruct (hashing_step hash nd n hp) as [n1 hp1|r]; [|by destruct r].
  specialize (IH n1 hp1).
  destruct (hashing_loop hash fuel nd n1 hp1); try done;
    by eapply links_kept_trans.
Qed.

Lemma hashing_step_result nd n hp x hp' :
  hashing_step hash nd n hp = Stop (Ret x hp') ->
  exists a N, nd = Some a /\ hp' !! a = Some N /\ h N = x.
Proof.
  unfold hashing_step, hashing_store, update, deref.
  repeat case_match; simplify_eq; intros [= <- <-];
    repeat match goal with
           | H : bool_decide _ = true |- _ => apply bool_decide_eq_true in H
           end; simplify_eq;
    eexists _, _; (split; [done|]);
    rewrite ?list_lookup_insert_eq by (by eapply lookup_lt_Some); done.
Qed.

Lemma hashing_loop_result fuel nd : forall n hp x hp',
  hashing_loop hash fuel nd n hp = Ret x hp' ->
  exists a N, nd = Some a /\ hp' !! a = Some N /\ h N = x.
Proof.
  induction fuel as [|fuel IH]; intros n hp x hp'; simpl; [done|].
  destruct (hashing_step hash nd n hp) as [n1 hp1|r] eqn:Hs; [apply IH|].
  intros ->. by eapply hashing_step_result.
Qed.

End HashingFrame.

Lemma read_only_bind {S A B} (m : M S A) (k : A -> M S B) :
  read_only m -> (forall a, read_only (k a)) -> read_only (bind m k).
Proof.
  intros Hm Hk s. unfold bind. specialize (Hm s).
  destruct (m s) as [a s'| | |]; try done. subst s'. apply Hk.
Qed.

Lemma read_only_Ret {S A} (a : A) : read_only (S := S) (Ret a).
Proof. by intros s. Qed.

Lemma read_only_level height : read_only (level height).
Proof.
  intros t. unfold level. destruct (_ || _); [done|].
  by destruct (index _ _).
Qed.

Lemma read_only_node_at l i : read_only (node_at l i).
Proof.
  intros t. unfold node_at. destruct (index l i) as [p|]; [|done].
  by destruct (deref (nodes t) p).
Qed.

Lemma read_only_root : read_only root.
Proof.
  intros t. unfold root. destruct (index (levels t) 0) as [l|]; [|done].
  by destruct (index l 0).
Qed.

Lemma read_only_scan rest d : forall k i, read_only (scan rest d k i).
Proof.
  induction rest as [|p rest IH]; intros k i t; simpl; [done|].
  destruct (deref (nodes t) p) as [nd|]; [|done].
  destruct (bytes_Equal (h nd) d); [done|]. apply IH.
Qed.

Lemma read_only_sibling_entry l i b : read_only (sibling_entry l i b).
Proof.
  unfold sibling_entry.
  destruct (_ =? 0); (apply read_only_bind; [apply read_only_node_at|]);
    intros nd; apply read_only_Ret.
Qed.

Lemma read_only_ComputeProof_loop fuel : forall i height b,
  read_only (ComputeProof_loop fuel i height b).
Proof.
  induction fuel as [|fuel IH]; intros i height b; [by intros t|].
  simpl. apply read_only_bind; [apply read_only_level|]. intros lv.
  destruct (len lv =? 1); [apply read_only_Ret|].
  apply read_only_bind; [apply read_only_sibling_entry|]. intros b'. apply IH.
Qed.

Lemma read_only_ComputeProof hash v : read_only (ComputeProof hash v).
Proof.
  intros t. unfold ComputeProof.
  set (m := bind _ _). assert (read_only m) as Hm; [|apply Hm].
  apply read_only_bind; [apply read_only_level|]. intros leaves.
  apply read_only_bind; [apply read_only_scan|]. intros i.
  destruct (i =? len leaves); [by intros s|].
  apply read_only_bind; [apply read_only_sibling_entry|]. intros b.
  apply read_only_bind; [apply read_only_ComputeProof_loop|]. intros b'.
  apply read_only_Ret.
Qed.

Lemma read_only_VerifyProof hash p : read_only (VerifyProof hash p).
Proof.
  intros t. unfold VerifyProof.
  destruct (VerifyProof_loop hash (br p) (ph p)) as [w|]; [|done].
  set (m := bind _ _). assert (read_only m) as Hm; [|apply Hm].
  apply read_only_bind; [apply read_only_root|]. intros r.
  apply read_only_bind; [|intros nd; apply read_only_Ret].
  intros s. by destruct (deref (nodes s) r).
Qed.


Lemma VerifyProof_loop_untagged hash b : forall w,
  Forall untagged b ->
  VerifyProof_loop hash b w = Some (Nat.iter (length b) hash w).
Proof.
  induction b as [|e b IH]; intros w Hb; [done|].
  apply Forall_cons in Hb as [He Hb]. cbn [VerifyProof_loop length].
  assert (VerifyProof_step hash w e = Some (hash w)) as ->.
  { destruct e as [[|c s]|]; simpl in *; [done| |done].
    destruct He as [H0 H1]. by rewrite !bool_decide_eq_false_2. }
  rewrite IH by done. f_equal. apply Nat.iter_swap.
Qed.

Lemma Empty_levels t : Empty t = true -> levels t = [].
Proof.
  unfold Empty, Height, len. intros He%Z.eqb_eq.
  destruct (levels t); [done|simpl in He; lia].
Qed.

(** ** The scan of the leaf level *)

(** The scan ends at the position [r] of the digest when no earlier
    position carries it. *)
Lemma scan_at t ps ds d r :
  holds_digests t ps ds -> index ds r = Some d ->
  (forall r', 0 <= r' < r -> index ds r' <> Some d) ->
  forall k i, scan (map Some ps) d k i t = Ret (k + r) t.
Proof.
  intros Hh. revert r.
  induction Hh as [|p x ps ds (nd & Hnd & Hx) Hh IH]; intros r Hr Hfirst k i.
  - apply index_lt in Hr. unfold len in Hr. simpl in Hr. lia.
  - pose proof (index_lt _ _ _ Hr) as Hlt.
    simpl. rewrite Hnd. unfold bytes_Equal. rewrite Hx. simpl.
    case_bool_decide as Heq.
    + destruct (decide (r = 0)) as [->|Hne]; [by rewrite Z.add_0_r|].
      destruct (Hfirst 0); [lia|]. by rewrite Heq.
    + assert (r <> 0) as Hne by (intros ->; by injection Hr).
      replace r with ((r - 1) + 1) in Hr by lia.
      rewrite index_cons_succ in Hr by lia.
      rewrite (IH (r - 1) Hr); [f_equal; lia|].
      intros r' Hr' Hidx. apply (Hfirst (r' + 1)); [lia|].
      by rewrite index_cons_succ by lia.
Qed.

(** Without the digest anywhere before the last position, the scan
    ends at the last position, whatever is there. *)
Lemma scan_last t ps ds x d :
  holds_digests t ps (ds ++ [x]) -> d ∉ ds ->
  forall k i, scan (map Some ps) d k i t = Ret (k + len ds) t.
Proof.
  revert ps. induction ds as [|y ds IH]; intros ps Hh Hnot k i.
  - apply Forall2_cons_inv_r in Hh as (p & ps' & (nd & Hnd & Hx) & Hnil & ->).
    apply Forall2_nil_inv_r in Hnil as ->.
    simpl. rewrite Hnd. unfold len. simpl. rewrite Z.add_0_r.
    by destruct (bytes_Equal (h nd) d).
  - apply Forall2_cons_inv_r in Hh as (p & ps' & (nd & Hnd & Hy) & Hh & ->).
    apply not_elem_of_cons in Hnot as [Hne Hnot].
    simpl. rewrite Hnd. unfold bytes_Equal. rewrite Hy. simpl.
    rewrite bool_decide_eq_false_2 by done.
    rewrite (IH ps' Hh Hnot). f_equal. unfold len. simpl. lia.
Qed.

Lemma path_length hash k : forall i ds, length (path hash k i ds) = k.
Proof. induction k as [|k IH]; intros i ds; simpl; [done|]. by rewrite IH. Qed.

Section RunAt.

Variable hash : bytes -> bytes.
Variable t : Tree.
Variable H : nat.
Variable D : nat -> list bytes.

Hypothesis Hlevels : length (levels t) = H.
Hypothesis Hmax : Height t < 2 ^ 63.
Hypothesis Hrow :
  forall j, (j < H)%nat ->
    exists ps, levels t !! j = Some (map Some ps) /\ holds_digests t ps (D j).
Hypothesis Hsize : forall j, (j < H)%nat -> len (D j) = 2 ^ Z.of_nat j.
Hypothesis Hstep :
  forall j, (S j < H)%nat -> D j = pair_digests hash (D (S j)).

(** [ComputeProof] returns the branch of the position its scan of the
    leaf level ends at. *)
Lemma ComputeProof_path_at v r :
  (2 <= H)%nat -> 0 <= r < 2 ^ Z.of_nat (H - 1) ->
  (forall ps, holds_digests t ps (D (H - 1)) ->
     scan (map Some ps) (hash v) 0 0 t = Ret r t) ->
  ComputeProof hash v t
  = Ret (NewProof (map encode (path hash (H - 1) r (D (H - 1)))) (hash v)) t.
Proof using All.
  intros HH Hr Hscan. unfold ComputeProof.
  destruct (level_row hash t H D Hlevels Hmax Hrow Hsize Hstep H ltac:(lia))
    as (ps & Hlv & Hd).
  assert (Height t = Z.of_nat H) as Hht by (unfold Height, len; lia).
  rewrite Hht. unfold bind at 1. rewrite Hlv.
  unfold bind at 1. rewrite (Hscan ps Hd).
  pose proof (Hsize (H - 1)%nat ltac:(lia)) as Hsz.
  assert (len (map Some ps) = len (D (H - 1))) as Hlen.
  { unfold len. by rewrite length_map, (Forall2_length _ _ _ Hd). }
  destruct (Z.eqb_spec r (len (map Some ps))) as [Heq|_]; [lia|].
  destruct (sibling_in_row hash t H D Hlevels Hmax Hrow Hsize Hstep (H - 1) r)
    as [d Hsib]; [lia..|].
  unfold bind at 1.
  rewrite (sibling_entry_digest t ps _ _ [] d Hd) by (done || lia).
  pose proof (ComputeProof_loop_path hash t H D Hlevels Hmax Hrow Hsize Hstep
                (S (Z.to_nat (Z.of_nat H))) (H - 1) r
                ([] ++ [encode (side r, d)]) ltac:(lia) ltac:(lia) ltac:(lia))
    as Hloop.
  replace (Z.of_nat (S (H - 1))) with (Z.of_nat H) in Hloop by lia.
  unfold bind. rewrite Hloop. do 2 f_equal.
  replace (H - 1)%nat with (S (H - 2)) at 3 by lia.
  cbn [path map app]. rewrite Hsib.
  replace (H - 1 - 1)%nat with (H - 2)%nat by lia.
  rewrite (Hstep (H - 2)) by lia.
  by replace (S (H - 2)) with (H - 1)%nat by lia.
Qed.

End RunAt.

Section PowerOfTwo.

Variable hash : bytes -> bytes.
Hypothesis hash_nonnil : forall x, hash x <> [].

(** The levels of the tree over [2 ^ (n + 1)] values: level [j] holds
    the [2 ^ j] digests that [n + 1 - j] rounds of pairing make of the
    digests of the values, and the node at the root holds the last
    one. *)
Lemma Construct_pow2_rows fuel vals (n : nat) d t :
  len vals = 2 ^ Z.of_nat (S n) -> len vals < 2 ^ 63 ->
  Construct hash fuel vals NewTree = Ret d t ->
  let D := level_digests hash vals (S n) in
  length (levels t) = S (S n)
  /\ Height t < 2 ^ 63
  /\ (forall j, (j < S (S n))%nat ->
        exists ps, levels t !! j = Some (map Some ps)
                   /\ holds_digests t ps (D j))
  /\ (forall j, (j < S (S n))%nat -> len (D j) = 2 ^ Z.of_nat j)
  /\ (forall j, (S j < S (S n))%nat -> D j = pair_digests hash (D (S j)))
  /\ exists nd rd, root_node t = Some nd /\ h nd = Some rd /\ D 0%nat = [rd].
Proof using hash_nonnil.
  intros Hlen Hmax Hrun. cbv zeta.
  set (D := level_digests hash vals (S n)).
  assert (vals <> []) as Hne.
  { intros ->. unfold len in Hlen. simpl in Hlen.
    pose proof (Z.pow_pos_nonneg 2 (Z.of_nat (S n))). lia. }
  destruct (Construct_shape hash fuel vals d t) as (Hwl & HH & Hm & Hc & Hl);
    [done..|].
  pose proof (Construct_digests hash hash_nonnil fuel vals d t Hne Hmax Hrun)
    as Hdig.
  assert (length (levels t) = S (S n)) as Hlv.
  { apply Nat2Z.inj. fold (len (levels t)). fold (Height t). rewrite HH, Hlen.
    unfold spec_height. rewrite Z.log2_up_pow2 by lia.
    destruct (Z.eqb_spec (2 ^ Z.of_nat (S n)) 1) as [Heq|_]; [|lia].
    rewrite Nat2Z.inj_succ, Z.pow_succ_r in Heq by lia.
    pose proof (Z.pow_pos_nonneg 2 (Z.of_nat n)). lia. }
  rewrite Hlv in Hdig.
  assert (len (map hash vals) = 2 ^ Z.of_nat (S n)) as HL.
  { unfold len in *. by rewrite length_map. }
  assert (forall j, (j < S (S n))%nat -> len (D j) = 2 ^ Z.of_nat j) as Hsize.
  { intros j Hj. apply iter_pair_digests_len.
    by replace (S n - j + j)%nat with (S n) by lia. }
  assert (forall j, (j < S (S n))%nat ->
            exists ps, levels t !! j = Some (map Some ps)
                       /\ holds_digests t ps (D j)) as Hrow.
  { intros j Hj. destruct (Hdig j Hj) as (ps & Hps & Hd).
    exists ps. split; [done|]. unfold D, level_digests.
    by replace (S n - j)%nat with (S (S n) - 1 - j)%nat by lia. }
  split_and!; try done.
  - intros j Hj. unfold D, level_digests.
    by replace (S n - j)%nat with (S (S n - S j)) by lia.
  - destruct (Hrow 0%nat ltac:(lia)) as (ps0 & Hps0 & Hd0).
    pose proof (Hsize 0%nat ltac:(lia)) as Hs0.
    unfold holds_digests in Hd0.
    destruct (D 0%nat) as [|rd ds0] eqn:Heq0; [discriminate Hs0|].
    apply Forall2_cons_inv_r in Hd0 as (p0 & ps0' & (nd & Hnd & Hrd) & Hds0 & ->).
    destruct ds0; [|unfold len in Hs0; simpl in Hs0; lia].
    exists nd, rd. split_and!; try done.
    unfold root_node, root. change 0 with (Z.of_nat 0).
    rewrite index_of_nat, Hps0. by simpl.
Qed.

End PowerOfTwo.

Lemma level_digests_leaves hash vals n :
  level_digests hash vals n n = map hash vals.
Proof. unfold level_digests. by rewrite Nat.sub_diag. Qed.

Lemma level_digests_root hash vals n :
  level_digests hash vals n 0 = Nat.iter n (pair_digests hash) (map hash vals).
Proof. unfold level_digests. by rewrite Nat.sub_0_r. Qed.

(** ** Parents and children between two levels *)

Lemma pair_trees_lookup a ts : forall i u,
  pair_trees a ts !! i = Some u ->
  match u with
  | ALeaf _ _ => False
  | AOne _ l => ts !! (2 * i)%nat = Some l /\ ts !! S (2 * i) = None
  | ATwo _ l r => ts !! (2 * i)%nat = Some l /\ ts !! S (2 * i) = Some r
  end.
Proof.
  revert a. induction ts as [ts IH] using (induction_ltof1 _ (@length _)).
  unfold ltof in IH. intros a i u. destruct ts as [|t1 [|t2 ts]]; simpl.
  - done.
  - destruct i; [|done]. by intros [= <-].
  - destruct i as [|i]; [by intros [= <-]|]. simpl. intros Hu.
    apply IH in Hu; [|simpl; lia].
    replace (i + S (i + 0))%nat with (S (2 * i)) by lia. exact Hu.
Qed.

Lemma pair_trees_child a ts : forall i c,
  ts !! i = Some c ->
  exists u,
    pair_trees a ts !! Nat.div2 i = Some u
    /\ match u with
       | ALeaf _ _ => False
       | AOne _ l => Nat.even i = true /\ l = c
       | ATwo _ l r => if Nat.even i then l = c else r = c
       end.
Proof.
  revert a. induction ts as [ts IH] using (induction_ltof1 _ (@length _)).
  unfold ltof in IH. intros a i c. destruct ts as [|t1 [|t2 ts]]; simpl.
  - done.
  - destruct i; [|done]. intros [= <-]. by eexists.
  - destruct i as [|[|i]].
    + intros [= <-]. by eexists.
    + intros [= <-]. by eexists.
    + simpl. intros Hc. by apply IH; [simpl; lia|].
Qed.

Section Links.

Variable hash : bytes -> bytes.

Lemma repr_children hp par u :
  repr hash true hp par u ->
  hp !! addr u = Some (node_of hash true par u)
  /\ match u with
     | ALeaf _ _ => True
     | AOne a l => hp !! addr l = Some (node_of hash true (Some a) l)
     | ATwo a l r =>
       hp !! addr l = Some (node_of hash true (Some a) l)
       /\ hp !! addr r = Some (node_of hash true (Some a) r)
     end.
Proof.
  destruct u as [a d|a l|a l r]; simpl.
  - by intros [? _].
  - intros [? Hl]. split; [done|]. by apply repr_root in Hl.
  - intros (? & Hl & Hr). split; [done|].
    split; by eapply repr_root.
Qed.

Hypothesis hash_nonnil : forall x, hash x <> [].

(** The rows of trees behind the levels of a constructed tree. *)
Lemma Construct_rows fuel vals d t :
  vals <> [] -> len vals < 2 ^ 63 ->
  Construct hash fuel vals NewTree = Ret d t ->
  exists rows troot,
    length rows = length (levels t) /\ stacked rows
    /\ rows !! 0%nat = Some [troot]
    /\ repr hash true (nodes t) None troot
    /\ rows !! (length rows - 1)%nat
       = Some (leaf_trees 0 (map (Sum hash) vals))
    /\ forall j row, rows !! j = Some row ->
         levels t !! j = Some (map ptr_of row)
         /\ hashed_row hash (nodes t) row.
Proof using hash_nonnil.
  intros Hne%len_nonempty Hmax. rewrite Construct_unfold by (done || lia).
  destruct (Construct_levels_spec hash vals NewTree ltac:(lia))
    as (t1 & troot & Hrun & HH & Hwl & H0 & Hrep & Hnd & Hin & Hls & Hd
        & rows & Hrl & Hst & Hr0 & Hrk & Hrows).
  assert (leaves_set troot) as Hlsr.
  { apply Hls. apply Forall_forall. intros x [v [-> _]]%list_elem_of_fmap.
    rewrite Sum_hash by done. eauto. }
  assert (forall b, b ∈ addrs troot -> Some (addr troot) = Some b ->
                    b = addr troot) as Hnd' by (by intros b _ [= ->]).
  destruct (hashing_subtree hash hash_nonnil troot (nodes t1) None
              (Some (addr troot)) Hin Hlsr Hnd Hrep Hnd')
    as (k & hp' & _ & _ & Hrep' & Hk).
  unfold bind. rewrite Hrun, (setHashes_run _ _ _ _ H0).
  destruct (hashing_loop hash fuel _ _ _) as [d1 hp1| | |] eqn:E; try done.
  intros [= <- <-]. cbn [levels nodes].
  apply (hashing_loop_mono hash _ (S k)) in E; [|done].
  replace (fuel + S k)%nat with (S k + fuel)%nat in E by lia.
  rewrite Hk, bool_decide_eq_true_2 in E by done. injection E as _ <-.
  assert (forall j row, rows !! j = Some row -> hashed_row hash hp' row) as Hrows'.
  { induction j as [|j IH]; intros row Hrow.
    - rewrite Hr0 in Hrow. injection Hrow as <-. apply Forall_singleton. eauto.
    - destruct (lookup_lt_is_Some_2 rows j) as [upper Hup].
      { apply lookup_lt_Some in Hrow. lia. }
      destruct (Hst j upper row Hup Hrow) as [a ->].
      eapply pair_trees_kids, IH, Hup. }
  exists rows, troot. split_and!; try done.
  intros j row Hrow. split; [by apply Hrows|by eapply Hrows'].
Qed.

End Links.

(** ** One level of parents over arbitrary nodes *)

Lemma seq_slot a0 i n e :
  index (map Some (seq a0 i) ++ replicate (S n) None) (Z.of_nat i)
    = Some (@None ptr)
  /\ <[Z.to_nat (Z.of_nat i) := Some e]>
       (map Some (seq a0 i) ++ replicate (S n) None)
     = map Some (seq a0 i) ++ Some e :: replicate n None.
Proof.
  rewrite index_of_nat, Nat2Z.id. simpl replicate.
  assert (length (map (@Some ptr) (seq a0 i)) = i) as Hi
    by (by rewrite length_map, length_seq).
  revert Hi. generalize (map (@Some ptr) (seq a0 i)). intros l <-. split.
  - by apply list_lookup_middle.
  - apply insert_middle.
Qed.

Lemma half_bound n i : (i < half n)%nat -> (2 * i < n)%nat.
Proof. unfold half. intros Hi. lia_div. Qed.

Lemma half_cover n j : (j < n)%nat -> (Nat.div2 j < half n)%nat.
Proof. unfold half. rewrite Nat.div2_div. intros Hj. lia_div. Qed.

Section Round.

Variable cs : list ptr.
Variable a0 : nat.
Hypothesis cs_NoDup : NoDup cs.
Hypothesis cs_valid : Forall (fun c => (c < a0)%nat) cs.

Lemma constructLevel_loop_raw : forall n i hp,
  (i + n)%nat = half (length cs) -> length hp = (a0 + i)%nat ->
  exists hp',
    constructLevel_loop n (Z.of_nat i) (map Some cs)
      (map Some (seq a0 i) ++ replicate n None) hp
    = Ret (map Some (seq a0 (i + n))) hp'
    /\ length hp' = (a0 + i + n)%nat
    /\ (forall j c, cs !! j = Some c -> (2 * i <= j)%nat ->
          hp' !! c = set_parent (Some (a0 + Nat.div2 j)%nat) <$> hp !! c)
    /\ (forall b, (b < a0 + i)%nat ->
          (forall j, (2 * i <= j)%nat -> cs !! j <> Some b) ->
          hp' !! b = hp !! b)
    /\ (forall k, (i <= k < i + n)%nat ->
          hp' !! (a0 + k)%nat
          = Some (mkNode None None (cs !! (2 * k)%nat) (cs !! S (2 * k)))).
Proof using cs_NoDup cs_valid.
  induction n as [|n IH]; intros i hp Him Hlen.
  - exists hp. simpl. rewrite app_nil_r, !Nat.add_0_r.
    split_and!; try done; [|intros k Hk; lia].
    intros j c Hc%lookup_lt_Some Hj. exfalso.
    rewrite Nat.add_0_r in Him. unfold half in Him. lia_div.
  - assert (2 * i < length cs)%nat as H2i by (apply half_bound; lia).
    destruct (lookup_lt_is_Some_2 cs (2 * i) H2i) as [cl Hcl].
    assert (cl < a0)%nat as Hcla
      by (by eapply (proj1 (Forall_lookup _ _) cs_valid)).
    destruct (lookup_lt_is_Some_2 hp cl ltac:(lia)) as [Ncl HNcl].
    set (a := length hp).
    rewrite constructLevel_loop_S.
    replace (2 * Z.of_nat i) with (Z.of_nat (2 * i)) by lia.
    replace (Z.of_nat (2 * i) + 1) with (Z.of_nat (S (2 * i))) by lia.
    rewrite !index_of_nat, !list_lookup_fmap, Hcl. simpl fmap. cbv iota beta.
    rewrite bind_update with (N := mkNode None None None None)
      by (by apply list_lookup_middle).
    rewrite insert_middle with (l1 := hp) (l2 := []).
    change (set_left (Some cl) (mkNode None None None None))
      with (mkNode None None (Some cl) None).
    rewrite bind_update with (N := Ncl)
      by (by rewrite lookup_app_l by (by eapply lookup_lt_Some)).
    set (hp3 := <[cl := set_parent (Some (length hp)) Ncl]>
                  (hp ++ [mkNode None None (Some cl) None])).
    assert (length hp3 = S (length hp)) as Hl3.
    { unfold hp3. rewrite length_insert, length_app. simpl. lia. }
    assert (hp3 !! a = Some (mkNode None None (Some cl) None)) as H3a.
    { unfold hp3. rewrite list_lookup_insert_ne by (unfold a; lia).
      by apply list_lookup_middle. }
    assert (hp3 !! cl = Some (set_parent (Some a) Ncl)) as H3cl.
    { unfold hp3. apply list_lookup_insert_eq. rewrite length_app. simpl.
      apply lookup_lt_Some in HNcl. lia. }
    assert (forall b, (b < a)%nat -> b <> cl -> hp3 !! b = hp !! b) as H3o.
    { intros b Hb Hne. unfold hp3. rewrite list_lookup_insert_ne by done.
      by rewrite lookup_app_l. }
    destruct (seq_slot a0 i n (length hp)) as [Hslot Hins].
    rewrite index_of_nat in Hslot.
    assert (exists hp5,
      (forall (k : unit -> M Heap Level),
         bind (if Z.of_nat (S (2 * i)) <? len (map Some cs) then
                 match Some <$> cs !! S (2 * i) with
                 | None => fun _ => Crash IndexOutOfRange
                 | Some nr =>
                   do _ <- update (Some (length hp)) (set_right nr);
                   update nr (set_parent (Some (length hp)))
                 end
               else Ret tt) k hp3 = k tt hp5)
      /\ length hp5 = S (length hp)
      /\ hp5 !! a = Some (mkNode None None (Some cl) (cs !! S (2 * i)))
      /\ hp5 !! cl = Some (set_parent (Some a) Ncl)
      /\ (forall cr, cs !! S (2 * i) = Some cr ->
            hp5 !! cr = set_parent (Some a) <$> hp !! cr)
      /\ (forall b, (b < a)%nat -> b <> cl -> cs !! S (2 * i) <> Some b ->
            hp5 !! b = hp !! b)) as (hp5 & Hrun5 & Hl5 & H5a & H5cl & H5cr & H5o).
    { destruct (cs !! S (2 * i)) as [cr|] eqn:Hcr.
      - assert (cr < a0)%nat as Hcra
          by (by eapply (proj1 (Forall_lookup _ _) cs_valid)).
        assert (cr <> cl) as Hne.
        { intros ->. pose proof (NoDup_lookup _ _ _ _ cs_NoDup Hcl Hcr). lia. }
        destruct (lookup_lt_is_Some_2 hp cr ltac:(lia)) as [Ncr HNcr].
        exists (<[cr := set_parent (Some a) Ncr]>
                  (<[a := mkNode None None (Some cl) (Some cr)]> hp3)).
        split_and!.
        + intros k.
          destruct (Z.ltb_spec (Z.of_nat (S (2 * i))) (len (map Some cs)))
            as [_|Hge].
          2:{ apply lookup_lt_Some in Hcr. unfold len in Hge.
              rewrite length_map in Hge. lia. }
          simpl fmap. cbv iota beta. rewrite bind_bind.
          rewrite bind_update with (N := mkNode None None (Some cl) None)
            by done.
          rewrite bind_update with (N := Ncr); [done|].
          rewrite list_lookup_insert_ne by (unfold a; lia).
          by rewrite H3o by (unfold a; lia || done).
        + by rewrite !length_insert.
        + rewrite list_lookup_insert_ne by (unfold a; lia).
          apply list_lookup_insert_eq. fold a. lia.
        + rewrite list_lookup_insert_ne by done.
          by rewrite list_lookup_insert_ne by (unfold a; lia).
        + intros cr' [= <-]. rewrite HNcr. simpl.
          apply list_lookup_insert_eq. rewrite length_insert. lia.
        + intros b Hb Hbl Hbr.
          rewrite list_lookup_insert_ne by congruence.
          rewrite list_lookup_insert_ne by lia. by apply H3o.
      - exists hp3. split_and!; try done.
        + intros k.
          destruct (Z.ltb_spec (Z.of_nat (S (2 * i))) (len (map Some cs)))
            as [Hlt|_]; [|done].
          apply lookup_ge_None in Hcr. unfold len in Hlt.
          rewrite length_map in Hlt. lia.
        + intros b Hb Hbl _. by apply H3o.
    }
    rewrite Hrun5, Hslot, Hins.
    replace (map Some (seq a0 i) ++ Some (length hp) :: replicate n None)
      with (map Some (seq a0 (S i)) ++ replicate n (@None ptr)).
    2:{ rewrite seq_S, map_app, <- app_assoc. simpl. by rewrite Hlen. }
    replace (Z.of_nat i + 1) with (Z.of_nat (S i)) by lia.
    destruct (IH (S i) hp5 ltac:(lia) ltac:(lia))
      as (hp' & Hrun & Hl' & Hkids & Hothers & Hnew).
    exists hp'. replace (i + S n)%nat with (S i + n)%nat by lia.
    split_and!; [exact Hrun|lia| | |].
    + intros j c Hc Hj.
      assert (c < a0)%nat as Hca
        by (by eapply (proj1 (Forall_lookup _ _) cs_valid)).
      destruct (decide (j = (2 * i)%nat)) as [->|Hj1].
      { assert (c = cl) as -> by congruence.
        rewrite Hothers, H5cl, HNcl; [|lia|].
        - simpl. do 3 f_equal. unfold a.
          rewrite Nat.div2_div. lia_div.
        - intros j' Hj' Hc'.
          pose proof (NoDup_lookup _ _ _ _ cs_NoDup Hcl Hc'). lia. }
      destruct (decide (j = S (2 * i))) as [->|Hj2].
      { rewrite Hothers, (H5cr c Hc); [|lia|].
        - do 3 f_equal. unfold a. rewrite Nat.div2_div. lia_div.
        - intros j' Hj' Hc'.
          pose proof (NoDup_lookup _ _ _ _ cs_NoDup Hc Hc'). lia. }
      rewrite (Hkids j c Hc) by lia. f_equal. apply H5o; [unfold a; lia| |].
      * intros ->. pose proof (NoDup_lookup _ _ _ _ cs_NoDup Hcl Hc). lia.
      * intros Hc'. pose proof (NoDup_lookup _ _ _ _ cs_NoDup Hc Hc'). lia.
    + intros b Hb Hnot. rewrite Hothers; [|lia|].
      * apply H5o; [unfold a; lia| |].
        -- intros ->. by apply (Hnot (2 * i)%nat).
        -- apply Hnot. lia.
      * intros j Hj. apply Hnot. lia.
    + intros k Hk. destruct (decide (k = i)) as [->|Hne].
      * rewrite Hothers; [|lia|].
        -- rewrite <- Hlen. fold a. by rewrite H5a, Hcl.
        -- intros j _ Hc.
           pose proof (proj1 (Forall_lookup _ _) cs_valid j _ Hc) as Hv.
           simpl in Hv. lia.
      * apply Hnew. lia.
Qed.

End Round.

(** * The stated properties *)

Lemma toy_hash_nonnil x : toy_hash x <> [].
Proof. discriminate. Defined.

Lemma toy_hash_inj x y : toy_hash x = toy_hash y -> x = y.
Proof. by intros [= ->]. Defined.

(** C1.  For every non-empty list of values, [Construct] on a fresh
    tree returns the reference Merkle root of the values: the leaves
    carry the digests of the values in input order, two digests side by
    side are combined into the digest of the left one followed by the
    right one, and a digest without a right neighbour is hashed alone.
    The call succeeds whenever the fuel covers the walk of [hashing],
    and whatever digest a successful call returns is that root. *)
Theorem Construct_returns_merkle_root (hash : bytes -> bytes)
    (vals : list bytes) :
  (forall x, hash x <> []) -> vals <> [] -> len vals < 2 ^ 63 ->
  is_Some (merkle_root hash vals)
  /\ (exists k, forall fuel, exists t',
        Construct hash (S k + fuel) vals NewTree
        = Ret (merkle_root hash vals) t')
  /\ (forall fuel d t',
        Construct hash fuel vals NewTree = Ret d t' ->
        d = merkle_root hash vals).
Proof.
  intros Hnn Hne%len_nonempty Hmax.
  destruct (Construct_succeeds hash Hnn vals NewTree) as (Hsome & k & Hk);
    [done|lia|].
  split; [done|]. split; [by exists k|].
  intros fuel d t' Hrun.
  apply (Construct_mono hash fuel (S k)) in Hrun; [|done|lia].
  destruct (Hk fuel) as [t'' Hk'].
  replace (fuel + S k)%nat with (S k + fuel)%nat in Hrun by lia.
  congruence.
Qed.

Lemma Construct_returns_merkle_root_witness :
  ((forall x, toy_hash x <> []) /\ vals8 <> [] /\ len vals8 < 2 ^ 63)
  /\ is_Some (merkle_root toy_hash vals8)
  /\ (exists k, forall fuel, exists t',
        Construct toy_hash (S k + fuel) vals8 NewTree
        = Ret (merkle_root toy_hash vals8) t')
  /\ (forall fuel d t',
        Construct toy_hash fuel vals8 NewTree = Ret d t' ->
        d = merkle_root toy_hash vals8).
Proof.
  split.
  - split; [exact toy_hash_nonnil|]. split; [discriminate|reflexivity].
  - apply (Construct_returns_merkle_root toy_hash vals8).
    + exact toy_hash_nonnil.
    + discriminate.
    + reflexivity.
Defined.

Example Construct_vals8 :
  Construct toy_hash 36 vals8 NewTree
  = Ret (merkle_root toy_hash vals8) (built vals8).
Proof. vm_compute. reflexivity. Qed.

(** C5.  A tree constructed from [count] values has height 2 when
    [count] is 1 and [ceil(log2 count) + 1] otherwise, so height 4 for
    8 leaves and for 5 leaves alike; a fresh tree has height 0. *)
Theorem Height_formula (hash : bytes -> bytes) (fuel : nat)
    (vals : list bytes) (d : option bytes) (t : Tree) :
  vals <> [] -> len vals < 2 ^ 63 ->
  Construct hash fuel vals NewTree = Ret d t ->
  Height t = (if len vals =? 1 then 2 else Z.log2_up (len vals) + 1)
  /\ (len vals = 8 \/ len vals = 5 -> Height t = 4)
  /\ Height NewTree = 0.
Proof.
  intros Hne%len_nonempty Hmax Hrun.
  destruct (Construct_inv hash fuel vals NewTree d t) as [HH _];
    [done|lia|done|].
  split; [exact HH|]. split; [|done].
  rewrite HH. by intros [-> | ->].
Qed.

Lemma Height_formula_witness :
  (vals8 <> [] /\ len vals8 < 2 ^ 63
   /\ Construct toy_hash 36 vals8 NewTree
      = Ret (built_root vals8) (built vals8))
  /\ Height (built vals8)
     = (if len vals8 =? 1 then 2 else Z.log2_up (len vals8) + 1)
  /\ (len vals8 = 8 \/ len vals8 = 5 -> Height (built vals8) = 4)
  /\ Height NewTree = 0.
Proof.
  assert (Construct toy_hash 36 vals8 NewTree
          = Ret (built_root vals8) (built vals8)) as Hrun
    by (vm_compute; reflexivity).
  split.
  - split; [discriminate|]. split; [reflexivity|exact Hrun].
  - apply (Height_formula toy_hash 36 vals8 (built_root vals8) (built vals8)).
    + discriminate.
    + reflexivity.
    + exact Hrun.
Defined.

Example Height_five :
  Height (built (take 5 vals8)) = 4 /\ calcTreeHeight 5 = Some 4
  /\ calcTreeHeight 8 = Some 4 /\ calcTreeHeight 1 = Some 2.
Proof. vm_compute. auto. Qed.

(** C6.  [Construct] on a tree that is not empty fails with the error
    "Tree is not empty", and [Construct] of no values on an empty tree
    fails with the error "No vals"; neither call returns a digest. *)
Theorem Construct_guards (hash : bytes -> bytes) (fuel : nat)
    (vals : list bytes) (t : Tree) :
  (Empty t = false -> Construct hash fuel vals t = Err ErrTreeNotEmpty t)
  /\ (Empty t = true -> Construct hash fuel [] t = Err ErrNoVals t).
Proof.
  unfold Construct. split; intros ->; done.
Qed.

Lemma Construct_guards_witness :
  (Empty (built vals8) = false
   /\ Construct toy_hash 36 vals8 (built vals8)
      = Err ErrTreeNotEmpty (built vals8))
  /\ (Empty NewTree = true
      /\ Construct toy_hash 36 [] NewTree = Err ErrNoVals NewTree).
Proof.
  destruct (Construct_guards toy_hash 36 vals8 (built vals8)) as [H1 _].
  destruct (Construct_guards toy_hash 36 vals8 NewTree) as [_ H2].
  split; (split; [reflexivity|]).
  - apply H1. reflexivity.
  - apply H2. reflexivity.
Defined.

(** C10.  When [Construct] fails because the tree is not empty or
    because there are no values, the tree is exactly as before the
    call: its height, its emptiness, its levels and its nodes. *)
Theorem Construct_guard_keeps_tree (hash : bytes -> bytes) (fuel : nat)
    (vals : list bytes) (t t' : Tree) (e : error) :
  Construct hash fuel vals t = Err e t' ->
  e = ErrTreeNotEmpty \/ e = ErrNoVals ->
  t' = t /\ Height t' = Height t /\ Empty t' = Empty t
  /\ levels t' = levels t /\ nodes t' = nodes t.
Proof.
  intros Hrun He. assert (t' = t) as ->; [|done].
  unfold Construct in Hrun.
  destruct (Empty t); simpl in Hrun; [|congruence].
  destruct (len vals =? 0); [congruence|].
  destruct (calcTreeHeight (len vals)) as [height|]; [|discriminate].
  assert (ErrLeafNoValue = e); [|destruct He; congruence].
  revert Hrun. generalize (mkTree (nodes t) (replicate (Z.to_nat height) [])).
  intros t0 Hrun. revert Hrun.
  apply errs_in_bind; [apply errs_in_store_level|]. intros _.
  apply errs_in_bind; [apply errs_in_fill_leaves|]. intros _.
  apply errs_in_bind; [apply errs_in_build_levels|]. intros _.
  apply errs_in_setHashes.
Qed.

Lemma Construct_guard_keeps_tree_witness :
  (Construct toy_hash 36 vals8 (built vals8)
   = Err ErrTreeNotEmpty (built vals8)
   /\ (ErrTreeNotEmpty = ErrTreeNotEmpty \/ ErrTreeNotEmpty = ErrNoVals))
  /\ built vals8 = built vals8
  /\ Height (built vals8) = Height (built vals8)
  /\ Empty (built vals8) = Empty (built vals8)
  /\ levels (built vals8) = levels (built vals8)
  /\ nodes (built vals8) = nodes (built vals8).
Proof.
  assert (Construct toy_hash 36 vals8 (built vals8)
          = Err ErrTreeNotEmpty (built vals8)) as Hrun by reflexivity.
  split.
  - split; [exact Hrun|]. left. reflexivity.
  - apply (Construct_guard_keeps_tree toy_hash 36 vals8 (built vals8)
             (built vals8) ErrTreeNotEmpty Hrun).
    left. reflexivity.
Defined.

(** C7.  [level] does not fail with "Height out of range" for every
    height outside [[1, Height()]]: at [Height() + 1] the guard lets
    the call through and the indexing panics. *)
Theorem level_above_height_panics (t : Tree) :
  Height t < 2 ^ 63 ->
  level (Height t + 1) t = Crash IndexOutOfRange.
Proof.
  intros Hmax. pose proof (Height_nonneg t) as H0. unfold level.
  replace (Height t + 1 - 1) with (Height t) by lia.
  rewrite wrap64_small by lia.
  destruct (Z.ltb_spec (Height t) 0); [lia|].
  destruct (Z.gtb_spec (Height t) (Height t)); [lia|]. simpl.
  unfold Height. by rewrite index_len.
Qed.

Lemma level_above_height_panics_witness :
  Height (built vals8) < 2 ^ 63
  /\ level (Height (built vals8) + 1) (built vals8) = Crash IndexOutOfRange.
Proof.
  split; [reflexivity|].
  apply (level_above_height_panics (built vals8)). reflexivity.
Defined.

Example level_of_fresh_tree : level 1 NewTree = Crash IndexOutOfRange.
Proof. reflexivity. Qed.

(** C4.  [VerifyProof] returns a verdict and no error.  Over a branch
    of direction-tagged sibling digests it folds the working digest,
    entry by entry: [hash (sibling ++ working)] for LEFT and
    [hash (working ++ sibling)] for RIGHT; the verdict is whether the
    digest reached equals the root digest byte for byte. *)
Theorem VerifyProof_folds (hash : bytes -> bytes) (t : Tree) (nd : Node)
    (b : list (direction * bytes)) (w : bytes) :
  root_node t = Some nd ->
  VerifyProof hash (NewProof (map encode b) w) t
  = Ret (bool_decide (default [] (h nd) = replay hash b w),
         NewProof (map encode b) (replay hash b w)) t
  /\ replay hash b w = fold_left (combine hash) b w
  /\ (forall s x, combine hash x (LEFT, s) = hash (s ++ x)
                  /\ combine hash x (RIGHT, s) = hash (x ++ s)).
Proof.
  intros Hroot. split; [|done].
  by apply VerifyProof_root; [apply VerifyProof_loop_encode|].
Qed.

Lemma VerifyProof_folds_witness :
  let nd := mkNode (built_root vals8) None (Some 12%nat) (Some 13%nat) in
  let b := [(RIGHT, toy_hash ["b"%byte])] in
  let w := toy_hash ["a"%byte] in
  root_node (built vals8) = Some nd
  /\ VerifyProof toy_hash (NewProof (map encode b) w) (built vals8)
     = Ret (bool_decide (default [] (h nd) = replay toy_hash b w),
            NewProof (map encode b) (replay toy_hash b w)) (built vals8).
Proof.
  intros nd b w.
  assert (root_node (built vals8) = Some nd) as Hroot
    by (vm_compute; reflexivity).
  split; [exact Hroot|].
  exact (proj1 (VerifyProof_folds toy_hash (built vals8) nd b w Hroot)).
Defined.

(** C8.  [VerifyProof] leaves the digest it reached in the proof, and
    a second call starts from that digest.  As the claim has it, for
    every proof with a branch, the second call need not return false:
    an engine that maps the root digest back to itself along the branch
    makes it return true again, as the constant engine does below.
    What holds: when the first call on a proof returns true, the proof
    afterwards holds the root digest as its working digest; and when
    the proof did not start from the root digest and the engine shows
    no collision between what the first run and what the second run
    write to it, the second call returns false. *)
Theorem VerifyProof_single_use (hash : bytes -> bytes) (t : Tree) (nd : Node)
    (p p1 : Proof) :
  root_node t = Some nd ->
  ph p <> default [] (h nd) ->
  no_collision hash (VerifyProof_inputs hash (br p) (ph p))
    (VerifyProof_inputs hash (br p) (default [] (h nd))) ->
  VerifyProof hash p t = Ret (true, p1) t ->
  br p <> []
  /\ br p1 = br p
  /\ VerifyProof_loop hash (br p) (ph p) = Some (ph p1)
  /\ ph p1 = default [] (h nd)
  /\ exists p2,
       VerifyProof hash p1 t = Ret (false, p2) t
       /\ VerifyProof_loop hash (br p) (ph p1) = Some (ph p2).
Proof.
  intros Hroot Hne Hnc Hrun.
  apply VerifyProof_inv in Hrun as (nd' & Hroot' & _ & Hbr & Hloop & Heq).
  assert (nd' = nd) as -> by congruence.
  symmetry in Heq. apply bool_decide_eq_true in Heq.
  split; [|split; [done|split; [done|split; [done|]]]].
  { intros Hnil. rewrite Hnil in Hloop. simpl in Hloop. congruence. }
  destruct (VerifyProof_loop_defined hash (br p) (ph p) (ph p1)) as [w2 Hw2];
    [by rewrite Hloop|].
  exists (NewProof (br p1) w2). split; [|done].
  rewrite (VerifyProof_root hash t p1 w2 nd) by (by rewrite ?Hbr).
  do 2 f_equal. unfold bytes_Equal. apply bool_decide_eq_false.
  intros Hw. apply Hne. rewrite Heq.
  eapply (VerifyProof_loop_inj_on hash (br p)); [|exact Hloop|].
  - by rewrite <- Heq.
  - rewrite Hw2. f_equal. congruence.
Qed.

Lemma VerifyProof_single_use_witness :
  let t := built (take 2 vals8) in
  let nd := mkNode (built_root (take 2 vals8)) None (Some 0%nat) (Some 1%nat) in
  let p := NewProof [Some (x01 :: toy_hash ["b"%byte])] (toy_hash ["a"%byte]) in
  let p1 := NewProof (br p) (default [] (h nd)) in
  (root_node t = Some nd
   /\ ph p <> default [] (h nd)
   /\ no_collision toy_hash (VerifyProof_inputs toy_hash (br p) (ph p))
        (VerifyProof_inputs toy_hash (br p) (default [] (h nd)))
   /\ VerifyProof toy_hash p t = Ret (true, p1) t)
  /\ br p <> []
  /\ br p1 = br p
  /\ VerifyProof_loop toy_hash (br p) (ph p) = Some (ph p1)
  /\ ph p1 = default [] (h nd)
  /\ exists p2,
       VerifyProof toy_hash p1 t = Ret (false, p2) t
       /\ VerifyProof_loop toy_hash (br p) (ph p1) = Some (ph p2).
Proof.
  intros t nd p p1.
  assert (root_node t = Some nd) as Hnd by (vm_compute; reflexivity).
  assert (VerifyProof toy_hash p t = Ret (true, p1) t) as Hp1
    by (vm_compute; reflexivity).
  assert (ph p <> default [] (h nd)) as Hne
    by (intros Heq; vm_compute in Heq; discriminate Heq).
  assert (no_collision toy_hash (VerifyProof_inputs toy_hash (br p) (ph p))
            (VerifyProof_inputs toy_hash (br p) (default [] (h nd)))) as Hnc
    by (intros x y _ _; apply toy_hash_inj).
  split.
  - split; [exact Hnd|]. split; [exact Hne|]. split; [exact Hnc|exact Hp1].
  - exact (VerifyProof_single_use toy_hash t nd p p1 Hnd Hne Hnc Hp1).
Defined.

(** With the engine [const_hash], [Construct] of the values ["a"] and
    ["b"] succeeds, [ComputeProof] of ["a"] returns a proof with a
    branch of one entry, [VerifyProof] accepts it, and [VerifyProof] on
    the proof as the first call left it accepts it again: no second
    call returns false. *)
Lemma VerifyProof_replay_accepted :
  let t := const_tree in
  let p := NewProof [Some [x01; "#"%byte]] ["#"%byte] in
  let p1 := NewProof (br p) ["#"%byte] in
  Construct const_hash 12 (take 2 vals8) NewTree = Ret (Some ["#"%byte]) t
  /\ ComputeProof const_hash ["a"%byte] t = Ret p t
  /\ br p <> []
  /\ VerifyProof const_hash p t = Ret (true, p1) t
  /\ VerifyProof const_hash p1 t = Ret (true, p1) t
  /\ ~ (exists p2, VerifyProof const_hash p1 t = Ret (false, p2) t).
Proof.
  intros t p p1.
  assert (VerifyProof const_hash p1 t = Ret (true, p1) t) as H2
    by (vm_compute; reflexivity).
  split_and!; try (vm_compute; reflexivity); try done.
  intros [p2 Hp2]. rewrite H2 in Hp2. discriminate Hp2.
Qed.

Example VerifyProof_twice :
  match ComputeProof toy_hash ["h"%byte] (built vals8) with
  | Ret p t =>
    match VerifyProof toy_hash p t with
    | Ret (v1, p1) t =>
      match VerifyProof toy_hash p1 t with
      | Ret (v2, _) _ => v1 = true /\ v2 = false
      | _ => False
      end
    | _ => False
    end
  | _ => False
  end.
Proof. vm_compute. auto. Qed.

(** C2.  The round trip does not hold for every non-empty sequence of
    distinct values: on the tree over a single value [ComputeProof]
    panics with an index out of range, for the value itself as for any
    other, before any proof exists to verify. *)
Theorem ComputeProof_single_value_panics (hash : bytes -> bytes) (fuel : nat)
    (v v' : bytes) (d : option bytes) (t : Tree) :
  Construct hash fuel [v] NewTree = Ret d t ->
  ComputeProof hash v t = Crash IndexOutOfRange
  /\ ComputeProof hash v' t = Crash IndexOutOfRange.
Proof.
  intros Hrun.
  destruct (Construct_shape hash fuel [v] d t) as (Hwl & HH & Hmax & Hc & Hl);
    [done|reflexivity|done|].
  assert (forall x, ComputeProof hash x t = Crash IndexOutOfRange) as Hall;
    [|by split].
  intros x.
  destruct (ComputeProof_unfold hash x t 1 Hwl) as
    (ps & r & Hlen & _ & Hr & _ & ->); [lia..|done|].
  assert (r = 0) as -> by lia.
  unfold bind. rewrite sibling_entry_outside; [done|].
  unfold len. rewrite length_map, Hlen. done.
Qed.

Lemma ComputeProof_single_value_panics_witness :
  Construct toy_hash 8 [["a"%byte]] NewTree
  = Ret (built_root [["a"%byte]]) (built [["a"%byte]])
  /\ ComputeProof toy_hash ["a"%byte] (built [["a"%byte]])
     = Crash IndexOutOfRange
  /\ ComputeProof toy_hash ["z"%byte] (built [["a"%byte]])
     = Crash IndexOutOfRange.
Proof.
  assert (Construct toy_hash 8 [["a"%byte]] NewTree
          = Ret (built_root [["a"%byte]]) (built [["a"%byte]])) as Hrun
    by (vm_compute; reflexivity).
  split; [exact Hrun|].
  exact (ComputeProof_single_value_panics toy_hash 8 ["a"%byte] ["z"%byte]
           _ _ Hrun).
Defined.

Example ComputeProof_third_of_three :
  ComputeProof toy_hash ["c"%byte] (built (take 3 vals8))
  = Crash IndexOutOfRange.
Proof. vm_compute. reflexivity. Qed.

(** C3.  [ComputeProof] on a constructed tree never fails with
    "Val not found": the scan of the leaf level ends with the last
    index, not with the length of the level, so for a value that has
    no leaf the function goes on with the last leaf. *)
Theorem ComputeProof_never_not_found (hash : bytes -> bytes) (fuel : nat)
    (vals : list bytes) (d : option bytes) (t t' : Tree) (v : bytes) :
  vals <> [] -> len vals < 2 ^ 63 ->
  Construct hash fuel vals NewTree = Ret d t ->
  ComputeProof hash v t <> Err ErrValNotFound t'.
Proof.
  intros Hne Hmax Hrun Herr.
  destruct (Construct_shape hash fuel vals d t) as (Hwl & HH & Hm & Hc & Hl);
    [done..|].
  apply (ComputeProof_errs hash v t (length vals)) in Herr;
    [discriminate|done|done|lia|done].
Qed.

Lemma ComputeProof_never_not_found_witness :
  (take 2 vals8 <> [] /\ len (take 2 vals8) < 2 ^ 63
   /\ Construct toy_hash 12 (take 2 vals8) NewTree
      = Ret (built_root (take 2 vals8)) (built (take 2 vals8)))
  /\ ComputeProof toy_hash ["z"%byte] (built (take 2 vals8))
     <> Err ErrValNotFound (built (take 2 vals8)).
Proof.
  assert (Construct toy_hash 12 (take 2 vals8) NewTree
          = Ret (built_root (take 2 vals8)) (built (take 2 vals8))) as Hrun
    by (vm_compute; reflexivity).
  assert (take 2 vals8 <> []) as Hne by discriminate.
  assert (len (take 2 vals8) < 2 ^ 63) as Hmax by reflexivity.
  split; [by split|].
  exact (ComputeProof_never_not_found toy_hash 12 (take 2 vals8) _ _ _
           ["z"%byte] Hne Hmax Hrun).
Defined.

(** The value ["z"] has no leaf in the tree over ["a"] and ["b"];
    [ComputeProof] returns a proof all the same, built for the last
    leaf, and the proof does not verify. *)
Example ComputeProof_absent_value :
  ComputeProof toy_hash ["z"%byte] (built (take 2 vals8))
  = Ret (NewProof [Some (x00 :: toy_hash ["a"%byte])] (toy_hash ["z"%byte]))
      (built (take 2 vals8))
  /\ forall p t, ComputeProof toy_hash ["z"%byte] (built (take 2 vals8))
                 = Ret p t ->
       exists p', VerifyProof toy_hash p t = Ret (false, p') t.
Proof.
  split; [vm_compute; reflexivity|].
  intros p t Hrun. vm_compute in Hrun. injection Hrun as <- <-.
  eexists. vm_compute. reflexivity.
Qed.

(** C9.  In a tree constructed from [2 ^ k] values, [k >= 1], every
    level below the root has even size, and [ComputeProof] returns a
    proof for every value, in the tree or not: no sibling index
    [i XOR 1] it consults leaves its level.  For three values, by
    contrast, the last index of the leaf level has its [i XOR 1]
    outside the level. *)
Theorem ComputeProof_safe_on_power_of_two (hash : bytes -> bytes)
    (fuel : nat) (vals : list bytes) (k : Z) (d : option bytes) (t : Tree) :
  1 <= k -> len vals = 2 ^ k -> len vals < 2 ^ 63 ->
  Construct hash fuel vals NewTree = Ret d t ->
  (forall j lv, 1 <= j < Height t -> index (levels t) j = Some lv ->
     Z.even (len lv) = true)
  /\ (forall v, exists p, ComputeProof hash v t = Ret p t)
  /\ (forall vals3 fuel3 d3 t3,
        len vals3 = 3 ->
        Construct hash fuel3 vals3 NewTree = Ret d3 t3 ->
        exists leaves,
          level (Height t3) t3 = Ret leaves t3
          /\ len leaves = 3
          /\ index leaves (Z.lxor (len leaves - 1) 1) = None).
Proof.
  intros Hk Hlen Hmax Hrun.
  assert (vals <> []) as Hne.
  { intros ->. unfold len in Hlen. simpl in Hlen.
    pose proof (Z.pow_pos_nonneg 2 k). lia. }
  destruct (Construct_shape hash fuel vals d t) as (Hwl & HH & Hm & Hc & Hl);
    [done..|].
  assert (exists n, k = Z.of_nat (S n)) as [n ->].
  { exists (Z.to_nat (k - 1)). lia. }
  assert (length vals = 2 ^ S n)%nat as Hcount.
  { apply Nat2Z.inj. rewrite Nat2Z.inj_pow. exact Hlen. }
  assert (length (levels t) = S (S n)) as Hlv.
  { apply Nat2Z.inj. fold (len (levels t)). fold (Height t). rewrite HH, Hlen.
    unfold spec_height. rewrite Z.log2_up_pow2 by lia.
    destruct (Z.eqb_spec (2 ^ Z.of_nat (S n)) 1) as [Heq|_]; [|lia].
    rewrite Nat2Z.inj_succ, Z.pow_succ_r in Heq by lia.
    pose proof (Z.pow_pos_nonneg 2 (Z.of_nat n)). lia. }
  rewrite Hcount in Hwl.
  split; [|split].
  - intros j lv Hj Hidx.
    assert (exists m, j = Z.of_nat (S m)) as [m ->].
    { exists (Z.to_nat (j - 1)). lia. }
    unfold Height, len in Hj. rewrite Hlv in Hj.
    destruct (Hwl (S m) ltac:(lia)) as (ps & Hps & Hsize & _).
    rewrite index_of_nat, Hps in Hidx. injection Hidx as <-.
    unfold len. rewrite length_map, Hsize, Hlv.
    replace (S n) with ((S (S n) - 1 - S m) + S m)%nat at 2 by lia.
    rewrite iter_half_pow2, Nat.pow_succ_r', Nat2Z.inj_mul.
    by rewrite Z.even_mul.
  - intros v.
    destruct (ComputeProof_unfold hash v t _ Hwl) as
      (ps & r & Hsize & Hv & Hr & _ & ->); [lia..|done|].
    assert (len ps = 2 * 2 ^ Z.of_nat n) as Hps.
    { unfold len. rewrite Hsize, Nat.pow_succ_r', Nat2Z.inj_mul.
      by rewrite Nat2Z.inj_pow. }
    rewrite Nat.pow_succ_r', Nat2Z.inj_mul, Nat2Z.inj_pow in Hr.
    destruct (sibling_entry_ok t ps r [] Hv) as [b1 Hb1].
    { apply lxor_1_even_size; [lia|]. rewrite Hps. by rewrite Z.even_mul. }
    unfold bind at 1. rewrite Hb1.
    assert (Height t = Z.of_nat (S (S n))) as Hht
      by (unfold Height, len; lia).
    destruct (ComputeProof_loop_pow2 t (S n) Hwl Hlv Hm
                (S (Z.to_nat (Height t))) (S (S n)) r b1) as [b2 Hb2].
    { lia. } { lia. }
    { replace (Z.of_nat (S (S n)) - 1) with (Z.succ (Z.of_nat n)) by lia.
      rewrite Z.pow_succ_r by lia. exact Hr. }
    rewrite <- Hht in Hb2. unfold bind. rewrite Hb2. eauto.
  - intros vals3 fuel3 d3 t3 Hlen3 Hrun3.
    assert (vals3 <> []) as Hne3.
    { intros ->. discriminate Hlen3. }
    destruct (Construct_shape hash fuel3 vals3 d3 t3)
      as (Hwl3 & HH3 & Hm3 & Hc3 & Hl3); [done|lia|done|].
    destruct (level_well_levelled t3 _ (length (levels t3)) Hwl3 Hm3)
      as (ps & Hlevel & Hsize & _); [lia|].
    rewrite Nat.sub_diag in Hsize. simpl in Hsize.
    exists (map Some ps). fold (len (levels t3)) in Hlevel.
    assert (len (map Some ps) = 3) as Hsz.
    { unfold len in *. rewrite length_map. lia. }
    split; [exact Hlevel|]. split; [exact Hsz|].
    rewrite Hsz. change (Z.lxor (3 - 1) 1) with 3.
    rewrite <- Hsz. apply index_len.
Qed.

Lemma ComputeProof_safe_on_power_of_two_witness :
  (1 <= 3 /\ len vals8 = 2 ^ 3 /\ len vals8 < 2 ^ 63
   /\ Construct toy_hash 36 vals8 NewTree
      = Ret (built_root vals8) (built vals8))
  /\ (forall j lv, 1 <= j < Height (built vals8) ->
        index (levels (built vals8)) j = Some lv -> Z.even (len lv) = true)
  /\ (forall v, exists p, ComputeProof toy_hash v (built vals8)
                          = Ret p (built vals8))
  /\ (forall vals3 fuel3 d3 t3,
        len vals3 = 3 ->
        Construct toy_hash fuel3 vals3 NewTree = Ret d3 t3 ->
        exists leaves,
          level (Height t3) t3 = Ret leaves t3
          /\ len leaves = 3
          /\ index leaves (Z.lxor (len leaves - 1) 1) = None).
Proof.
  assert (Construct toy_hash 36 vals8 NewTree
          = Ret (built_root vals8) (built vals8)) as Hrun
    by (vm_compute; reflexivity).
  assert (1 <= 3) as Hk by lia.
  assert (len vals8 = 2 ^ 3) as Hlen by reflexivity.
  assert (len vals8 < 2 ^ 63) as Hmax by reflexivity.
  split; [by repeat split|].
  exact (ComputeProof_safe_on_power_of_two toy_hash 36 vals8 3 _ _
           Hk Hlen Hmax Hrun).
Defined.

(** * Further properties of the package *)

(** ** util.go *)

(** X1.  On the whole range of a 64-bit [int], [PowOf2] answers true
    for the powers of two [2 ^ 0 .. 2 ^ 62] and, through the wrap-around
    of [i - 1], for the least integer [- 2 ^ 63]; for nothing else. *)
Theorem PowOf2_characterised (i : Z) :
  - 2 ^ 63 <= i < 2 ^ 63 ->
  PowOf2 i = true <-> (exists k, 0 <= k < 63 /\ i = 2 ^ k) \/ i = - 2 ^ 63.
Proof.
  intros Hi.
  destruct (Z.eq_dec i (- 2 ^ 63)) as [->|Hmin].
  { split; [by right|]. intros _. by vm_compute. }
  destruct (Z.lt_trichotomy i 0) as [Hneg|[->|Hpos]].
  - split.
    + unfold PowOf2. rewrite wrap64_small by lia.
      intros [_ Hz%Z.eqb_eq]%andb_true_iff.
      assert (Z.land i (i - 1) < 0) by (apply Z.land_neg; lia). lia.
    + intros [(k & Hk & ->)|?]; [|done].
      pose proof (Z.pow_pos_nonneg 2 k). lia.
  - split; [done|]. intros [(k & Hk & Hz)|?]; [|lia].
    pose proof (Z.pow_pos_nonneg 2 k). lia.
  - rewrite PowOf2_spec by lia. split.
    + intros Heq. left. exists (Z.log2 i). split; [|done].
      split; [apply Z.log2_nonneg|]. apply Z.log2_lt_pow2; lia.
    + intros [(k & Hk & ->)|?]; [|done]. rewrite Z.log2_pow2; [done|lia].
Qed.

Lemma PowOf2_characterised_witness :
  (- 2 ^ 63 <= 8 < 2 ^ 63)
  /\ (PowOf2 8 = true
      <-> (exists k, 0 <= k < 63 /\ 8 = 2 ^ k) \/ 8 = - 2 ^ 63).
Proof.
  assert (- 2 ^ 63 <= 8 < 2 ^ 63) as H8 by lia.
  split; [exact H8|]. exact (PowOf2_characterised 8 H8).
Defined.

(** X2.  For [1 <= i], [Log2 i] returns the least [l] with
    [i <= 2 ^ l]: the logarithm of the next power of two. *)
Theorem Log2_least_exponent (i : Z) :
  1 <= i < 2 ^ 63 ->
  exists l,
    Log2 i = Some l /\ 0 <= l < 64 /\ i <= 2 ^ l
    /\ forall m, 0 <= m -> i <= 2 ^ m -> l <= m.
Proof.
  intros Hi. exists (Z.log2_up i).
  split; [by apply Log2_log2_up|].
  split.
  { split; [apply Z.log2_up_nonneg|].
    assert (Z.log2_up i <= 63); [|lia].
    apply Z.log2_up_le_pow2; lia. }
  split; [apply Z.log2_log2_up_spec; lia|].
  intros m Hm Hle. apply Z.log2_up_le_pow2; lia.
Qed.

Lemma Log2_least_exponent_witness :
  (1 <= 5 < 2 ^ 63)
  /\ exists l,
       Log2 5 = Some l /\ 0 <= l < 64 /\ 5 <= 2 ^ l
       /\ forall m, 0 <= m -> 5 <= 2 ^ m -> l <= m.
Proof.
  assert (1 <= 5 < 2 ^ 63) as H5 by lia.
  split; [exact H5|]. exact (Log2_least_exponent 5 H5).
Defined.

(** X3.  [Log2 0] is 1, and for a negative argument the loop of [Log2]
    never ends: the arithmetic shift keeps [j] negative, so no number
    of rounds reaches [j == 0]. *)
Theorem Log2_below_one (i : Z) :
  i <= 0 ->
  Log2 i = (if i =? 0 then Some 1 else None)
  /\ (i < 0 -> forall fuel l, Log2_loop fuel i l = None).
Proof.
  intros Hi.
  assert (i < 0 -> forall fuel l, Log2_loop fuel i l = None) as Hloop.
  { clear Hi. intros Hneg fuel. revert i Hneg.
    induction fuel as [|fuel IH]; intros i Hneg l; [done|]. simpl.
    assert (Z.shiftr i 1 < 0) as Hs by (apply Z.shiftr_neg; lia).
    destruct (Z.eqb_spec (Z.shiftr i 1) 0); [lia|]. by apply IH. }
  split; [|done].
  destruct (Z.eqb_spec i 0) as [->|Hne]; [done|].
  unfold Log2. by rewrite Hloop by lia.
Qed.

Lemma Log2_below_one_witness :
  (-1 <= 0)
  /\ Log2 (-1) = (if -1 =? 0 then Some 1 else None)
  /\ (-1 < 0 -> forall fuel l, Log2_loop fuel (-1) l = None).
Proof.
  assert (-1 <= 0) as H by lia.
  split; [exact H|]. exact (Log2_below_one (-1) H).
Defined.

(** X4.  For [count >= 1] values [calcTreeHeight] returns a height
    between 2 and 64 whose leaf level has room for them,
    [count <= 2 ^ (height - 1)], and from two values on no lower
    height has: [2 ^ (height - 2) < count]. *)
Theorem calcTreeHeight_fits (count : Z) :
  1 <= count < 2 ^ 63 ->
  exists height,
    calcTreeHeight count = Some height
    /\ 2 <= height <= 64
    /\ count <= 2 ^ (height - 1)
    /\ (2 <= count -> 2 ^ (height - 2) < count).
Proof.
  intros Hc. exists (spec_height count).
  split; [by apply calcTreeHeight_spec|].
  split; [by apply spec_height_bound|].
  split; [apply count_le_pow2; lia|].
  intros H2. unfold spec_height.
  destruct (Z.eqb_spec count 1); [lia|].
  replace (Z.log2_up count + 1 - 2) with (Z.pred (Z.log2_up count)) by lia.
  apply Z.log2_up_spec. lia.
Qed.

Lemma calcTreeHeight_fits_witness :
  (1 <= 5 < 2 ^ 63)
  /\ exists height,
       calcTreeHeight 5 = Some height
       /\ 2 <= height <= 64
       /\ 5 <= 2 ^ (height - 1)
       /\ (2 <= 5 -> 2 ^ (height - 2) < 5).
Proof.
  assert (1 <= 5 < 2 ^ 63) as H5 by lia.
  split; [exact H5|]. exact (calcTreeHeight_fits 5 H5).
Defined.

(** ** hashing *)

(** X5.  Whatever [hashing] returns, a digest or the error, it has
    only filled in digests that were nil: every node is where it was,
    with the same parent, left and right pointers, and a digest that
    was set before the call is unchanged. *)
Theorem hashing_keeps_links (hash : bytes -> bytes) (fuel : nat)
    (nd : option ptr) (hp hp' : Heap) :
  (exists x, hashing hash fuel nd hp = Ret x hp')
  \/ (exists e, hashing hash fuel nd hp = Err e hp') ->
  links_kept hp hp'.
Proof.
  unfold hashing. intros Hrun.
  pose proof (hashing_loop_links hash fuel nd nd hp) as Hl.
  destruct Hrun as [[x Hx]|[e He]].
  - by rewrite Hx in Hl.
  - by rewrite He in Hl.
Qed.

Lemma hashing_keeps_links_witness :
  let hp' := <[2%nat := mkNode (Some (toy_hash ["l"; "r"]%byte)) None
                          (Some 0%nat) (Some 1%nat)]> heap3 in
  ((exists x, hashing toy_hash 1 (Some 2%nat) heap3 = Ret x hp')
   \/ (exists e, hashing toy_hash 1 (Some 2%nat) heap3 = Err e hp'))
  /\ links_kept heap3 hp'.
Proof.
  intros hp'.
  assert ((exists x, hashing toy_hash 1 (Some 2%nat) heap3 = Ret x hp')
          \/ (exists e, hashing toy_hash 1 (Some 2%nat) heap3 = Err e hp'))
    as Hrun.
  { left. exists (Some (toy_hash ["l"; "r"]%byte)). vm_compute. reflexivity. }
  split; [exact Hrun|].
  exact (hashing_keeps_links toy_hash 1 (Some 2%nat) heap3 hp' Hrun).
Defined.

(** X6.  The digest [hashing] returns for a node is stored in that
    node, and a further call for the same node returns the stored
    digest in its first round, whatever it would compute, and leaves
    the heap as it is. *)
Theorem hashing_returns_stored_digest (hash : bytes -> bytes) (fuel : nat)
    (nd : option ptr) (hp hp' : Heap) (d : bytes) :
  hashing hash fuel nd hp = Ret (Some d) hp' ->
  (exists a N, nd = Some a /\ hp' !! a = Some N /\ h N = Some d)
  /\ forall hash' fuel',
       hashing hash' (S fuel') nd hp' = Ret (Some d) hp'.
Proof.
  intros Hrun.
  destruct (hashing_loop_result hash fuel nd nd hp _ _ Hrun)
    as (a & N & -> & HN & Hd).
  split; [by eauto|].
  intros hash' fuel'. unfold hashing. simpl.
  unfold hashing_step, deref. rewrite HN, Hd.
  by rewrite bool_decide_eq_true_2.
Qed.

Lemma hashing_returns_stored_digest_witness :
  let d := toy_hash ["l"; "r"]%byte in
  let hp' := <[2%nat := mkNode (Some d) None (Some 0%nat) (Some 1%nat)]> heap3 in
  hashing toy_hash 1 (Some 2%nat) heap3 = Ret (Some d) hp'
  /\ (exists a N, Some 2%nat = Some a /\ hp' !! a = Some N /\ h N = Some d)
  /\ forall hash' fuel',
       hashing hash' (S fuel') (Some 2%nat) hp' = Ret (Some d) hp'.
Proof.
  intros d hp'.
  assert (hashing toy_hash 1 (Some 2%nat) heap3 = Ret (Some d) hp') as Hrun
    by (vm_compute; reflexivity).
  split; [exact Hrun|].
  exact (hashing_returns_stored_digest toy_hash 1 (Some 2%nat) heap3 hp' d Hrun).
Defined.

(** ** hashing on a linked tree *)



(** ** Tree: level, and the operations on an empty tree *)

(** X8.  [level] counts heights from 1 at the root: for a height from
    1 to [Height()] it returns [t.levels[height - 1]]; for a height
    below 1 or above [Height() + 1] it returns the error
    "Height out of range".  Either way the tree is as before. *)
Theorem level_ranges (t : Tree) (height : Z) :
  - 2 ^ 63 <= height < 2 ^ 63 -> Height t < 2 ^ 63 - 1 ->
  (1 <= height <= Height t ->
     exists l, index (levels t) (height - 1) = Some l
               /\ level height t = Ret l t)
  /\ (height < 1 \/ Height t + 1 < height ->
        level height t = Err ErrHeightOutOfRange t).
Proof.
  intros Hh Hmax. split.
  - intros Hin. apply level_inside; lia.
  - intros Hout. by apply level_outside.
Qed.

Lemma level_ranges_witness :
  (- 2 ^ 63 <= 2 < 2 ^ 63 /\ Height (built vals8) < 2 ^ 63 - 1)
  /\ (1 <= 2 <= Height (built vals8) ->
        exists l, index (levels (built vals8)) (2 - 1) = Some l
                  /\ level 2 (built vals8) = Ret l (built vals8))
  /\ (2 < 1 \/ Height (built vals8) + 1 < 2 ->
        level 2 (built vals8) = Err ErrHeightOutOfRange (built vals8)).
Proof.
  assert (- 2 ^ 63 <= 2 < 2 ^ 63) as Hh by lia.
  assert (Height (built vals8) < 2 ^ 63 - 1) as Hmax by reflexivity.
  split; [by split|]. exact (level_ranges (built vals8) 2 Hh Hmax).
Defined.

(** X9.  On an empty tree [ComputeProof] returns the error
    "Height out of range" for every value: the lookup of the leaf
    level is asked for height 0. *)
Theorem ComputeProof_on_empty_tree (hash : bytes -> bytes) (v : bytes)
    (t : Tree) :
  Empty t = true -> ComputeProof hash v t = Err ErrHeightOutOfRange t.
Proof.
  intros He. unfold ComputeProof, bind, level.
  apply Z.eqb_eq in He. rewrite He. reflexivity.
Qed.

Lemma ComputeProof_on_empty_tree_witness :
  Empty NewTree = true
  /\ ComputeProof toy_hash ["a"%byte] NewTree
     = Err ErrHeightOutOfRange NewTree.
Proof.
  assert (Empty NewTree = true) as He by reflexivity.
  split; [exact He|].
  exact (ComputeProof_on_empty_tree toy_hash ["a"%byte] NewTree He).
Defined.

(** X10.  On an empty tree [VerifyProof] panics with an index out of
    range for every proof: there is no [t.levels[0][0]] to compare
    with. *)
Theorem VerifyProof_on_empty_tree (hash : bytes -> bytes) (p : Proof)
    (t : Tree) :
  Empty t = true -> VerifyProof hash p t = Crash IndexOutOfRange.
Proof.
  intros He%Empty_levels. unfold VerifyProof, bind, root.
  rewrite He. by destruct (VerifyProof_loop hash (br p) (ph p)).
Qed.

Lemma VerifyProof_on_empty_tree_witness :
  Empty NewTree = true
  /\ VerifyProof toy_hash (NewProof [] []) NewTree = Crash IndexOutOfRange.
Proof.
  assert (Empty NewTree = true) as He by reflexivity.
  split; [exact He|].
  exact (VerifyProof_on_empty_tree toy_hash (NewProof [] []) NewTree He).
Defined.

(** ** VerifyProof *)



(** X12.  A nil entry and an entry whose first byte is neither 0 nor 1
    give [VerifyProof] no sibling: each makes it hash the working
    digest once more, alone.  Over a branch of [n] such entries the
    verdict is whether [n] rounds of hashing lead from the digest of
    the proof to the root digest. *)
Theorem VerifyProof_untagged_entries (hash : bytes -> bytes) (p : Proof)
    (t : Tree) (nd : Node) :
  root_node t = Some nd -> Forall untagged (br p) ->
  let w := Nat.iter (length (br p)) hash (ph p) in
  VerifyProof hash p t = Ret (bytes_Equal (h nd) w, NewProof (br p) w) t.
Proof.
  intros Hroot Hb w. apply VerifyProof_root; [|done].
  by apply VerifyProof_loop_untagged.
Qed.

Lemma VerifyProof_untagged_entries_witness :
  let t := built [["a"%byte]] in
  let nd := mkNode (built_root [["a"%byte]]) None (Some 0%nat) None in
  let p := NewProof [None] (toy_hash ["a"%byte]) in
  (root_node t = Some nd /\ Forall untagged (br p))
  /\ VerifyProof toy_hash p t
     = Ret (bytes_Equal (h nd) (Nat.iter (length (br p)) toy_hash (ph p)),
            NewProof (br p) (Nat.iter (length (br p)) toy_hash (ph p))) t.
Proof.
  intros t nd p.
  assert (root_node t = Some nd) as Hroot by (vm_compute; reflexivity).
  assert (Forall untagged (br p)) as Hb by (apply Forall_singleton; exact I).
  split; [by split|].
  exact (VerifyProof_untagged_entries toy_hash p t nd Hroot Hb).
Defined.

(** X13.  A branch vouches for one digest only: two proofs with the
    same branch that [VerifyProof] both accepts on a tree start from
    the same digest, unless the engine shows a collision between what
    the one run and what the other run write to it. *)
Theorem VerifyProof_accepts_one_digest (hash : bytes -> bytes) (t : Tree)
    (p q p' q' : Proof) :
  br p = br q ->
  no_collision hash (VerifyProof_inputs hash (br p) (ph p))
    (VerifyProof_inputs hash (br p) (ph q)) ->
  VerifyProof hash p t = Ret (true, p') t ->
  VerifyProof hash q t = Ret (true, q') t ->
  ph p = ph q.
Proof.
  intros Hbr Hnc Hp Hq.
  apply VerifyProof_inv in Hp as (nd & Hroot & _ & _ & Hlp & Hvp).
  apply VerifyProof_inv in Hq as (nd' & Hroot' & _ & _ & Hlq & Hvq).
  assert (nd' = nd) as -> by congruence.
  symmetry in Hvp, Hvq.
  apply bool_decide_eq_true in Hvp. apply bool_decide_eq_true in Hvq.
  eapply (VerifyProof_loop_inj_on hash (br p)); [exact Hnc|exact Hlp|].
  rewrite Hbr, Hlq. f_equal. congruence.
Qed.

Lemma VerifyProof_accepts_one_digest_witness :
  let t := built (take 2 vals8) in
  let p := NewProof [Some (x01 :: toy_hash ["b"%byte])] (toy_hash ["a"%byte]) in
  let p' := NewProof (br p) (default [] (built_root (take 2 vals8))) in
  (br p = br p
   /\ no_collision toy_hash (VerifyProof_inputs toy_hash (br p) (ph p))
        (VerifyProof_inputs toy_hash (br p) (ph p))
   /\ VerifyProof toy_hash p t = Ret (true, p') t
   /\ VerifyProof toy_hash p t = Ret (true, p') t)
  /\ ph p = ph p.
Proof.
  intros t p p'.
  assert (VerifyProof toy_hash p t = Ret (true, p') t) as Hp
    by (vm_compute; reflexivity).
  assert (no_collision toy_hash (VerifyProof_inputs toy_hash (br p) (ph p))
            (VerifyProof_inputs toy_hash (br p) (ph p))) as Hnc
    by (intros x y _ _; apply toy_hash_inj).
  split; [by repeat split|].
  exact (VerifyProof_accepts_one_digest toy_hash t p p p' p' eq_refl Hnc Hp Hp).
Defined.

(** X14.  Neither [ComputeProof] nor [VerifyProof] changes the tree:
    whenever one of them returns, with a result or with an error, the
    levels and the nodes are what they were. *)
Theorem proofs_leave_the_tree (hash : bytes -> bytes) (v : bytes) (p : Proof) :
  read_only (ComputeProof hash v) /\ read_only (VerifyProof hash p).
Proof.
  split; [apply read_only_ComputeProof|apply read_only_VerifyProof].
Qed.

(** ** ComputeProof *)

(** X15.  On the tree over [2 ^ k] values, [k >= 1], [ComputeProof]
    of a value returns the branch of the first leaf that carries the
    digest of the value: [k] entries, from the leaf level up to the
    level below the root, each the digest of the sibling at that level
    behind the byte 0 when the sibling stands on the left (odd
    position) and behind the byte 1 when it stands on the right; the
    proof starts from the digest of the value. *)
Theorem ComputeProof_returns_branch (hash : bytes -> bytes) (fuel : nat)
    (vals : list bytes) (k : Z) (d : option bytes) (t : Tree) (v : bytes)
    (r : Z) :
  (forall x, hash x <> []) ->
  1 <= k -> len vals = 2 ^ k -> len vals < 2 ^ 63 ->
  Construct hash fuel vals NewTree = Ret d t ->
  index (map hash vals) r = Some (hash v) ->
  (forall r', 0 <= r' < r -> index (map hash vals) r' <> Some (hash v)) ->
  let b := path hash (Z.to_nat k) r (map hash vals) in
  ComputeProof hash v t = Ret (NewProof (map encode b) (hash v)) t
  /\ len b = k.
Proof.
  intros Hnn Hk Hlen Hmax Hrun Hr Hfirst b.
  assert (exists n, k = Z.of_nat (S n)) as [n ->].
  { exists (Z.to_nat (k - 1)). lia. }
  destruct (Construct_pow2_rows hash Hnn fuel vals n d t Hlen Hmax Hrun)
    as (Hlv & Hm & Hrow & Hsize & Hstep & _).
  split; [|unfold len, b; rewrite path_length; lia].
  unfold b. rewrite Nat2Z.id.
  set (D := level_digests hash vals (S n)) in *.
  pose proof (level_digests_leaves hash vals (S n)) as HD. fold D in HD.
  pose proof (ComputeProof_path_at hash t (S (S n)) D Hlv Hm Hrow Hsize Hstep
                v r) as Hcp.
  replace (S (S n) - 1)%nat with (S n) in Hcp by lia.
  rewrite HD in Hcp. apply Hcp; [lia| |].
  - rewrite <- (Hsize (S n)), HD by lia. by eapply index_lt.
  - intros ps Hps. by rewrite (scan_at t ps _ _ r Hps Hr Hfirst).
Qed.

Lemma ComputeProof_returns_branch_witness :
  let v := ["c"%byte] in
  let b := path toy_hash (Z.to_nat 3) 2 (map toy_hash vals8) in
  ((forall x, toy_hash x <> [])
   /\ 1 <= 3 /\ len vals8 = 2 ^ 3 /\ len vals8 < 2 ^ 63
   /\ Construct toy_hash 36 vals8 NewTree = Ret (built_root vals8) (built vals8)
   /\ index (map toy_hash vals8) 2 = Some (toy_hash v)
   /\ (forall r', 0 <= r' < 2 ->
         index (map toy_hash vals8) r' <> Some (toy_hash v)))
  /\ ComputeProof toy_hash v (built vals8)
     = Ret (NewProof (map encode b) (toy_hash v)) (built vals8)
  /\ len b = 3.
Proof.
  intros v b.
  assert (Construct toy_hash 36 vals8 NewTree
          = Ret (built_root vals8) (built vals8)) as Hrun
    by (vm_compute; reflexivity).
  assert (1 <= 3) as Hk by lia.
  assert (len vals8 = 2 ^ 3) as Hlen by reflexivity.
  assert (len vals8 < 2 ^ 63) as Hmax by reflexivity.
  assert (index (map toy_hash vals8) 2 = Some (toy_hash v)) as Hr
    by reflexivity.
  assert (forall r', 0 <= r' < 2 ->
            index (map toy_hash vals8) r' <> Some (toy_hash v)) as Hfirst.
  { intros r' Hr'. assert (r' = 0 \/ r' = 1) as [-> | ->] by lia;
      vm_compute; discriminate. }
  split.
  - split; [exact toy_hash_nonnil|]. by repeat split.
  - exact (ComputeProof_returns_branch toy_hash 36 vals8 3 _ _ v 2
             toy_hash_nonnil Hk Hlen Hmax Hrun Hr Hfirst).
Defined.

(** X16.  On the tree over [2 ^ k] values, [k >= 1], [ComputeProof]
    of a value whose digest no leaf carries returns no error but a
    proof: the branch of the last leaf under the digest of the value.
    [VerifyProof] rejects that proof, unless the engine shows a
    collision between the run from the digest of the value and the run
    from the digest of the last leaf. *)
Theorem ComputeProof_absent_value_rejected (hash : bytes -> bytes)
    (fuel : nat) (vs : list bytes) (x : bytes) (k : Z) (d : option bytes)
    (t : Tree) (v : bytes) :
  (forall y, hash y <> []) ->
  1 <= k -> len (vs ++ [x]) = 2 ^ k -> len (vs ++ [x]) < 2 ^ 63 ->
  Construct hash fuel (vs ++ [x]) NewTree = Ret d t ->
  hash v ∉ map hash (vs ++ [x]) ->
  let b := path hash (Z.to_nat k) (len vs) (map hash (vs ++ [x])) in
  no_collision hash (VerifyProof_inputs hash (map encode b) (hash v))
    (VerifyProof_inputs hash (map encode b) (hash x)) ->
  ComputeProof hash v t = Ret (NewProof (map encode b) (hash v)) t
  /\ exists p',
       VerifyProof hash (NewProof (map encode b) (hash v)) t
       = Ret (false, p') t.
Proof.
  intros Hnn Hk Hlen Hmax Hrun Hnot b Hnc.
  assert (exists n, k = Z.of_nat (S n)) as [n ->].
  { exists (Z.to_nat (k - 1)). lia. }
  destruct (Construct_pow2_rows hash Hnn fuel (vs ++ [x]) n d t Hlen Hmax Hrun)
    as (Hlv & Hm & Hrow & Hsize & Hstep & nd & rd & Hroot & Hrd & HD0).
  revert Hnc. unfold b. rewrite Nat2Z.id. clear b. intros Hnc.
  set (vals := vs ++ [x]) in *.
  set (D := level_digests hash vals (S n)) in *.
  pose proof (level_digests_leaves hash vals (S n)) as HD. fold D in HD.
  assert (len vals = len vs + 1) as Hlast.
  { unfold vals, len. rewrite length_app. simpl. lia. }
  assert (hash v ∉ map hash vs) as Hnd.
  { intros Hin. apply Hnot. unfold vals. rewrite map_app.
    apply elem_of_app. by left. }
  assert (0 <= len vs < 2 ^ Z.of_nat (S n)) as Hr.
  { unfold len in *. lia. }
  set (b := path hash (S n) (len vs) (map hash vals)) in *.
  assert (ComputeProof hash v t = Ret (NewProof (map encode b) (hash v)) t)
    as Hcp.
  { pose proof (ComputeProof_path_at hash t (S (S n)) D Hlv Hm Hrow Hsize
                  Hstep v (len vs)) as Hcp.
    replace (S (S n) - 1)%nat with (S n) in Hcp by lia.
    rewrite HD in Hcp. apply Hcp; [lia|done|].
    intros ps Hps. unfold vals in Hps. rewrite map_app in Hps. simpl in Hps.
    rewrite (scan_last t ps _ _ (hash v) Hps Hnd).
    unfold len. by rewrite length_map. }
  split; [exact Hcp|].
  destruct (replay_path hash (S n) (len vs) (map hash vals))
    as (y & rr & Hy & Hrr & Hrep).
  { by rewrite <- HD, Hsize by lia. }
  { unfold len in *. rewrite length_map. lia. }
  assert (rr = rd) as ->.
  { rewrite <- level_digests_root in Hrr. fold D in Hrr.
    rewrite HD0 in Hrr. simpl in Hrr. congruence. }
  assert (y = hash x) as ->.
  { unfold vals in Hy. rewrite map_app in Hy. simpl in Hy.
    rewrite index_nonneg in Hy by (unfold len; lia).
    unfold len in Hy. rewrite Nat2Z.id in Hy.
    rewrite lookup_app_r in Hy by (rewrite length_map; lia).
    rewrite length_map, Nat.sub_diag in Hy. simpl in Hy. congruence. }
  fold b in Hrep.
  exists (NewProof (map encode b) (replay hash b (hash v))).
  rewrite (VerifyProof_root hash t (NewProof (map encode b) (hash v))
             (replay hash b (hash v)) nd
             (VerifyProof_loop_encode hash b (hash v)) Hroot).
  do 2 f_equal. unfold bytes_Equal. rewrite Hrd.
  change (default [] (Some rd)) with rd.
  apply bool_decide_eq_false. intros Heq.
  apply Hnot. unfold vals. rewrite map_app. apply elem_of_app. right.
  apply list_elem_of_singleton.
  eapply (VerifyProof_loop_inj_on hash (map encode b)); [exact Hnc| |].
  - rewrite VerifyProof_loop_encode. by rewrite <- Heq.
  - rewrite VerifyProof_loop_encode. by rewrite Hrep.
Qed.

Lemma ComputeProof_absent_value_rejected_witness :
  let v := ["z"%byte] in
  let vs := take 7 vals8 in
  let x := ["h"%byte] in
  let b := path toy_hash (Z.to_nat 3) (len vs) (map toy_hash (vs ++ [x])) in
  ((forall y, toy_hash y <> [])
   /\ 1 <= 3 /\ len (vs ++ [x]) = 2 ^ 3 /\ len (vs ++ [x]) < 2 ^ 63
   /\ Construct toy_hash 36 (vs ++ [x]) NewTree
      = Ret (built_root vals8) (built vals8)
   /\ (toy_hash v ∉ map toy_hash (vs ++ [x]))
   /\ no_collision toy_hash
        (VerifyProof_inputs toy_hash (map encode b) (toy_hash v))
        (VerifyProof_inputs toy_hash (map encode b) (toy_hash x)))
  /\ ComputeProof toy_hash v (built vals8)
     = Ret (NewProof (map encode b) (toy_hash v)) (built vals8)
  /\ exists p',
       VerifyProof toy_hash (NewProof (map encode b) (toy_hash v)) (built vals8)
       = Ret (false, p') (built vals8).
Proof.
  intros v vs x b.
  assert (Construct toy_hash 36 (vs ++ [x]) NewTree
          = Ret (built_root vals8) (built vals8)) as Hrun
    by (vm_compute; reflexivity).
  assert (1 <= 3) as Hk by lia.
  assert (len (vs ++ [x]) = 2 ^ 3) as Hlen by reflexivity.
  assert (len (vs ++ [x]) < 2 ^ 63) as Hmax by reflexivity.
  assert (toy_hash v ∉ map toy_hash (vs ++ [x])) as Hnot.
  { intros Hin. apply list_elem_of_In in Hin. simpl in Hin.
    repeat (destruct Hin as [Hin|Hin]; [discriminate Hin|]). exact Hin. }
  assert (no_collision toy_hash
            (VerifyProof_inputs toy_hash (map encode b) (toy_hash v))
            (VerifyProof_inputs toy_hash (map encode b) (toy_hash x))) as Hnc
    by (intros y z _ _; apply toy_hash_inj).
  split.
  - split; [exact toy_hash_nonnil|]. by repeat split.
  - exact (ComputeProof_absent_value_rejected toy_hash 36 vs x 3 _ _ v
             toy_hash_nonnil Hk Hlen Hmax Hrun Hnot Hnc).
Defined.

(** X17.  On the tree over an odd number of values, the values [vs]
    followed by one more, [ComputeProof] panics with an index out of
    range for every value whose digest no leaf before the last
    carries: for the last value, when it is no repetition, and for
    every value that is not among the values.  The last leaf has no
    right neighbour, and the sibling is read all the same. *)
Theorem ComputeProof_odd_count_panics (hash : bytes -> bytes) (fuel : nat)
    (vs : list bytes) (x : bytes) (d : option bytes) (t : Tree) (v : bytes) :
  (forall y, hash y <> []) ->
  Z.even (len vs) = true -> len vs + 1 < 2 ^ 63 ->
  Construct hash fuel (vs ++ [x]) NewTree = Ret d t ->
  hash v ∉ map hash vs ->
  ComputeProof hash v t = Crash IndexOutOfRange.
Proof.
  intros Hnn Heven Hmax Hrun Hnot.
  assert (len (vs ++ [x]) = len vs + 1) as Hlen.
  { unfold len. rewrite length_app. simpl. lia. }
  assert (vs ++ [x] <> []) as Hne by (by destruct vs).
  destruct (Construct_shape hash fuel (vs ++ [x]) d t)
    as (Hwl & HH & Hm & Hc & Hl); [done|lia|done|].
  destruct (Construct_digests hash Hnn fuel (vs ++ [x]) d t Hne ltac:(lia) Hrun
              (length (levels t) - 1)%nat ltac:(lia)) as (ps & Hps & Hd).
  replace (length (levels t) - 1 - (length (levels t) - 1))%nat with 0%nat
    in Hd by lia.
  simpl in Hd. rewrite map_app in Hd. simpl in Hd.
  destruct (level_inside t (Height t)) as (l & Hl' & Hlevel);
    [unfold Height, len; lia|done|].
  assert (l = map Some ps) as ->.
  { unfold Height, len in Hl'.
    replace (Z.of_nat (length (levels t)) - 1)
      with (Z.of_nat (length (levels t) - 1)) in Hl' by lia.
    rewrite index_of_nat in Hl'. congruence. }
  unfold ComputeProof. unfold bind at 1. rewrite Hlevel.
  unfold bind at 1. rewrite (scan_last t ps _ _ (hash v) Hd Hnot).
  replace (len (map hash vs)) with (len vs)
    by (unfold len; by rewrite length_map).
  assert (len (map Some ps) = len vs + 1) as Hsz.
  { unfold len. rewrite length_map, (Forall2_length _ _ _ Hd), length_app.
    rewrite length_map. simpl. lia. }
  rewrite Z.add_0_l.
  destruct (Z.eqb_spec (len vs) (len (map Some ps))) as [Heq|_]; [lia|].
  unfold bind. rewrite sibling_entry_outside; [done|].
  rewrite lxor_1, Heven by (unfold len; lia). lia.
Qed.

Lemma ComputeProof_odd_count_panics_witness :
  let vs := take 2 vals8 in
  let x := ["c"%byte] in
  ((forall y, toy_hash y <> [])
   /\ Z.even (len vs) = true /\ len vs + 1 < 2 ^ 63
   /\ Construct toy_hash 16 (vs ++ [x]) NewTree
      = Ret (built_root (vs ++ [x])) (built (vs ++ [x]))
   /\ (toy_hash x ∉ map toy_hash vs))
  /\ ComputeProof toy_hash x (built (vs ++ [x])) = Crash IndexOutOfRange.
Proof.
  intros vs x.
  assert (Construct toy_hash 16 (vs ++ [x]) NewTree
          = Ret (built_root (vs ++ [x])) (built (vs ++ [x]))) as Hrun
    by (vm_compute; reflexivity).
  assert (Z.even (len vs) = true) as Heven by reflexivity.
  assert (len vs + 1 < 2 ^ 63) as Hmax by reflexivity.
  assert (toy_hash x ∉ map toy_hash vs) as Hnot.
  { intros Hin. apply list_elem_of_In in Hin. simpl in Hin.
    repeat (destruct Hin as [Hin|Hin]; [discriminate Hin|]). exact Hin. }
  split.
  - split; [exact toy_hash_nonnil|]. by repeat split.
  - exact (ComputeProof_odd_count_panics toy_hash 16 vs x _ _ x
             toy_hash_nonnil Heven Hmax Hrun Hnot).
Defined.
(** X18.  On a tree over [2 ^ k] values, [k >= 1], the round trip holds:
    for every value of the sequence [ComputeProof] returns a proof and
    [VerifyProof] accepts it. *)
Theorem round_trip_on_power_of_two (hash : bytes -> bytes) (fuel : nat)
    (vals : list bytes) (k : Z) (d : option bytes) (t : Tree) (v : bytes) :
  (forall x, hash x <> []) ->
  1 <= k -> len vals = 2 ^ k -> len vals < 2 ^ 63 ->
  Construct hash fuel vals NewTree = Ret d t ->
  v ∈ vals ->
  exists p p',
    ComputeProof hash v t = Ret p t
    /\ VerifyProof hash p t = Ret (true, p') t.
Proof.
  intros Hnn Hk Hlen Hmax Hrun Hin.
  assert (vals <> []) as Hne by (intros ->; by apply elem_of_nil in Hin).
  destruct (Construct_shape hash fuel vals d t) as (Hwl & HH & Hm & Hc & Hl);
    [done..|].
  pose proof (Construct_digests hash Hnn fuel vals d t Hne Hmax Hrun) as Hdig.
  assert (exists n, k = Z.of_nat (S n)) as [n ->].
  { exists (Z.to_nat (k - 1)). lia. }
  assert (length (levels t) = S (S n)) as Hlv.
  { apply Nat2Z.inj. fold (len (levels t)). fold (Height t). rewrite HH, Hlen.
    unfold spec_height. rewrite Z.log2_up_pow2 by lia.
    destruct (Z.eqb_spec (2 ^ Z.of_nat (S n)) 1) as [Heq|_]; [|lia].
    rewrite Nat2Z.inj_succ, Z.pow_succ_r in Heq by lia.
    pose proof (Z.pow_pos_nonneg 2 (Z.of_nat n)). lia. }
  rewrite Hlv in Hdig.
  set (L := map hash vals) in *.
  set (D := fun j => Nat.iter (S n - j) (pair_digests hash) L).
  assert (len L = 2 ^ Z.of_nat (S n)) as HL.
  { unfold L, len in *. by rewrite length_map. }
  assert (forall j, (j < S (S n))%nat -> len (D j) = 2 ^ Z.of_nat j) as Hsize.
  { intros j Hj. apply iter_pair_digests_len.
    by replace (S n - j + j)%nat with (S n) by lia. }
  assert (forall j, (S j < S (S n))%nat -> D j = pair_digests hash (D (S j)))
    as Hstep.
  { intros j Hj. unfold D.
    by replace (S n - j)%nat with (S (S n - S j)) by lia. }
  assert (forall j, (j < S (S n))%nat ->
            exists ps, levels t !! j = Some (map Some ps)
                       /\ holds_digests t ps (D j)) as Hrow.
  { intros j Hj. destruct (Hdig j Hj) as (ps & Hps & Hd).
    exists ps. split; [done|]. unfold D.
    by replace (S n - j)%nat with (S (S n) - 1 - j)%nat by lia. }
  destruct (ComputeProof_path hash t (S (S n)) D Hlv Hm Hrow Hsize Hstep v)
    as (r & Hr & Hcp); [lia| |].
  { replace (S (S n) - 1)%nat with (S n) by lia. unfold D.
    rewrite Nat.sub_diag. simpl. by apply list_elem_of_fmap_2. }
  replace (S (S n) - 1)%nat with (S n) in * by lia.
  destruct (Hrow 0%nat ltac:(lia)) as (ps0 & Hps0 & Hd0).
  pose proof (Hsize 0%nat ltac:(lia)) as Hs0.
  unfold holds_digests in Hd0.
  destruct (D 0%nat) as [|rd ds0] eqn:Heq0; [discriminate Hs0|].
  apply Forall2_cons_inv_r in Hd0 as (p0 & ps0' & (nd & Hnd & Hrd) & _ & ->).
  assert (root_node t = Some nd) as Hroot.
  { unfold root_node, root. change 0 with (Z.of_nat 0).
    rewrite index_of_nat, Hps0. by simpl. }
  destruct (replay_path hash (S n) r (D (S n))) as (x & rr & Hx & Hrr & Hrep).
  { apply Hsize. lia. } { by eapply index_lt. }
  assert (x = hash v) as -> by congruence.
  assert (rr = rd) as ->.
  { assert (Nat.iter (S n) (pair_digests hash) (D (S n)) = D 0%nat) as Hit.
    { unfold D. by rewrite Nat.sub_diag, Nat.sub_0_r. }
    rewrite Hit, Heq0 in Hrr. simpl in Hrr. congruence. }
  set (b := path hash (S n) r (D (S n))) in *.
  exists (NewProof (map encode b) (hash v)), (NewProof (map encode b) rd).
  split; [exact Hcp|].
  rewrite (VerifyProof_root hash t _ rd nd);
    [|exact (eq_trans (VerifyProof_loop_encode hash b (hash v))
                      (f_equal Some Hrep))|exact Hroot].
  rewrite Hrd. unfold bytes_Equal. simpl.
  by rewrite bool_decide_eq_true_2.
Qed.

Lemma round_trip_on_power_of_two_witness :
  let v := ["e"%byte] in
  ((forall x, toy_hash x <> [])
   /\ 1 <= 3 /\ len vals8 = 2 ^ 3 /\ len vals8 < 2 ^ 63
   /\ Construct toy_hash 36 vals8 NewTree = Ret (built_root vals8) (built vals8)
   /\ (v ∈ vals8))
  /\ exists p p',
       ComputeProof toy_hash v (built vals8) = Ret p (built vals8)
       /\ VerifyProof toy_hash p (built vals8) = Ret (true, p') (built vals8).
Proof.
  intros v.
  assert (Construct toy_hash 36 vals8 NewTree
          = Ret (built_root vals8) (built vals8)) as Hrun
    by (vm_compute; reflexivity).
  assert (1 <= 3) as Hk by lia.
  assert (len vals8 = 2 ^ 3) as Hlen by reflexivity.
  assert (len vals8 < 2 ^ 63) as Hmax by reflexivity.
  assert (v ∈ vals8) as Hin by (apply list_elem_of_In; simpl; tauto).
  split.
  - split; [exact toy_hash_nonnil|]. by repeat split.
  - exact (round_trip_on_power_of_two toy_hash 36 vals8 3 _ _ v
             toy_hash_nonnil Hk Hlen Hmax Hrun Hin).
Defined.

(** ** Construct *)

(** X19.  A tree is constructed once: after a successful [Construct]
    the tree is not empty, and every further [Construct] on it, with
    whatever values, returns the error "Tree is not empty" and leaves
    the tree as it is. *)
Theorem Construct_only_once (hash : bytes -> bytes) (fuel : nat)
    (vals : list bytes) (t0 t : Tree) (d : option bytes) :
  Empty t0 = true -> len vals < 2 ^ 63 ->
  Construct hash fuel vals t0 = Ret d t ->
  Empty t = false
  /\ forall hash' fuel' vals',
       Construct hash' fuel' vals' t = Err ErrTreeNotEmpty t.
Proof.
  intros He Hmax Hrun.
  assert (1 <= len vals) as Hc.
  { destruct vals; [|unfold len; simpl; lia].
    unfold Construct in Hrun. by rewrite He in Hrun. }
  destruct (Construct_inv hash fuel vals t0 d t He ltac:(lia) Hrun) as [HH _].
  pose proof (spec_height_ge_2 (len vals) Hc) as H2.
  assert (Empty t = false) as Hne.
  { unfold Empty. apply Z.eqb_neq. lia. }
  split; [done|]. intros hash' fuel' vals'. unfold Construct. by rewrite Hne.
Qed.

Lemma Construct_only_once_witness :
  (Empty NewTree = true /\ len vals8 < 2 ^ 63
   /\ Construct toy_hash 36 vals8 NewTree = Ret (built_root vals8) (built vals8))
  /\ Empty (built vals8) = false
  /\ forall hash' fuel' vals',
       Construct hash' fuel' vals' (built vals8)
       = Err ErrTreeNotEmpty (built vals8).
Proof.
  assert (Construct toy_hash 36 vals8 NewTree
          = Ret (built_root vals8) (built vals8)) as Hrun
    by (vm_compute; reflexivity).
  assert (Empty NewTree = true) as He by reflexivity.
  assert (len vals8 < 2 ^ 63) as Hmax by reflexivity.
  split; [by repeat split|].
  exact (Construct_only_once toy_hash 36 vals8 NewTree _ _ He Hmax Hrun).
Defined.

(** X20.  After a successful [Construct] every level of the tree is
    filled: level [j] is a row of nodes that carry, in order, the
    digests the pairing rule gives for that level, as many as the
    halvings of the number of values leave.  The leaf level carries
    the digests of the values in input order, and the digest returned
    is the one digest of level 0. *)
Theorem Construct_levels_hold_digests (hash : bytes -> bytes) (fuel : nat)
    (vals : list bytes) (d : option bytes) (t : Tree) :
  (forall x, hash x <> []) -> vals <> [] -> len vals < 2 ^ 63 ->
  Construct hash fuel vals NewTree = Ret d t ->
  let n := (length (levels t) - 1)%nat in
  (forall j, (j <= n)%nat ->
     exists ps,
       levels t !! j = Some (map Some ps)
       /\ holds_digests t ps (level_digests hash vals n j)
       /\ length ps = Nat.iter (n - j) half (length vals))
  /\ level_digests hash vals n n = map hash vals
  /\ (exists rd, level_digests hash vals n 0 = [rd] /\ d = Some rd).
Proof.
  intros Hnn Hne Hmax Hrun n.
  destruct (Construct_shape hash fuel vals d t) as (Hwl & HH & Hm & Hc & Hl);
    [done..|].
  pose proof (Construct_digests hash Hnn fuel vals d t Hne Hmax Hrun) as Hdig.
  assert (forall j, (j <= n)%nat ->
     exists ps,
       levels t !! j = Some (map Some ps)
       /\ holds_digests t ps (level_digests hash vals n j)
       /\ length ps = Nat.iter (n - j) half (length vals)) as Hrows.
  { intros j Hj. destruct (Hdig j ltac:(lia)) as (ps & Hps & Hd).
    destruct (Hwl j ltac:(lia)) as (ps' & Hps' & Hsz & _).
    assert (ps' = ps) as ->.
    { rewrite Hps in Hps'. injection Hps' as Heq.
      by apply (inj (map Some)) in Heq. }
    exists ps. by split_and!. }
  split; [exact Hrows|]. split; [apply level_digests_leaves|].
  destruct (Construct_succeeds hash Hnn vals NewTree) as ([rd Hrd] & k & Hk);
    [done|apply len_nonempty in Hne; lia|].
  assert (d = Some rd) as ->.
  { apply (Construct_mono hash fuel (S k)) in Hrun;
      [|done|apply len_nonempty in Hne; lia].
    destruct (Hk fuel) as [t'' Hk'].
    replace (fuel + S k)%nat with (S k + fuel)%nat in Hrun by lia.
    congruence. }
  exists rd. split; [|done].
  destruct (Hrows 0%nat ltac:(lia)) as (ps & _ & Hd & Hsz).
  assert (length ps = 1%nat) as Hone.
  { rewrite Hsz, Nat.sub_0_r. apply iter_half_one. split; [lia|].
    pose proof (count_le_pow2 (len vals) ltac:(unfold len; lia)) as Hle.
    rewrite <- HH in Hle. unfold Height, len in Hle.
    replace (Z.of_nat (length (levels t)) - 1) with (Z.of_nat n) in Hle
      by (unfold n; lia).
    apply Nat2Z.inj_le. by rewrite Nat2Z.inj_pow. }
  apply Forall2_length in Hd. rewrite Hone in Hd.
  unfold merkle_root in Hrd. rewrite <- HH in Hrd.
  replace (Z.to_nat (Height t - 1)) with n in Hrd
    by (unfold n, Height, len; lia).
  rewrite <- level_digests_root in Hrd.
  destruct (level_digests hash vals n 0) as [|r0 [|]]; try discriminate Hd.
  simpl in Hrd. congruence.
Qed.

Lemma Construct_levels_hold_digests_witness :
  let t := built (take 3 vals8) in
  let n := (length (levels t) - 1)%nat in
  ((forall x, toy_hash x <> []) /\ take 3 vals8 <> []
   /\ len (take 3 vals8) < 2 ^ 63
   /\ Construct toy_hash 16 (take 3 vals8) NewTree
      = Ret (built_root (take 3 vals8)) t)
  /\ (forall j, (j <= n)%nat ->
        exists ps,
          levels t !! j = Some (map Some ps)
          /\ holds_digests t ps (level_digests toy_hash (take 3 vals8) n j)
          /\ length ps = Nat.iter (n - j) half (length (take 3 vals8)))
  /\ level_digests toy_hash (take 3 vals8) n n = map toy_hash (take 3 vals8)
  /\ (exists rd, level_digests toy_hash (take 3 vals8) n 0 = [rd]
                 /\ built_root (take 3 vals8) = Some rd).
Proof.
  intros t n.
  assert (Construct toy_hash 16 (take 3 vals8) NewTree
          = Ret (built_root (take 3 vals8)) t) as Hrun
    by (vm_compute; reflexivity).
  assert (take 3 vals8 <> []) as Hne by discriminate.
  assert (len (take 3 vals8) < 2 ^ 63) as Hmax by reflexivity.
  split.
  - split; [exact toy_hash_nonnil|]. by repeat split.
  - exact (Construct_levels_hold_digests toy_hash 16 (take 3 vals8) _ _
             toy_hash_nonnil Hne Hmax Hrun).
Defined.

(** X21.  The one error [Construct] can return once it is past its two
    guards is "Leaf node does not have value", from [hashing].  It
    comes after the levels have been laid out, so the tree is left
    with the full height for its values: it is no longer empty, and a
    retry on it fails with "Tree is not empty". *)
Theorem Construct_error_leaves_levels (hash : bytes -> bytes) (fuel : nat)
    (vals : list bytes) (t0 t : Tree) (e : error) :
  Empty t0 = true -> vals <> [] -> len vals < 2 ^ 63 ->
  Construct hash fuel vals t0 = Err e t ->
  e = ErrLeafNoValue
  /\ Height t = spec_height (len vals)
  /\ Empty t = false
  /\ forall hash' fuel' vals',
       Construct hash' fuel' vals' t = Err ErrTreeNotEmpty t.
Proof.
  intros He Hne%len_nonempty Hmax.
  rewrite Construct_unfold by (done || lia).
  destruct (Construct_levels_spec hash vals t0 ltac:(lia))
    as (t1 & troot & Hrun & HH & _ & H0 & _).
  unfold bind. rewrite Hrun, (setHashes_run _ _ _ _ H0).
  destruct (hashing_loop hash fuel _ _ _) as [|e1 hp1| |] eqn:E; try done.
  intros [= <- <-].
  pose proof (spec_height_ge_2 (len vals) Hne) as H2.
  assert (Height (mkTree hp1 (levels t1)) = spec_height (len vals)) as HH'
    by done.
  assert (Empty (mkTree hp1 (levels t1)) = false) as Hemp.
  { unfold Empty. apply Z.eqb_neq. lia. }
  split_and!; try done.
  - symmetry. by eapply (errs_in_hashing hash fuel (Some (addr troot))).
  - intros hash' fuel' vals'. unfold Construct. by rewrite Hemp.
Qed.

Lemma Construct_error_leaves_levels_witness :
  let t := mkTree [mkNode None (Some 1%nat) None None;
                   mkNode None None (Some 0%nat) None]
                  [[Some 1%nat]; [Some 0%nat]] in
  (Empty NewTree = true /\ [["a"%byte]] <> [] /\ len [["a"%byte]] < 2 ^ 63
   /\ Construct null_hash 8 [["a"%byte]] NewTree = Err ErrLeafNoValue t)
  /\ ErrLeafNoValue = ErrLeafNoValue
  /\ Height t = spec_height (len [["a"%byte]])
  /\ Empty t = false
  /\ forall hash' fuel' vals',
       Construct hash' fuel' vals' t = Err ErrTreeNotEmpty t.
Proof.
  intros t.
  assert (Construct null_hash 8 [["a"%byte]] NewTree = Err ErrLeafNoValue t)
    as Hrun by (vm_compute; reflexivity).
  assert (Empty NewTree = true) as He by reflexivity.
  assert ([["a"%byte]] <> []) as Hne by discriminate.
  assert (len [["a"%byte]] < 2 ^ 63) as Hmax by reflexivity.
  split; [by repeat split|].
  exact (Construct_error_leaves_levels null_hash 8 [["a"%byte]] NewTree t
           ErrLeafNoValue He Hne Hmax Hrun).
Defined.

(** X22.  The tree over one value has two levels, a leaf under a root
    with a left child only, and its root digest is the digest of the
    digest of the value.  [ComputeProof] has no proof for it, but the
    proof with one nil entry from the digest of the value is
    accepted. *)
Theorem single_value_tree (hash : bytes -> bytes) (fuel : nat) (v : bytes)
    (d : option bytes) (t : Tree) :
  (forall x, hash x <> []) ->
  Construct hash fuel [v] NewTree = Ret d t ->
  d = Some (hash (hash v))
  /\ Height t = 2
  /\ VerifyProof hash (NewProof [None] (hash v)) t
     = Ret (true, NewProof [None] (hash (hash v))) t.
Proof.
  intros Hnn Hrun.
  destruct (Construct_shape hash fuel [v] d t) as (_ & HH & _ & _ & _);
    [done|reflexivity|done|].
  change (spec_height (len [v])) with 2 in HH.
  assert (length (levels t) = 2%nat) as Hlv by (unfold Height, len in HH; lia).
  destruct (Construct_digests hash Hnn fuel [v] d t ltac:(done)
              ltac:(reflexivity) Hrun 0%nat ltac:(lia)) as (ps & Hps & Hd).
  rewrite Hlv in Hd. simpl in Hd.
  apply Forall2_cons_inv_r in Hd as (p0 & ps' & (nd & Hnd & Hrd) & _ & ->).
  assert (root_node t = Some nd) as Hroot.
  { unfold root_node, root. change 0 with (Z.of_nat 0).
    rewrite index_of_nat, Hps. by simpl. }
  split_and!; [|done|].
  - destruct (Construct_succeeds hash Hnn [v] NewTree) as (_ & k & Hk);
      [done|by unfold len|].
    apply (Construct_mono hash fuel (S k)) in Hrun; [|done|by unfold len].
    destruct (Hk fuel) as [t'' Hk'].
    replace (fuel + S k)%nat with (S k + fuel)%nat in Hrun by lia.
    rewrite Hk' in Hrun. by injection Hrun as <- _.
  - rewrite (VerifyProof_root hash t (NewProof [None] (hash v))
               (hash (hash v)) nd eq_refl Hroot).
    unfold bytes_Equal. rewrite Hrd. simpl.
    by rewrite bool_decide_eq_true_2.
Qed.

Lemma single_value_tree_witness :
  let v := ["a"%byte] in
  ((forall x, toy_hash x <> [])
   /\ Construct toy_hash 8 [v] NewTree = Ret (built_root [v]) (built [v]))
  /\ built_root [v] = Some (toy_hash (toy_hash v))
  /\ Height (built [v]) = 2
  /\ VerifyProof toy_hash (NewProof [None] (toy_hash v)) (built [v])
     = Ret (true, NewProof [None] (toy_hash (toy_hash v))) (built [v]).
Proof.
  intros v.
  assert (Construct toy_hash 8 [v] NewTree = Ret (built_root [v]) (built [v]))
    as Hrun by (vm_compute; reflexivity).
  split; [split; [exact toy_hash_nonnil|exact Hrun]|].
  exact (single_value_tree toy_hash 8 v _ _ toy_hash_nonnil Hrun).
Defined.

(** X23.  After a successful [Construct] the pointers of the nodes
    agree with the levels.  The root has no parent.  The node at
    position [i] of a level below the root has the node at position
    [i / 2] of the level above as its parent, and is that node's left
    child when [i] is even and its right child when [i] is odd.  A node
    with no node at position [2 * i + 1] below it has no right child.
    The nodes of the last level, and only they, are leaves. *)
Theorem Construct_links (hash : bytes -> bytes) (fuel : nat)
    (vals : list bytes) (d : option bytes) (t : Tree) :
  (forall x, hash x <> []) -> vals <> [] -> len vals < 2 ^ 63 ->
  Construct hash fuel vals NewTree = Ret d t ->
  (exists r R, levels t !! 0%nat = Some [Some r]
               /\ nodes t !! r = Some R /\ parent R = None)
  /\ (forall j lv i p,
        levels t !! S j = Some lv -> lv !! i = Some (Some p) ->
        exists up q,
          levels t !! j = Some up /\ up !! Nat.div2 i = Some (Some q)
          /\ child_of t q i p)
  /\ (forall j up lv i q,
        levels t !! j = Some up -> levels t !! S j = Some lv ->
        up !! i = Some (Some q) -> lv !! S (2 * i) = None ->
        exists Q, nodes t !! q = Some Q /\ right Q = None)
  /\ (forall j lv i p,
        levels t !! j = Some lv -> lv !! i = Some (Some p) ->
        exists N, nodes t !! p = Some N
          /\ IsLeaf N = bool_decide (S j = length (levels t))).
Proof.
  intros Hnn Hne Hmax Hrun.
  destruct (Construct_rows hash Hnn fuel vals d t Hne Hmax Hrun)
    as (rows & troot & Hrl & Hst & Hr0 & Hroot & Hrk & Hrows).
  assert (forall j lv i p,
            levels t !! j = Some lv -> lv !! i = Some (Some p) ->
            exists row c par,
              rows !! j = Some row /\ lv = map ptr_of row
              /\ row !! i = Some c /\ addr c = p
              /\ repr hash true (nodes t) par c) as Hat.
  { intros j lv i p Hlv Hp.
    destruct (lookup_lt_is_Some_2 rows j) as [row Hrow].
    { rewrite Hrl. by eapply lookup_lt_Some. }
    destruct (Hrows j row Hrow) as [Hlv' Hh].
    assert (lv = map ptr_of row) as -> by congruence.
    rewrite list_lookup_fmap in Hp.
    destruct (row !! i) as [c|] eqn:Hc; [|done].
    injection Hp as <-.
    destruct (proj1 (Forall_forall _ _) Hh c) as (par & Hrep & _).
    { by eapply list_elem_of_lookup_2. }
    by exists row, c, par. }
  split_and!.
  - destruct (Hrows 0%nat [troot] Hr0) as [Hlv _].
    exists (addr troot), (node_of hash true None troot).
    split_and!; [done|by apply repr_root|apply parent_node_of].
  - intros j lv i p Hlv Hp.
    destruct (Hat (S j) lv i p Hlv Hp) as (lower & c & _ & Hlo & -> & Hc & <- & _).
    destruct (lookup_lt_is_Some_2 rows j) as [upper Hup].
    { apply lookup_lt_Some in Hlo. lia. }
    destruct (Hst j upper lower Hup Hlo) as [a ->].
    destruct (Hrows j _ Hup) as [Hlv' Hh].
    destruct (pair_trees_child a lower i c Hc) as (u & Hu & Hkind).
    destruct (proj1 (Forall_forall _ _) Hh u) as (par & Hrep & _).
    { by eapply list_elem_of_lookup_2. }
    apply repr_children in Hrep as [HU Hkids].
    exists (map ptr_of (pair_trees a lower)), (addr u).
    split; [done|]. split; [by rewrite list_lookup_fmap, Hu|].
    destruct u as [|a' l|a' l r]; [done| |].
    + destruct Hkind as [Hev ->].
      exists (node_of hash true (Some a') c), (node_of hash true par (AOne a' c)).
      split_and!; try done; [apply parent_node_of|by rewrite Hev].
    + destruct Hkids as [Hl Hr].
      destruct (Nat.even i) eqn:Hev; subst c.
      * exists (node_of hash true (Some a') l),
          (node_of hash true par (ATwo a' l r)).
        split_and!; try done; [apply parent_node_of|by rewrite Hev].
      * exists (node_of hash true (Some a') r),
          (node_of hash true par (ATwo a' l r)).
        split_and!; try done; [apply parent_node_of|by rewrite Hev].
  - intros j up lv i q Hup Hlv Hq Hnone.
    destruct (Hat j up i q Hup Hq) as (upper & u & par & Hu & -> & Hui & <- & Hrep).
    destruct (lookup_lt_is_Some_2 rows (S j)) as [lower Hlo].
    { rewrite Hrl. by eapply lookup_lt_Some. }
    destruct (Hst j upper lower Hu Hlo) as [a ->].
    destruct (Hrows (S j) _ Hlo) as [Hlv' _].
    assert (lv = map ptr_of lower) as -> by congruence.
    rewrite list_lookup_fmap in Hnone.
    apply pair_trees_lookup in Hui.
    exists (node_of hash true par u). split; [by apply repr_root|].
    destruct u as [|a' l|a' l r]; [done|done|].
    destruct Hui as [_ Hr]. by rewrite Hr in Hnone.
  - intros j lv i p Hlv Hp.
    destruct (Hat j lv i p Hlv Hp) as (row & c & par & Hrow & -> & Hc & <- & Hrep).
    exists (node_of hash true par c). split; [by apply repr_root|].
    case_bool_decide as Hlast.
    + assert (j = (length rows - 1)%nat) as -> by lia.
      rewrite Hrk in Hrow. injection Hrow as <-.
      assert (exists a0 d0, c = ALeaf a0 d0) as (a0 & d0 & ->); [|done].
      clear -Hc. revert i Hc. generalize 0%nat.
      induction (map (Sum hash) vals) as [|d0 ds IH]; intros a0 i; [done|].
      destruct i as [|i]; simpl; [intros [= <-]; eauto|apply IH].
    + assert (S j < length rows)%nat as Hlt.
      { apply lookup_lt_Some in Hrow. lia. }
      destruct (lookup_lt_is_Some_2 rows (S j) Hlt) as [lower Hlo].
      destruct (Hst j row lower Hrow Hlo) as [a ->].
      apply pair_trees_lookup in Hc.
      by destruct c as [|a' l|a' l r].
Qed.

Lemma Construct_links_witness :
  let t := built (take 3 vals8) in
  ((forall x, toy_hash x <> []) /\ take 3 vals8 <> []
   /\ len (take 3 vals8) < 2 ^ 63
   /\ Construct toy_hash 16 (take 3 vals8) NewTree
      = Ret (built_root (take 3 vals8)) t)
  /\ (exists r R, levels t !! 0%nat = Some [Some r]
                  /\ nodes t !! r = Some R /\ parent R = None)
  /\ (forall j lv i p,
        levels t !! S j = Some lv -> lv !! i = Some (Some p) ->
        exists up q,
          levels t !! j = Some up /\ up !! Nat.div2 i = Some (Some q)
          /\ child_of t q i p)
  /\ (forall j up lv i q,
        levels t !! j = Some up -> levels t !! S j = Some lv ->
        up !! i = Some (Some q) -> lv !! S (2 * i) = None ->
        exists Q, nodes t !! q = Some Q /\ right Q = None)
  /\ (forall j lv i p,
        levels t !! j = Some lv -> lv !! i = Some (Some p) ->
        exists N, nodes t !! p = Some N
          /\ IsLeaf N = bool_decide (S j = length (levels t))).
Proof.
  intros t.
  assert (Construct toy_hash 16 (take 3 vals8) NewTree
          = Ret (built_root (take 3 vals8)) t) as Hrun
    by (vm_compute; reflexivity).
  assert (take 3 vals8 <> []) as Hne by discriminate.
  assert (len (take 3 vals8) < 2 ^ 63) as Hmax by reflexivity.
  split.
  - split; [exact toy_hash_nonnil|]. by repeat split.
  - exact (Construct_links toy_hash 16 (take 3 vals8) _ _
             toy_hash_nonnil Hne Hmax Hrun).
Defined.


(** ** constructLevel *)

(** X24.  Over a level of [n] different nodes [constructLevel] makes
    [ceil (n / 2)] new nodes, at the next free addresses and in order,
    and returns them as the level above.  The new node [k] has no
    digest and no parent, child [2 * k] as its left child and child
    [2 * k + 1] as its right child, or no right child when the level
    ends before; every child has the new node over it as its parent
    and is otherwise as it was; no other node has changed. *)
Theorem constructLevel_links (cs : list ptr) (hp : Heap) :
  NoDup cs -> Forall (fun c => (c < length hp)%nat) cs ->
  let a0 := length hp in
  let m := half (length cs) in
  exists hp',
    constructLevel (map Some cs) hp = Ret (map Some (seq a0 m)) hp'
    /\ length hp' = (a0 + m)%nat
    /\ (forall k, (k < m)%nat ->
          hp' !! (a0 + k)%nat
          = Some (mkNode None None (cs !! (2 * k)%nat) (cs !! S (2 * k))))
    /\ (forall j c, cs !! j = Some c ->
          hp' !! c = set_parent (Some (a0 + Nat.div2 j)%nat) <$> hp !! c)
    /\ (forall b, (b < a0)%nat -> b ∉ cs -> hp' !! b = hp !! b).
Proof.
  intros Hnd Hval a0 m. unfold constructLevel.
  assert (Z.to_nat (Z.quot (len (map Some cs) + Z.rem (len (map Some cs)) 2) 2)
          = m) as ->.
  { unfold m, half, len. rewrite length_map. lia_div. }
  destruct (constructLevel_loop_raw cs a0 Hnd Hval m 0 hp)
    as (hp' & Hrun & Hlen & Hkids & Hothers & Hnew); [done|unfold a0; lia|].
  exists hp'. split_and!.
  - exact Hrun.
  - lia.
  - intros k Hk. apply Hnew. lia.
  - intros j c Hc. apply Hkids; [done|lia].
  - intros b Hb Hnot. apply Hothers; [lia|].
    intros j _ Hj. apply Hnot. by eapply list_elem_of_lookup_2.
Qed.

Lemma constructLevel_links_witness :
  let cs := [0; 1; 2]%nat in
  let a0 := length heap3 in
  let m := half (length cs) in
  (NoDup cs /\ Forall (fun c => (c < length heap3)%nat) cs)
  /\ exists hp',
       constructLevel (map Some cs) heap3 = Ret (map Some (seq a0 m)) hp'
       /\ length hp' = (a0 + m)%nat
       /\ (forall k, (k < m)%nat ->
             hp' !! (a0 + k)%nat
             = Some (mkNode None None (cs !! (2 * k)%nat) (cs !! S (2 * k))))
       /\ (forall j c, cs !! j = Some c ->
             hp' !! c = set_parent (Some (a0 + Nat.div2 j)%nat) <$> heap3 !! c)
       /\ (forall b, (b < a0)%nat -> b ∉ cs -> hp' !! b = heap3 !! b).
Proof.
  intros cs a0 m.
  assert (NoDup cs) as Hnd.
  { repeat (apply NoDup_cons; split;
            [rewrite ?elem_of_cons, ?elem_of_nil; lia|]).
    apply NoDup_nil_2. }
  assert (Forall (fun c => (c < length heap3)%nat) cs) as Hval.
  { repeat (apply Forall_cons; split; [simpl; lia|]). apply Forall_nil_2. }
  split; [by split|].
  exact (constructLevel_links cs heap3 Hnd Hval).
Defined.
